(** * Verification of [participant_solution.py]

    A shallow embedding of the genetic-profile matcher of
    [src/codechallenge2025/participant_solution.py]: the allele parser
    [_parse_alleles], the locus evaluator [_evaluate_locus], the scorer and
    ranker [match_single] and the batch driver [find_matches].

    Python [float] is IEEE 754 binary64.  It is modelled by the Standard
    Library's executable specification [SpecFloat] at precision 53 and
    maximal exponent 1024, so that equality tests, differences, sums and
    quotients round exactly as they do in the interpreter.  Python [int] is
    [Z].  Text is [string]; all text is assumed to be ASCII. *)

From Stdlib Require Import ZArith Ascii String List Bool Lia.
From Stdlib Require Import QArith Qabs Qpower.
From Stdlib Require Import Floats.SpecFloat.
From stdpp Require Import base option list gmap strings sorting.

(** ** Binary64 floating-point numbers *)

Module Float.

Local Open Scope Z_scope.

Definition prec : Z := 53.
Definition emax : Z := 1024.

Definition float : Type := spec_float.

Definition add : float -> float -> float := SFadd prec emax.
Definition sub : float -> float -> float := SFsub prec emax.

(** [x / y].  (The interpreter raises [ZeroDivisionError] on a zero
    divisor instead of returning an infinity or a NaN; the one division
    of [match_single] has the divisor [score + 1], which is never zero:
    see [posterior_divisor_positive].) *)
Definition div : float -> float -> float := SFdiv prec emax.
Definition abs : float -> float := SFabs.
Definition eqb : float -> float -> bool := SFeqb.
Definition ltb : float -> float -> bool := SFltb.
Definition leb : float -> float -> bool := SFleb.

(** The number [m * 2^e] rounded to nearest, ties to even; it is exact
    when [m] has at most 53 binary digits. *)
Definition dyadic (m e : Z) : float := binary_normalize prec emax m e false.

(** [float(n)] for a Python [int] [n]: the nearest float.  (The
    interpreter raises [OverflowError] where this gives an infinity, from
    about 2^1024 on; the integers converted here are locus counts.) *)
Definition of_int (n : Z) : float := dyadic n 0.

(** The value [m * 10^e] of a decimal literal, correctly rounded. *)
Definition of_decimal (neg : bool) (m : Z) (e : Z) : float :=
  match m with
  | Zpos p =>
      if 0 <=? e then binary_round prec emax neg (Z.to_pos (m * 10 ^ e)) 0
      else
        let '(q, e', l) := SFdiv_core_binary prec emax m 0 (10 ^ (- e)) 0 in
        binary_round_aux prec emax neg q e' l
  | _ => S754_zero neg
  end.

Definition zero : float := S754_zero false.
Definition one : float := Eval vm_compute in of_int 1.
Definition half : float := Eval vm_compute in of_decimal false 5 (-1).
(** The literal [1e-6]. *)
Definition epsilon : float := Eval vm_compute in of_decimal false 1 (-6).

Definition is_nan (x : float) : bool :=
  match x with S754_nan => true | _ => false end.

(** [x == n] for a float [x] and an [int] [n]: the two numbers are
    compared exactly, the integer is not rounded to a float first. *)
Definition eqb_int (x : float) (n : Z) : bool :=
  match x with
  | S754_zero _ => n =? 0
  | S754_finite s m e =>
      if 0 <=? e then cond_Zopp s (Zpos m) * 2 ^ e =? n
      else cond_Zopp s (Zpos m) =? n * 2 ^ (- e)
  | _ => false
  end.

Definition is_finite (x : float) : bool :=
  match x with S754_zero _ | S754_finite _ _ _ => true | _ => false end.

(** [max(x, y)] of the interpreter on two arguments: the first one is
    kept unless the second is strictly greater. *)
Definition max (x y : float) : float := if ltb x y then y else x.

End Float.

Abbreviation float := Float.float.

(** ** Text: the string methods the parser uses *)

Module Text.

Local Open Scope char_scope.

(** [str.isspace] on ASCII characters: TAB, LF, VT, FF, CR, the four
    separators FS, GS, RS, US, and the space. *)
Definition is_space (c : ascii) : bool :=
  let n := N_of_ascii c in
  ((9 <=? n) && (n <=? 13) || (28 <=? n) && (n <=? 32))%N.

Fixpoint lstrip (l : list ascii) : list ascii :=
  match l with
  | c :: r => if is_space c then lstrip r else l
  | [] => []
  end.

Definition rstrip (l : list ascii) : list ascii := rev (lstrip (rev l)).

(** [s.strip()] *)
Definition strip (s : string) : string :=
  string_of_list_ascii (rstrip (lstrip (list_ascii_of_string s))).

(** [s.split(sep)] for a one-character separator: the fields between
    separators, empty fields included; never an empty list. *)
Fixpoint split (sep : ascii) (s : string) : list string :=
  match s with
  | EmptyString => [EmptyString]
  | String c r =>
      if Ascii.eqb c sep then EmptyString :: split sep r
      else
        match split sep r with
        | f :: fs => String c f :: fs
        | [] => [String c EmptyString]
        end
  end.

Definition is_digit (c : ascii) : bool :=
  let n := N_of_ascii c in ((48 <=? n) && (n <=? 57))%N.

Definition digit_value (c : ascii) : Z := (Z.of_N (N_of_ascii c) - 48)%Z.

(** ASCII lower-casing, for the case-insensitive literals. *)
Definition lower (c : ascii) : ascii :=
  let n := N_of_ascii c in
  if ((65 <=? n) && (n <=? 90))%N then ascii_of_N (n + 32) else c.

End Text.

(** ** The built-in [float(text)]

    Grammar of the language reference, on ASCII text:
    [[sign] (floatnumber | "inf" | "infinity" | "nan")], letters in any
    case, where a digit part is [digit (["_"] digit)*], a number is
    [[digitpart] "." digitpart | digitpart ["."]] and an exponent is
    [("e" | "E") [sign] digitpart].  The value is the decimal number
    rounded to the nearest binary64, ties to even; [None] stands for
    [ValueError].  The parser only calls it on stripped tokens, so the
    surrounding white space the built-in tolerates is left out. *)

Module PyFloat.

Import Text.
Local Open Scope char_scope.

Definition sign (l : list ascii) : bool * list ascii :=
  match l with
  | "+" :: r => (false, r)
  | "-" :: r => (true, r)
  | _ => (false, l)
  end.

(** [(["_"] digit)*]: the digits that continue a digit part, and the
    text left after them. *)
Fixpoint digit_run (l : list ascii) : list Z * list ascii :=
  match l with
  | c :: r =>
      if is_digit c then
        let '(ds, rest) := digit_run r in (digit_value c :: ds, rest)
      else if Ascii.eqb c "_" then
        match r with
        | c' :: _ => if is_digit c' then digit_run r else ([], l)
        | [] => ([], l)
        end
      else ([], l)
  | [] => ([], [])
  end.

Definition digitpart (l : list ascii) : option (list Z * list ascii) :=
  match l with
  | c :: r =>
      if is_digit c then
        let '(ds, rest) := digit_run r in Some (digit_value c :: ds, rest)
      else None
  | [] => None
  end.

(** Integer digits, fraction digits, remaining text. *)
Definition number (l : list ascii) : option (list Z * list Z * list ascii) :=
  match digitpart l with
  | Some (ip, r) =>
      match r with
      | "." :: r' =>
          match digitpart r' with
          | Some (fp, r'') => Some (ip, fp, r'')
          | None => Some (ip, [], r')
          end
      | _ => Some (ip, [], r)
      end
  | None =>
      match l with
      | "." :: r' =>
          match digitpart r' with
          | Some (fp, r'') => Some ([], fp, r'')
          | None => None
          end
      | _ => None
      end
  end.

Definition digits_value (ds : list Z) : Z :=
  fold_left (fun acc d => 10 * acc + d)%Z ds 0%Z.

(** The exponent that ends the literal; nothing may follow it. *)
Definition exponent (l : list ascii) : option Z :=
  match l with
  | [] => Some 0%Z
  | c :: r =>
      if Ascii.eqb (lower c) "e" then
        let '(neg, r') := sign r in
        match digitpart r' with
        | Some (ds, []) =>
            Some (if neg then (- digits_value ds)%Z else digits_value ds)
        | _ => None
        end
      else None
  end.

Definition float_of_string (s : string) : option float :=
  let '(neg, l) := sign (list_ascii_of_string s) in
  let word := string_of_list_ascii (map lower l) in
  if (String.eqb word "inf" || String.eqb word "infinity")%bool
  then Some (S754_infinity neg)
  else if String.eqb word "nan" then Some S754_nan
  else
    match number l with
    | Some (ip, fp, r) =>
        match exponent r with
        | Some e =>
            Some (Float.of_decimal neg (digits_value (ip ++ fp))
                    (e - Z.of_nat (length fp))%Z)
        | None => None
        end
    | None => None
    end.

End PyFloat.

(** ** Data model *)

(** A number held by a query mapping or a table row: an [int] or a
    [float].  (A [bool] is the integer 0 or 1.) *)
Inductive number : Type :=
  | Int (n : Z)
  | Flt (x : float).

(** [a == b] on numbers: by value, whatever the two types.  An [int] and
    a [float] are compared exactly, as the interpreter does; the scalars
    of a table row round the integer to a float first, which makes no
    difference for integers below 2^53 in absolute value. *)
Definition number_eqb (a b : number) : bool :=
  match a, b with
  | Int m, Int n => (m =? n)%Z
  | Flt x, Flt y => Float.eqb x y
  | Int n, Flt x | Flt x, Int n => Float.eqb_int x n
  end.

(** A scalar held by a query mapping or a table row, as [read_csv]
    produces them: the missing-data marker (the float NaN), a string, or a
    number together with its text [str(value)]. *)
Inductive cell : Type :=
  | NA
  | Str (s : string)
  | Num (x : number) (text : string).

(** [a == b] on scalars.  A string equals the same string and no number;
    two numbers are equal when their values are; the missing-data marker
    is a NaN and equals nothing, itself included. *)
Definition cell_eqb (a b : cell) : bool :=
  match a, b with
  | Str s, Str t => String.eqb s t
  | Num x _, Num y _ => number_eqb x y
  | _, _ => false
  end.

(** [pd.isna(value)] on a scalar. *)
Definition isna (value : cell) : bool :=
  match value with
  | NA => true
  | Num (Flt x) _ => Float.is_nan x
  | Num (Int _) _ | Str _ => false
  end.

(** [str(value)] *)
Definition str (value : cell) : string :=
  match value with
  | NA => "nan"
  | Str s => s
  | Num _ text => text
  end.

(** ** Allele parser *)

(** One turn of the loop of [_parse_alleles] over the comma-separated
    fields. *)
Definition parse_token (alleles : list float) (allele : string) : list float :=
  let allele := Text.strip allele in
  if String.eqb allele "" then alleles
  else
    match PyFloat.float_of_string allele with
    | Some x => alleles ++ [x]
    | None => alleles
    end.

Definition _parse_alleles (value : cell) : option (list float) :=
  if isna value then None
  else
    let text := Text.strip (str value) in
    if (String.eqb text "" || String.eqb text "-")%bool then None
    else
      let alleles := fold_left parse_token (Text.split "," text) [] in
      match alleles with
      | [] => None
      | _ :: _ => Some alleles
      end.

(** ** Locus evaluator *)

(** [set(xs)]: the distinct elements of [xs] under [==], in order of
    first occurrence.  A NaN equals nothing, and two parsed NaN are
    different objects, so every NaN stays. *)
Definition py_set (xs : list float) : list float :=
  fold_left
    (fun s x => if existsb (fun y => Float.eqb y x) s then s else s ++ [x])
    xs [].

(** [s.intersection(other)]: the elements of [other] found in [s].
    Membership is by [==]: the interpreter tests the identity of the two
    objects first, but [match_single] parses the query's field and the
    candidate's field separately, so no float object, and in particular
    no NaN, is in both lists. *)
Definition intersection (s other : list float) : list float :=
  py_set (List.filter (fun b => existsb (fun a => Float.eqb a b) s) other).

(** [any(abs(a - b) == 1 for a in xs for b in ys)] *)
Definition any_adjacent (xs ys : list float) : bool :=
  existsb
    (fun a => existsb (fun b => Float.eqb (Float.abs (Float.sub a b)) Float.one) ys)
    xs.

(** The tuple [(consistent, mutated, inconclusive, mismatch_score)].  The
    last component is given as the float that the accumulation
    [mismatch_penalty += penalty] adds: [0] and [1] stand for [0.0] and
    [1.0]. *)
Definition _evaluate_locus (query_alleles candidate_alleles : option (list float))
  : Z * Z * Z * float :=
  match query_alleles, candidate_alleles with
  | Some qs, Some cs =>
      let shared := intersection (py_set qs) cs in
      match shared with
      | _ :: _ => (1, 0, 0, Float.zero)%Z
      | [] =>
          let mutated := any_adjacent qs cs in
          if mutated then (0, 1, 0, Float.half)%Z
          else (0, 0, 0, Float.one)%Z
      end
  | _, _ => (0, 0, 1, Float.zero)%Z
  end.

(** ** Exceptions *)

Inductive exception : Type :=
  | KeyError (key : string).

Definition exception_name (e : exception) : string :=
  match e with KeyError _ => "KeyError" end.

Inductive result (A : Type) : Type :=
  | Ok (a : A)
  | Raise (e : exception).

Arguments Ok {A} a.
Arguments Raise {A} e.

Definition bind {A B : Type} (m : result A) (k : A -> result B) : result B :=
  match m with
  | Ok a => k a
  | Raise e => Raise e
  end.

Notation "x <- m ;; k" := (bind m (fun x => k))
  (at level 100, m at next level, right associativity).

(** A [for] loop whose body may raise: the state is threaded through the
    elements in order and the first exception ends the loop. *)
Fixpoint for_each {A S : Type} (body : S -> A -> result S) (s : S) (l : list A)
  : result S :=
  match l with
  | [] => Ok s
  | x :: l' => s' <- body s x ;; for_each body s' l'
  end.

(** [d[key]] on a mapping or a table row. *)
Definition getitem (d : gmap string cell) (key : string) : result cell :=
  match d !! key with
  | Some v => Ok v
  | None => Raise (KeyError key)
  end.

(** ** Profiles, tables and results *)

(** A table: its column labels in order, and its rows in order, each row
    mapping a label to a cell. *)
Record DataFrame : Type := {
  columns : list string;
  rows : list (gmap string cell)
}.

Record MatchResult : Type := {
  person_id : cell;
  clr : float;
  posterior : float;
  consistent_loci : Z;
  mutated_loci : Z;
  inconclusive_loci : Z
}.

(** The four accumulators of the inner loop. *)
Record tally : Type := {
  consistent : Z;
  mutated : Z;
  inconclusive : Z;
  mismatch_penalty : float
}.

Definition tally0 : tally :=
  {| consistent := 0; mutated := 0; inconclusive := 0;
     mismatch_penalty := Float.zero |}.

(** ** Ranking: [candidates.sort(key=clr, reverse=True)]

    The list sort is stable, and with [reverse=True] elements of equal key
    keep their original order.  For keys that are totally ordered this
    determines the outcome; it is computed here by insertion, from the
    last element to the first, each one going in front of the first
    element whose key is not greater. *)

Fixpoint insert_desc (x : MatchResult) (l : list MatchResult) : list MatchResult :=
  match l with
  | [] => [x]
  | y :: l' =>
      if Float.ltb (clr x) (clr y) then y :: insert_desc x l' else x :: l
  end.

Definition sort_desc (l : list MatchResult) : list MatchResult :=
  foldr insert_desc [] l.

(** ** Profile scorer and match ranker *)

Definition PersonID : string := "PersonID".

(** The body of [for locus in loci]. *)
Definition score_locus (query_alleles_by_locus : gmap string (option (list float)))
    (candidate : gmap string cell) (acc : tally) (locus : string) : result tally :=
  let q_alleles := mjoin (query_alleles_by_locus !! locus) in
  value <- getitem candidate locus ;;
  let c_alleles := _parse_alleles value in
  let '(c, m, inc, penalty) := _evaluate_locus q_alleles c_alleles in
  Ok {| consistent := consistent acc + c;
        mutated := mutated acc + m;
        inconclusive := inconclusive acc + inc;
        mismatch_penalty := Float.add (mismatch_penalty acc) penalty |}.

Definition score_of (t : tally) : float :=
  Float.add
    (Float.max
       (Float.sub (Float.of_int (consistent t * 2 + mutated t)) (mismatch_penalty t))
       Float.zero)
    Float.epsilon.

Definition posterior_of (score : float) : float :=
  Float.div score (Float.add score Float.one).

(** The body of [for _, candidate in database_df.iterrows()]. *)
Definition scan_row (query_id : cell)
    (query_alleles_by_locus : gmap string (option (list float)))
    (loci : list string) (candidates : list MatchResult)
    (candidate : gmap string cell) : result (list MatchResult) :=
  cid <- getitem candidate PersonID ;;
  if cell_eqb cid query_id then Ok candidates
  else
    t <- for_each (score_locus query_alleles_by_locus candidate) tally0 loci ;;
    let score := score_of t in
    Ok (candidates ++
          [ {| person_id := cid;
               clr := score;
               posterior := posterior_of score;
               consistent_loci := consistent t;
               mutated_loci := mutated t;
               inconclusive_loci := inconclusive t |} ]).

Definition schema_loci (database_df : DataFrame) : list string :=
  List.filter (fun col => negb (String.eqb col PersonID)) (columns database_df).

Definition match_single (query_profile : gmap string cell) (database_df : DataFrame)
  : result (list MatchResult) :=
  query_id <- getitem query_profile PersonID ;;
  let query_alleles_by_locus := _parse_alleles <$> delete PersonID query_profile in
  let loci := schema_loci database_df in
  candidates <-
    for_each (scan_row query_id query_alleles_by_locus loci) [] (rows database_df) ;;
  Ok (take 10 (sort_desc candidates)).

(** ** Batch driver

    [find_matches] after the two tables have been read. *)

Record QueryResult : Type := {
  query_id : cell;
  top_candidates : list MatchResult
}.

Definition find_matches (database_df queries_df : DataFrame)
  : result (list QueryResult) :=
  for_each
    (fun results query_row =>
       qid <- getitem query_row PersonID ;;
       top <- match_single query_row database_df ;;
       Ok (results ++ [ {| query_id := qid; top_candidates := take 10 top |} ]))
    [] (rows queries_df).

(** ** Vocabulary of the specification *)

Inductive LocusVerdict : Type :=
  | Consistent
  | Mutated
  | Inconclusive
  | Mismatch.

(** The tuple [_evaluate_locus] returns for each verdict: the three
    indicator counts and the penalty 0, 0.5 or 1. *)
Definition verdict_tuple (v : LocusVerdict) : Z * Z * Z * float :=
  match v with
  | Consistent => (1, 0, 0, Float.zero)%Z
  | Mutated => (0, 1, 0, Float.half)%Z
  | Inconclusive => (0, 0, 1, Float.zero)%Z
  | Mismatch => (0, 0, 0, Float.one)%Z
  end.

(** The two allele lists have a common value. *)
Definition shares_allele (qs cs : list float) : Prop :=
  exists a b, In a qs /\ In b cs /\ Float.eqb a b = true.

(** Some query allele and some candidate allele pass the test of the
    code, [abs(a - b) == 1] as the interpreter computes it: the difference
    is rounded to binary64 before it is compared.  What the test means of
    the exact values is the subject of [test_rounds_to_one]. *)
Definition adjacent_pair (qs cs : list float) : Prop :=
  exists a b, In a qs /\ In b cs /\
    Float.eqb (Float.abs (Float.sub a b)) Float.one = true.

(** *** Exact values

    The values of binary64 are rational numbers; distances between them
    are taken in [Q], without rounding. *)

(** A float in its canonical binary64 representation, as every float of
    the interpreter is: at most 53 binary digits, the exponent in range,
    the mantissa normalised or the exponent minimal.  The floats the
    parser returns are such ([parse_alleles_valid]). *)
Definition valid (x : float) : Prop :=
  valid_binary Float.prec Float.emax x = true.

Definition valid_alleles (alleles : option (list float)) : Prop :=
  match alleles with
  | Some l => Forall valid l
  | None => True
  end.

(** The exact value of a float that is a number: an infinity and a NaN
    have none. *)
Definition value (x : float) : option Q :=
  match x with
  | S754_zero _ => Some 0%Q
  | S754_finite s m e => Some (inject_Z (cond_Zopp s (Zpos m)) * 2 ^ e)%Q
  | S754_infinity _ | S754_nan => None
  end.

(** The exact distance [|a - b|] of two floats that are numbers. *)
Definition distance (a b : float) : option Q :=
  match value a, value b with
  | Some va, Some vb => Some (Qabs (va - vb))
  | _, _ => None
  end.

(** The distances that round to 1.0 at 53 binary digits, to nearest and
    ties to even: from [1 - 2^-54] to [1 + 2^-53], both included. *)
Definition rounds_to_one (d : Q) : Prop :=
  (1 - (1 # 2 ^ 54) <= d <= 1 + (1 # 2 ^ 53))%Q.

(** Some query allele and some candidate allele differ by exactly 1 in
    absolute value. *)
Definition exactly_one_apart (qs cs : list float) : Prop :=
  exists a b d, In a qs /\ In b cs /\ distance a b = Some d /\ (d == 1)%Q.

(** Some query allele and some candidate allele have a distance that
    rounds to 1.0. *)
Definition nearly_one_apart (qs cs : list float) : Prop :=
  exists a b d, In a qs /\ In b cs /\ distance a b = Some d /\ rounds_to_one d.

(** [m / 2^n] rounded to the nearest integer, ties to even. *)
Definition nearest (m n : Z) : Z :=
  let q := (m / 2 ^ n)%Z in
  let r := (m mod 2 ^ n)%Z in
  if (2 * r <? 2 ^ n)%Z then q
  else if (2 ^ n <? 2 * r)%Z then (q + 1)%Z
  else if Z.even q then q else (q + 1)%Z.

(** The integer [M], counted in units of [2^e], rounds to 1 at 53 binary
    digits: [1 - 2^-54 <= M * 2^e <= 1 + 2^-53], in integers. *)
Definition near_one (M e : Z) : Prop :=
  (e <= 0 /\
   (2 ^ 54 - 1) * 2 ^ (- e) <= 2 ^ 54 * M <= (2 ^ 54 + 2) * 2 ^ (- e))%Z.

(** The exact difference [a - b] of two floats that are numbers, as an
    integer [M] and an exponent [e]: the difference is [M * 2^e]. *)
Definition difference (a b : float) : option (Z * Z) :=
  match a, b with
  | S754_zero _, S754_zero _ => Some (0, 0)%Z
  | S754_zero _, S754_finite sb mb eb => Some (- cond_Zopp sb (Zpos mb), eb)%Z
  | S754_finite sa ma ea, S754_zero _ => Some (cond_Zopp sa (Zpos ma), ea)
  | S754_finite sa ma ea, S754_finite sb mb eb =>
      let e := Z.min ea eb in
      Some (cond_Zopp sa (Zpos ma) * 2 ^ (ea - e)
            - cond_Zopp sb (Zpos mb) * 2 ^ (eb - e), e)%Z
  | _, _ => None
  end.


(** The number a comma-separated field contributes, if any. *)
Definition token_value (allele : string) : option float :=
  PyFloat.float_of_string (Text.strip allele).

(** The numeric values that survive parsing, in field order: split on
    commas, trim each field, keep the fields that [float] accepts. *)
Definition surviving_values (text : string) : list float :=
  omap token_value (Text.split "," text).

(** The verdict a tuple of [_evaluate_locus] stands for. *)
Definition verdict_of (t : Z * Z * Z * float) : LocusVerdict :=
  let '(c, m, inc, _) := t in
  if (c =? 1)%Z then Consistent
  else if (m =? 1)%Z then Mutated
  else if (inc =? 1)%Z then Inconclusive
  else Mismatch.

Definition verdict_penalty (v : LocusVerdict) : float :=
  match v with
  | Mutated => Float.half
  | Mismatch => Float.one
  | Consistent | Inconclusive => Float.zero
  end.

#[global] Instance LocusVerdict_eq_dec : EqDecision LocusVerdict.
Proof. solve_decision. Defined.

(** The query's parsed alleles per locus, as [match_single] prepares
    them: every key but the identifier. *)
Definition parse_query (query_profile : gmap string cell)
  : gmap string (option (list float)) :=
  _parse_alleles <$> delete PersonID query_profile.

(** The verdict of one locus for a candidate row, when the row has a cell
    for it. *)
Definition locus_verdict (query_alleles_by_locus : gmap string (option (list float)))
    (candidate : gmap string cell) (locus : string) : option LocusVerdict :=
  match candidate !! locus with
  | Some value =>
      Some (verdict_of
              (_evaluate_locus (mjoin (query_alleles_by_locus !! locus))
                 (_parse_alleles value)))
  | None => None
  end.

(** What a locus of verdict [w] adds to the count of verdict [v]. *)
Definition bump (v w : LocusVerdict) : Z := if bool_decide (w = v) then 1%Z else 0%Z.

(** How many of the loci get verdict [v]. *)
Definition count_verdict (v : LocusVerdict)
    (query_alleles_by_locus : gmap string (option (list float)))
    (candidate : gmap string cell) (loci : list string) : Z :=
  Z.of_nat
    (length
       (List.filter
          (fun locus =>
             bool_decide (locus_verdict query_alleles_by_locus candidate locus = Some v))
          loci)).

(** The penalties of the loci, added up in schema order from [0.0]. *)
Definition total_penalty
    (query_alleles_by_locus : gmap string (option (list float)))
    (candidate : gmap string cell) (loci : list string) : float :=
  fold_left
    (fun p locus =>
       Float.add p
         (match locus_verdict query_alleles_by_locus candidate locus with
          | Some v => verdict_penalty v
          | None => Float.zero
          end))
    loci Float.zero.

(** A candidate row is the query itself. *)
Definition is_self (query_id : cell) (candidate : gmap string cell) : bool :=
  match candidate !! PersonID with
  | Some cid => cell_eqb cid query_id
  | None => false
  end.

(** The rows the ranker scores: all but the query's own, in scan order. *)
Definition non_self_rows (query_id : cell) (database_df : DataFrame)
  : list (gmap string cell) :=
  List.filter (fun candidate => negb (is_self query_id candidate)) (rows database_df).

(** [r] is the result the scorer builds for the row [candidate]. *)
Definition scored (query_id : cell)
    (query_alleles_by_locus : gmap string (option (list float)))
    (loci : list string) (candidate : gmap string cell) (r : MatchResult) : Prop :=
  exists t,
    candidate !! PersonID = Some (person_id r) /\
    cell_eqb (person_id r) query_id = false /\
    for_each (score_locus query_alleles_by_locus candidate) tally0 loci = Ok t /\
    r = {| person_id := person_id r;
           clr := score_of t;
           posterior := posterior_of (score_of t);
           consistent_loci := consistent t;
           mutated_loci := mutated t;
           inconclusive_loci := inconclusive t |}.

(** ** A worked comparison

    The end-to-end example of the specification, with the query's own
    record added to the table. *)

Definition example_query : gmap string cell :=
  {[ "PersonID" := Str "Q1"; "L1" := Str "9,10"; "L2" := Str "-" ]}.

Definition example_row_A : gmap string cell :=
  {[ "PersonID" := Str "A"; "L1" := Str "10,11"; "L2" := Str "5" ]}.

Definition example_row_B : gmap string cell :=
  {[ "PersonID" := Str "B"; "L1" := Str "20"; "L2" := Str "-" ]}.

Definition example_db : DataFrame :=
  {| columns := ["PersonID"; "L1"; "L2"];
     rows := [example_row_B; example_query; example_row_A] |}.

(** 2.000001 and 2.000001 / 3.000001 *)
Definition example_result_A : MatchResult :=
  {| person_id := Str "A";
     clr := S754_finite false 4503601879170310 (-51);
     posterior := S754_finite false 6004800503960245 (-53);
     consistent_loci := 1;
     mutated_loci := 0;
     inconclusive_loci := 1 |}.

(** 0.000001 and 0.000001 / 1.000001 *)
Definition example_result_B : MatchResult :=
  {| person_id := Str "B";
     clr := S754_finite false 4722366482869645 (-72);
     posterior := S754_finite false 4722361760507885 (-72);
     consistent_loci := 0;
     mutated_loci := 0;
     inconclusive_loci := 1 |}.

(** A query and a table whose identifiers are numbers and strings: the
    query's is the integer 1; the records carry the float 1.0, the string
    ["1"], the integer 1 and the integer 2. *)
Definition example_typed_query : gmap string cell :=
  {[ "PersonID" := Num (Int 1) "1"; "L1" := Num (Int 9) "9" ]}.

Definition example_typed_db : DataFrame :=
  {| columns := ["PersonID"; "L1"];
     rows := [ {[ "PersonID" := Num (Flt Float.one) "1.0";
                  "L1" := Num (Flt (Float.of_int 9)) "9.0" ]};
               {[ "PersonID" := Str "1"; "L1" := Str "9" ]};
               {[ "PersonID" := Num (Int 1) "1"; "L1" := Num (Int 10) "10" ]};
               {[ "PersonID" := Num (Int 2) "2"; "L1" := Num (Int 10) "10" ]} ] |}.

(** 2.000001 and 2.000001 / 3.000001 *)
Definition example_typed_result_1 : MatchResult :=
  {| person_id := Str "1";
     clr := S754_finite false 4503601879170310 (-51);
     posterior := S754_finite false 6004800503960245 (-53);
     consistent_loci := 1;
     mutated_loci := 0;
     inconclusive_loci := 0 |}.

(** 0.500001 and 0.500001 / 1.500001 *)
Definition example_typed_result_2 : MatchResult :=
  {| person_id := Num (Int 2) "2";
     clr := S754_finite false 4503608634569751 (-53);
     posterior := S754_finite false 6004807509554661 (-54);
     consistent_loci := 0;
     mutated_loci := 1;
     inconclusive_loci := 0 |}.

(** The schema loci for which the query mapping has no entry. *)
Definition missing_from_query (query_profile : gmap string cell)
    (loci : list string) : list string :=
  List.filter (fun locus => bool_decide (query_profile !! locus = None)) loci.

(** The example query without its second locus, and the same with a locus
    the table does not have. *)
Definition example_sparse_query : gmap string cell :=
  {[ "PersonID" := Str "Q1"; "L1" := Str "9,10" ]}.

Definition example_wide_query : gmap string cell :=
  <[ "L9" := Str "7" ]> example_sparse_query.

(** A table is rectangular: every row has a cell for each column label
    and for nothing else. *)
Definition well_formed (df : DataFrame) : Prop :=
  Forall (fun row : gmap string cell =>
            dom row =@{gset string} list_to_set (columns df))
    (rows df).

(** The example query without its identifier, and the example table
    without its identifier column. *)
Definition example_anonymous_query : gmap string cell :=
  {[ "L1" := Str "9,10"; "L2" := Str "-" ]}.

Definition example_anonymous_db : DataFrame :=
  {| columns := ["L1"; "L2"];
     rows := [ {[ "L1" := Str "10,11"; "L2" := Str "5" ]};
               {[ "L1" := Str "20"; "L2" := Str "-" ]} ] |}.

(** A table with a record whose identifier cell is empty. *)
Definition example_blank_id_db : DataFrame :=
  {| columns := ["PersonID"; "L1"; "L2"];
     rows := [ {[ "PersonID" := NA; "L1" := Str "20"; "L2" := Str "-" ]} ] |}.

(** A table whose locus cells are all malformed. *)
Definition example_garbled_db : DataFrame :=
  {| columns := ["PersonID"; "L1"; "L2"];
     rows := [ {[ "PersonID" := Str "A"; "L1" := Str "9;10"; "L2" := Str ",,x,-" ]};
               {[ "PersonID" := Str "B"; "L1" := NA; "L2" := Str "1e" ]} ] |}.

(** The penalty of a verdict in half units: 0, 0.5 or 1. *)
Definition penalty_halves (v : LocusVerdict) : Z :=
  match v with
  | Mutated => 1
  | Mismatch => 2
  | Consistent | Inconclusive => 0
  end.

(** Twice the value [max(2*consistent + mutated - penalty, 0)] for [c]
    Consistent, [m] Mutated and [x] Mismatch loci: the penalty is
    [m/2 + x]. *)
Definition evidence_halves (c m x : Z) : Z := Z.max (4 * c + m - 2 * x) 0.

(** The float that is exactly [k/2]. *)
Definition of_halves (k : Z) : float := Float.dyadic k (-1).

(** For two positive floats [ms * 2^es] and [mt * 2^et] with 53-digit
    mantissas: the second exceeds the first by enough for the quotient of
    the first by the second to round below 1.0. *)
Definition gap (ms es mt et : Z) : Prop :=
  (et - es >= 2 \/ (et = es + 1 /\ 2 * mt - ms >= 2) \/ (et = es /\ mt - ms >= 1))%Z.

(** The value [max(consistent * 2 + mutated - mismatch_penalty, 0.0)] to
    which [match_single] adds [1e-6]. *)
Definition clamped_value (t : tally) : float :=
  Float.max
    (Float.sub (Float.of_int (consistent t * 2 + mutated t)) (mismatch_penalty t))
    Float.zero.

(** What one locus of verdict [v] adds to [2*consistent + mutated -
    penalty], in half units: 2, 0.5, -1 or 0. *)
Definition verdict_halves (v : LocusVerdict) : Z :=
  match v with
  | Consistent => 4
  | Mutated => 1
  | Mismatch => -2
  | Inconclusive => 0
  end.

(** [2*consistent + mutated - penalty] in half units, from the verdict
    counts of a comparison. *)
Definition raw_halves (query_alleles_by_locus : gmap string (option (list float)))
    (candidate : gmap string cell) (loci : list string) : Z :=
  (4 * count_verdict Consistent query_alleles_by_locus candidate loci
   + count_verdict Mutated query_alleles_by_locus candidate loci
   - 2 * count_verdict Mismatch query_alleles_by_locus candidate loci)%Z.

(** Tables for the monotonicity examples: a query with four loci, and
    candidates seen through schemas of two, three and four loci. *)
Definition example_long_query : gmap string cell :=
  {[ "PersonID" := Str "Q1"; "L1" := Str "9,10"; "L2" := Str "5";
     "L3" := Str "7"; "L4" := Str "8" ]}.

Definition example_far_row : gmap string cell :=
  {[ "PersonID" := Str "X"; "L1" := Str "20"; "L2" := Str "30";
     "L3" := Str "7"; "L4" := Str "40" ]}.

Definition example_far_db2 : DataFrame :=
  {| columns := ["PersonID"; "L1"; "L2"]; rows := [example_far_row] |}.

Definition example_far_db3 : DataFrame :=
  {| columns := ["PersonID"; "L1"; "L2"; "L3"]; rows := [example_far_row] |}.

Definition example_near_row : gmap string cell :=
  {[ "PersonID" := Str "Y"; "L1" := Str "10"; "L2" := Str "5";
     "L3" := Str "7"; "L4" := Str "8" ]}.

Definition example_near_db3 : DataFrame :=
  {| columns := ["PersonID"; "L1"; "L2"; "L3"]; rows := [example_near_row] |}.

Definition example_near_db4 : DataFrame :=
  {| columns := ["PersonID"; "L1"; "L2"; "L3"; "L4"]; rows := [example_near_row] |}.

(** The range the accumulated penalty stays in: [0.0], or a positive
    float of 53-digit mantissa between 0.5 and 2^53.  From 2^53 on, adding
    0.5 or 1.0 rounds back to 2^53. *)
Definition penalty_range (p : float) : Prop :=
  p = S754_zero false \/
  exists m e,
    p = S754_finite false m e /\
    (2 ^ 52 <= Zpos m < 2 ^ 53 /\ -53 <= e /\ (e <= 0 \/ (e = 1 /\ Zpos m = 2 ^ 52)))%Z.

(** [a] may stand before [b] in a list sorted by [clr] descending. *)
Definition descending (a b : MatchResult) : Prop :=
  Float.leb (clr b) (clr a) = true.

(** The results whose [clr] equals [v]. *)
Definition same_clr (v : float) (r : MatchResult) : bool := Float.eqb (clr r) v.

(** The accumulators of the monotonicity examples after three and after
    four Consistent loci. *)
Definition example_tally3 : tally :=
  {| consistent := 3; mutated := 0; inconclusive := 0;
     mismatch_penalty := Float.zero |}.

Definition example_tally4 : tally :=
  {| consistent := 4; mutated := 0; inconclusive := 0;
     mismatch_penalty := Float.zero |}.

(** A float that is not negative: a zero, a positive number or the
    positive infinity. *)
Definition nonneg_float (x : float) : Prop :=
  match x with
  | S754_zero _ | S754_finite false _ _ | S754_infinity false => True
  | _ => False
  end.

(** A table of twelve candidates with one locus, scored against
    [example_sparse_query]: ties and more than ten rows. *)
Definition example_row (name alleles : string) : gmap string cell :=
  {[ "PersonID" := Str name; "L1" := Str alleles ]}.

Definition example_twelve_db : DataFrame :=
  {| columns := ["PersonID"; "L1"];
     rows := [ example_row "P01" "20"; example_row "P02" "10";
               example_row "P03" "11"; example_row "P04" "-";
               example_row "P05" "10"; example_row "P06" "8";
               example_row "P07" "30"; example_row "P08" "9";
               example_row "P09" "40"; example_row "P10" "50";
               example_row "P11" "12"; example_row "P12" "10" ] |}.

Definition example_single_db : DataFrame :=
  {| columns := ["PersonID"; "L1"]; rows := [ example_row "P01" "20" ] |}.

(** ** The batch driver: vocabulary *)

(** [qr] is the entry [find_matches] appends for the query [query_row]:
    the row's identifier and what [match_single] returns for the row. *)
Definition answers (database_df : DataFrame) (query_row : gmap string cell)
    (qr : QueryResult) : Prop :=
  query_row !! PersonID = Some (query_id qr) /\
  match_single query_row database_df = Ok (top_candidates qr).

(** A table of two queries: the example query and the record B. *)
Definition example_queries : DataFrame :=
  {| columns := ["PersonID"; "L1"; "L2"];
     rows := [example_query; example_row_B] |}.

(** ** Further vocabulary for the ranker *)

(** The result of a candidate row for which no locus says anything: the
    floor score [1e-6], no Consistent and no Mutated locus, and [n]
    Inconclusive loci. *)
Definition floor_result (n : Z) (candidate : gmap string cell) (r : MatchResult)
  : Prop :=
  candidate !! PersonID = Some (person_id r) /\
  clr r = Float.epsilon /\
  posterior r = posterior_of Float.epsilon /\
  consistent_loci r = 0%Z /\
  mutated_loci r = 0%Z /\
  inconclusive_loci r = n.

(** The example query with no usable allele: its loci are the
    placeholder, blank, or not numeric. *)
Definition example_blank_query : gmap string cell :=
  {[ "PersonID" := Str "Q1"; "L1" := Str "-"; "L2" := Str " , x" ]}.

(** A query and a row that hold the same alleles at each locus, written
    differently; [L1] holds only a NaN. *)
Definition example_nan_query : gmap string cell :=
  {[ "PersonID" := Str "Q1"; "L1" := Str "nan"; "L2" := Str "nan, 9" ]}.

Definition example_nan_row : gmap string cell :=
  {[ "PersonID" := Str "A"; "L1" := Str " NaN"; "L2" := Str "nan,9.0" ]}.

(** The example table with its columns and its rows in another order. *)
Definition example_db_columns_swapped : DataFrame :=
  {| columns := ["L2"; "PersonID"; "L1"]; rows := rows example_db |}.

Definition example_db_rows_swapped : DataFrame :=
  {| columns := columns example_db;
     rows := [example_row_A; example_row_B; example_query] |}.

(** The example table without the query's own record. *)
Definition example_db_others : DataFrame :=
  {| columns := columns example_db; rows := [example_row_B; example_row_A] |}.

(** A result whose score is positive: a positive number or the positive
    infinity. *)
Definition positive_score (r : MatchResult) : Prop :=
  Float.ltb Float.zero (clr r) = true.

(** The evidence of a result over [n] schema loci, in half units and
    clamped at zero: twice [max(3*consistent + 1.5*mutated + inconclusive
    - n, 0)].  The loci that are none of the three are the Mismatch ones,
    so this is twice [max(2*consistent + mutated - penalty, 0)]. *)
Definition result_halves (n : Z) (r : MatchResult) : Z :=
  Z.max (6 * consistent_loci r + 3 * mutated_loci r + 2 * inconclusive_loci r
         - 2 * n) 0.

(** ** Further vocabulary for the locus evaluator *)

(** The classification of two lists of whole-number alleles, computed on
    the integers: a common value, else two values exactly 1 apart. *)
Definition exact_verdict (qs cs : list Z) : LocusVerdict :=
  if existsb (fun a => existsb (fun b => (a =? b)%Z) cs) qs then Consistent
  else if existsb (fun a => existsb (fun b => (Z.abs (a - b) =? 1)%Z) cs) qs
       then Mutated
       else Mismatch.

(** The whole numbers every one of which is a float: from 0 to 2^53. *)
Definition whole_allele (a : Z) : Prop := (0 <= a < 2 ^ 53)%Z.

(** ** Further vocabulary for the allele parser *)

(** A text of white space only. *)
Definition blank (s : string) : Prop :=
  forallb Text.is_space (list_ascii_of_string s) = true.

(** The list a parse returns for the values [xs]: absent when there is
    none. *)
Definition some_alleles (xs : list float) : option (list float) :=
  match xs with
  | [] => None
  | _ :: _ => Some xs
  end.

(** The values of two parses, one after the other. *)
Definition alleles_app (a b : option (list float)) : option (list float) :=
  some_alleles (default [] a ++ default [] b).

(** ** Whole numbers as text *)

(** The decimal digits of [n], most significant first, put in front of
    [acc]; [fuel] bounds the number of digits. *)
Fixpoint decimal (fuel : nat) (n : Z) (acc : list ascii) : list ascii :=
  match fuel with
  | O => acc
  | S fuel' =>
      let acc' := ascii_of_N (Z.to_N (48 + n mod 10)) :: acc in
      if (n <? 10)%Z then acc' else decimal fuel' (n / 10) acc'
  end.

(** [str(n)] for a Python [int] [n] that is not negative. *)
Definition str_of_int (n : Z) : string :=
  string_of_list_ascii (decimal (S (Z.to_nat (Z.log2 n))) n []).

(** [",".join(fields)] *)
Fixpoint join_commas (fields : list string) : string :=
  match fields with
  | [] => ""
  | [f] => f
  | f :: fs => f ++ "," ++ join_commas fs
  end.

(** A non-empty run of digit characters with the value [n]. *)
Definition digits_of (n : Z) (ds : list ascii) : Prop :=
  ds <> [] /\
  Forall (fun c => exists d, (0 <= d < 10)%Z /\ c = ascii_of_N (Z.to_N (48 + d))) ds /\
  PyFloat.digits_value (map Text.digit_value ds) = n.

(** * Properties *)

(** ** Rounding to 53 binary digits *)

Module Rounding.

Import Float.
Local Open Scope Z_scope.

Lemma digits2_pos_bounds p :
  2 ^ (Zpos (digits2_pos p) - 1) <= Zpos p < 2 ^ Zpos (digits2_pos p).
Proof.
  induction p as [p IH|p IH|]; simpl digits2_pos.
  - rewrite Pos2Z.inj_succ.
    replace (Z.succ (Zpos (digits2_pos p)) - 1) with (Z.succ (Zpos (digits2_pos p) - 1)) by lia.
    rewrite !Z.pow_succ_r by lia. lia.
  - rewrite Pos2Z.inj_succ.
    replace (Z.succ (Zpos (digits2_pos p)) - 1) with (Z.succ (Zpos (digits2_pos p) - 1)) by lia.
    rewrite !Z.pow_succ_r by lia. lia.
  - simpl. lia.
Qed.

Lemma digits2_pos_unique p d :
  2 ^ (d - 1) <= Zpos p < 2 ^ d -> Zpos (digits2_pos p) = d.
Proof.
  intros [H1 H2]. pose proof (digits2_pos_bounds p) as [H3 H4].
  assert (0 < d).
  { destruct (Z.ltb_spec 0 d); [done|].
    assert (2 ^ d <= 2 ^ 0) by (apply Z.pow_le_mono_r; lia). simpl in *. lia. }
  destruct (Z.lt_trichotomy (Zpos (digits2_pos p)) d) as [Hlt|[Heq|Hgt]]; [|done|].
  - assert (2 ^ Zpos (digits2_pos p) <= 2 ^ (d - 1)) by (apply Z.pow_le_mono_r; lia). lia.
  - assert (2 ^ d <= 2 ^ (Zpos (digits2_pos p) - 1)) by (apply Z.pow_le_mono_r; lia). lia.
Qed.

Lemma iter_pos_nat {A : Type} (f : A -> A) (n : positive) : forall x,
  SpecFloat.iter_pos f n x = Nat.iter (Pos.to_nat n) f x.
Proof.
  induction n as [n IH|n IH|]; intros x.
  - change (SpecFloat.iter_pos f n~1 x)
      with (SpecFloat.iter_pos f n (SpecFloat.iter_pos f n (f x))).
    rewrite !IH, Pos2Nat.inj_xI.
    replace (S (2 * Pos.to_nat n)) with (S (Pos.to_nat n + Pos.to_nat n)) by lia.
    by rewrite Nat.iter_succ_r, Nat.iter_add.
  - change (SpecFloat.iter_pos f n~0 x)
      with (SpecFloat.iter_pos f n (SpecFloat.iter_pos f n x)).
    rewrite !IH, Pos2Nat.inj_xO.
    replace (2 * Pos.to_nat n)%nat with (Pos.to_nat n + Pos.to_nat n)%nat by lia.
    by rewrite Nat.iter_add.
  - done.
Qed.

Lemma shr_1_m mrs : 0 <= shr_m mrs -> shr_m (shr_1 mrs) = shr_m mrs / 2.
Proof.
  destruct mrs as [m r s]. cbn [shr_m].
  destruct m as [|[p|p|]|p]; intros H; cbn [shr_1 shr_m]; try lia; try done.
  - rewrite Pos2Z.inj_xI. apply Z.div_unique with 1; lia.
  - rewrite Pos2Z.inj_xO. apply Z.div_unique with 0; lia.
Qed.

Lemma shr_iter_m (k : nat) mrs :
  0 <= shr_m mrs ->
  shr_m (Nat.iter k shr_1 mrs) = shr_m mrs / 2 ^ Z.of_nat k.
Proof.
  intros Hm. induction k as [|k IH].
  - simpl. by rewrite Z.div_1_r.
  - simpl Nat.iter. rewrite shr_1_m; rewrite IH.
    + rewrite Nat2Z.inj_succ, Z.pow_succ_r, Z.div_div by lia.
      f_equal. lia.
    + apply Z.div_pos; lia.
Qed.

Lemma shr_1_exact m :
  0 <= m -> m mod 2 = 0 ->
  shr_1 (Build_shr_record m false false) = Build_shr_record (m / 2) false false.
Proof.
  intros Hm Hev.
  destruct m as [|[p|p|]|p]; cbn [shr_1 orb]; try lia; try done.
  - rewrite Pos2Z.inj_xI in Hev.
    rewrite Z.add_comm, Z.mul_comm, Z.mod_add in Hev by lia. done.
  - f_equal. rewrite Pos2Z.inj_xO. apply Z.div_unique with 0; lia.
Qed.

Lemma shr_iter_exact (k : nat) : forall m,
  0 <= m -> m mod 2 ^ Z.of_nat k = 0 ->
  Nat.iter k shr_1 (Build_shr_record m false false)
  = Build_shr_record (m / 2 ^ Z.of_nat k) false false.
Proof.
  induction k as [|k IH]; intros m Hm Hmod.
  - simpl. by rewrite Z.div_1_r.
  - rewrite Nat.iter_succ_r.
    rewrite Nat2Z.inj_succ, Z.pow_succ_r in * by lia.
    assert (Hpos : 0 < 2 ^ Z.of_nat k) by (apply Z.pow_pos_nonneg; lia).
    apply Z.mod_divide in Hmod as [c Hc]; [|lia].
    assert (Hm2 : m / 2 = c * 2 ^ Z.of_nat k).
    { symmetry. apply Z.div_unique with 0; lia. }
    rewrite shr_1_exact; [| lia |].
    + rewrite IH.
      * f_equal. rewrite Z.div_div by lia. done.
      * apply Z.div_pos; lia.
      * rewrite Hm2. apply Z.mod_mul. lia.
    + subst m. replace (c * (2 * 2 ^ Z.of_nat k)) with ((c * 2 ^ Z.of_nat k) * 2) by lia.
      apply Z.mod_mul. lia.
Qed.

Lemma Zdigits2_bounds m :
  0 < m -> 2 ^ (Zdigits2 m - 1) <= m < 2 ^ Zdigits2 m.
Proof.
  destruct m as [|p|p]; try lia. intros _. apply digits2_pos_bounds.
Qed.

Lemma Zdigits2_unique m d :
  2 ^ (d - 1) <= m < 2 ^ d -> 0 < m -> Zdigits2 m = d.
Proof.
  destruct m as [|p|p]; try lia. intros H _. by apply digits2_pos_unique.
Qed.

Lemma fexp_normal e : -1074 <= e - 53 -> fexp 53 1024 e = e - 53.
Proof. unfold fexp, emin. lia. Qed.

Lemma round_nearest_even_cases q l :
  round_nearest_even q l = q \/ round_nearest_even q l = q + 1.
Proof.
  unfold round_nearest_even. destruct l as [|[]]; auto.
  destruct (Z.even q); auto.
Qed.

(** Shifting a mantissa of [53 + n] digits down to 53 digits. *)
Lemma shr_fexp_spec mx ex lx :
  0 < mx ->
  0 <= Zdigits2 mx - 53 ->
  -1074 <= ex + (Zdigits2 mx - 53) ->
  exists mrs,
    shr_fexp 53 1024 mx ex lx = (mrs, ex + (Zdigits2 mx - 53)) /\
    shr_m mrs = mx / 2 ^ (Zdigits2 mx - 53) /\
    (lx = loc_Exact -> mx mod 2 ^ (Zdigits2 mx - 53) = 0 ->
     loc_of_shr_record mrs = loc_Exact).
Proof.
  intros Hmx Hn He. unfold shr_fexp.
  rewrite fexp_normal by lia.
  replace (Zdigits2 mx + ex - 53 - ex) with (Zdigits2 mx - 53) by lia.
  destruct (Zdigits2 mx - 53) as [|p|p] eqn:En; [| |lia].
  - unfold shr. eexists. split; [by rewrite Z.add_0_r|].
    split.
    + rewrite Z.div_1_r. by destruct lx as [|[]].
    + by intros ->.
  - unfold shr. rewrite iter_pos_nat. eexists. split; [done|].
    split.
    + rewrite shr_iter_m, positive_nat_Z.
      * by destruct lx as [|[]].
      * destruct lx as [|[]]; simpl; lia.
    + intros -> Hmod. simpl shr_record_of_loc.
      rewrite <- (positive_nat_Z p) in Hmod.
      by rewrite shr_iter_exact by lia.
Qed.

(** Rounding a mantissa of [53 + n] digits: the result has the first 53
    digits as mantissa, or their successor; when the other [n] digits are
    zeros it is exact.  Beyond the exponent 971 it is an infinity. *)
Lemma binary_round_aux_gen s mx ex lx :
  0 < mx ->
  0 <= Zdigits2 mx - 53 ->
  -1074 <= ex + (Zdigits2 mx - 53) ->
  exists m' e',
    binary_round_aux 53 1024 s mx ex lx
    = (if e' <=? 971 then S754_finite s m' e' else S754_infinity s) /\
    2 ^ 52 <= Zpos m' < 2 ^ 53 /\
    ((e' = ex + (Zdigits2 mx - 53) /\
      (Zpos m' = mx / 2 ^ (Zdigits2 mx - 53) \/
       Zpos m' = mx / 2 ^ (Zdigits2 mx - 53) + 1)) \/
     (e' = ex + (Zdigits2 mx - 53) + 1 /\ Zpos m' = 2 ^ 52 /\
      mx / 2 ^ (Zdigits2 mx - 53) = 2 ^ 53 - 1)) /\
    (lx = loc_Exact -> mx mod 2 ^ (Zdigits2 mx - 53) = 0 ->
     e' = ex + (Zdigits2 mx - 53) /\ Zpos m' = mx / 2 ^ (Zdigits2 mx - 53)).
Proof.
  intros Hmx Hn Hlo.
  set (n := Zdigits2 mx - 53) in *.
  destruct (shr_fexp_spec mx ex lx Hmx Hn Hlo) as (mrs & Hshr & Hm & Hex).
  fold n in Hshr, Hm, Hex.
  pose proof (Zdigits2_bounds mx Hmx) as [Hd1 Hd2].
  assert (Hq : 2 ^ 52 <= mx / 2 ^ n < 2 ^ 53).
  { assert (Hp : 0 < 2 ^ n) by (apply Z.pow_pos_nonneg; lia).
    replace (Zdigits2 mx - 1) with (52 + n) in Hd1 by lia.
    replace (Zdigits2 mx) with (53 + n) in Hd2 by lia.
    rewrite Z.pow_add_r in Hd1, Hd2 by lia.
    split.
    - apply Z.div_le_lower_bound; lia.
    - apply Z.div_lt_upper_bound; lia. }
  set (q := mx / 2 ^ n) in *.
  unfold binary_round_aux. rewrite Hshr.
  set (m1 := round_nearest_even (shr_m mrs) (loc_of_shr_record mrs)).
  assert (Hm1 : m1 = q \/ m1 = q + 1).
  { unfold m1. rewrite Hm. apply round_nearest_even_cases. }
  assert (Hm1ex : lx = loc_Exact -> mx mod 2 ^ n = 0 -> m1 = q).
  { intros H1 H2. unfold m1. rewrite (Hex H1 H2), Hm. done. }
  change (1024 - 53) with 971.
  destruct (Z.eq_dec m1 (2 ^ 53)) as [Hc|Hc].
  - (* the rounding carried into a 54th digit *)
    assert (Hd : Zdigits2 m1 = 54) by (apply Zdigits2_unique; rewrite Hc; lia).
    destruct (shr_fexp_spec m1 (ex + n) loc_Exact) as (mrs2 & Hshr2 & Hm2 & _);
      [lia | lia | lia |].
    rewrite Hshr2, Hm2, Hd, Hc.
    change (2 ^ 53 / 2 ^ (54 - 53)) with (Zpos (2 ^ 52)).
    cbv iota beta.
    exists (2 ^ 52)%positive, (ex + n + 1).
    replace (ex + n + (54 - 53)) with (ex + n + 1) by lia.
    split; [done|]. split; [lia|]. split.
    + right. lia.
    + intros H1 H2. specialize (Hm1ex H1 H2). lia.
  - assert (Hd : Zdigits2 m1 = 53) by (apply Zdigits2_unique; lia).
    destruct (shr_fexp_spec m1 (ex + n) loc_Exact) as (mrs2 & Hshr2 & Hm2 & _);
      [lia | lia | lia |].
    rewrite Hshr2, Hm2, Hd. change (2 ^ (53 - 53)) with 1. rewrite Z.div_1_r.
    destruct m1 as [|p1|p1] eqn:Em1; [lia| |lia].
    exists p1, (ex + n).
    replace (ex + n + (53 - 53)) with (ex + n) by lia.
    split; [done|]. split; [lia|]. split.
    + left. lia.
    + intros H1 H2. specialize (Hm1ex H1 H2). lia.
Qed.

(** Within the exponent range the result is finite. *)
Lemma binary_round_aux_spec s mx ex lx :
  0 < mx ->
  0 <= Zdigits2 mx - 53 ->
  -1074 <= ex + (Zdigits2 mx - 53) ->
  ex + (Zdigits2 mx - 53) + 1 <= 971 ->
  exists m' e',
    binary_round_aux 53 1024 s mx ex lx = S754_finite s m' e' /\
    2 ^ 52 <= Zpos m' < 2 ^ 53 /\
    ((e' = ex + (Zdigits2 mx - 53) /\
      (Zpos m' = mx / 2 ^ (Zdigits2 mx - 53) \/
       Zpos m' = mx / 2 ^ (Zdigits2 mx - 53) + 1)) \/
     (e' = ex + (Zdigits2 mx - 53) + 1 /\ Zpos m' = 2 ^ 52 /\
      mx / 2 ^ (Zdigits2 mx - 53) = 2 ^ 53 - 1)) /\
    (lx = loc_Exact -> mx mod 2 ^ (Zdigits2 mx - 53) = 0 ->
     e' = ex + (Zdigits2 mx - 53) /\ Zpos m' = mx / 2 ^ (Zdigits2 mx - 53)).
Proof.
  intros Hmx Hn Hlo Hhi.
  destruct (binary_round_aux_gen s mx ex lx Hmx Hn Hlo)
    as (m' & e' & Heq & Hm' & Hcases & Hex).
  exists m', e'. split; [|done].
  rewrite Heq. replace (e' <=? 971) with true; [done|].
  symmetry. apply Z.leb_le. destruct Hcases as [[-> _]|[-> _]]; lia.
Qed.

(** *** Shape: rounding a non-negative mantissa never gives a NaN *)

Lemma shr_1_nonneg mrs : 0 <= shr_m mrs -> 0 <= shr_m (shr_1 mrs).
Proof.
  intros H. rewrite shr_1_m by done. apply Z.div_pos; lia.
Qed.

Lemma shr_nonneg mrs e n : 0 <= shr_m mrs -> 0 <= shr_m (fst (shr mrs e n)).
Proof.
  intros H. unfold shr. destruct n as [|p|p]; simpl; try done.
  rewrite iter_pos_nat.
  induction (Pos.to_nat p) as [|k IH]; simpl; [done|].
  by apply shr_1_nonneg.
Qed.

Lemma shr_fexp_nonneg m e l : 0 <= m -> 0 <= shr_m (fst (shr_fexp 53 1024 m e l)).
Proof.
  intros H. unfold shr_fexp. apply shr_nonneg. by destruct l as [|[]].
Qed.

Lemma binary_round_aux_shape s mx ex lx :
  0 <= mx ->
  match binary_round_aux 53 1024 s mx ex lx with
  | S754_zero s' | S754_infinity s' | S754_finite s' _ _ => s' = s
  | S754_nan => False
  end.
Proof.
  intros Hmx. unfold binary_round_aux.
  pose proof (shr_fexp_nonneg mx ex lx Hmx) as H1.
  destruct (shr_fexp 53 1024 mx ex lx) as [mrs' e']. simpl in H1.
  assert (H2 : 0 <= round_nearest_even (shr_m mrs') (loc_of_shr_record mrs')).
  { destruct (round_nearest_even_cases (shr_m mrs') (loc_of_shr_record mrs'))
      as [-> | ->]; lia. }
  pose proof (shr_fexp_nonneg _ e' loc_Exact H2) as H3.
  destruct (shr_fexp 53 1024 _ e' loc_Exact) as [mrs'' e'']. simpl in H3.
  destruct (shr_m mrs'') as [|p|p]; [done| |lia].
  by destruct (e'' <=? 1024 - 53).
Qed.

Lemma binary_normalize_shape m e :
  match binary_normalize 53 1024 m e false with
  | S754_zero s' | S754_infinity s' | S754_finite s' _ _ => s' = (m <? 0)
  | S754_nan => False
  end.
Proof.
  unfold binary_normalize, binary_round. destruct m as [|p|p]; [done| |].
  - destruct (shl_align p e _) as [mz ez].
    by apply (binary_round_aux_shape false (Zpos mz) ez loc_Exact).
  - destruct (shl_align p e _) as [mz ez].
    by apply (binary_round_aux_shape true (Zpos mz) ez loc_Exact).
Qed.

(** *** Alignment *)

Lemma pos_iter_xO (m d : positive) :
  Zpos (Pos.iter xO m d) = Zpos m * 2 ^ Zpos d.
Proof.
  rewrite (Pos.iter_swap_gen _ _ Zpos xO (Z.mul 2)) by done.
  change (Pos.iter (Z.mul 2) (Zpos m) d) with (Z.shiftl (Zpos m) (Zpos d)).
  by rewrite Z.shiftl_mul_pow2.
Qed.

Lemma shl_align_spec mx ex ex' :
  ex' <= ex ->
  Zpos (fst (shl_align mx ex ex')) = Zpos mx * 2 ^ (ex - ex') /\
  snd (shl_align mx ex ex') = ex'.
Proof.
  intros H. unfold shl_align.
  destruct (ex' - ex) as [|d|d] eqn:E; simpl; try lia.
  - replace (ex - ex') with 0 by lia. lia.
  - rewrite pos_iter_xO. replace (ex - ex') with (Zpos d) by lia. done.
Qed.

Lemma shl_align_id mx ex ex' : ex <= ex' -> shl_align mx ex ex' = (mx, ex).
Proof.
  intros H. unfold shl_align. destruct (ex' - ex) as [|d|d] eqn:E; try done. lia.
Qed.

(** *** Rounding a mantissa of at most 53 digits is exact *)

Lemma digits_mul_pow2 m g :
  0 < m -> 0 <= g -> Zdigits2 (m * 2 ^ g) = Zdigits2 m + g.
Proof.
  intros Hm Hg. pose proof (Zdigits2_bounds m Hm) as [H1 H2].
  assert (0 < 2 ^ g) by (apply Z.pow_pos_nonneg; lia).
  apply Zdigits2_unique; [|nia].
  replace (Zdigits2 m + g - 1) with (Zdigits2 m - 1 + g) by lia.
  assert (0 < Zdigits2 m) by (destruct m; simpl; lia).
  rewrite !Z.pow_add_r by lia. nia.
Qed.

Lemma binary_round_small s mx ex :
  Zpos (digits2_pos mx) <= 53 ->
  -1074 <= ex + Zpos (digits2_pos mx) - 53 ->
  ex + Zpos (digits2_pos mx) - 53 + 1 <= 971 ->
  exists m',
    binary_round 53 1024 s mx ex
    = S754_finite s m' (ex + Zpos (digits2_pos mx) - 53) /\
    Zpos m' = Zpos mx * 2 ^ (53 - Zpos (digits2_pos mx)).
Proof.
  intros Hd Hlo Hhi. unfold binary_round.
  rewrite fexp_normal by lia.
  set (d := Zpos (digits2_pos mx)) in *.
  destruct (shl_align_spec mx ex (d + ex - 53)) as [Hm He]; [lia|].
  destruct (shl_align mx ex (d + ex - 53)) as [mz ez]. simpl in Hm, He. subst ez.
  replace (ex - (d + ex - 53)) with (53 - d) in Hm by lia.
  assert (Hdz : Zdigits2 (Zpos mz) = 53).
  { rewrite Hm, digits_mul_pow2 by lia. simpl. fold d. lia. }
  destruct (binary_round_aux_spec s (Zpos mz) (d + ex - 53) loc_Exact)
    as (m' & e' & Heq & _ & _ & Hex); rewrite ?Hdz; try lia.
  rewrite Hdz in Hex. change (2 ^ (53 - 53)) with 1 in Hex.
  destruct Hex as [-> Hm']; [done | apply Z.mod_1_r |].
  exists m'. rewrite Heq. split; [f_equal; lia|].
  by rewrite Hm', Z.div_1_r.
Qed.

Lemma binary_round_large s mx ex :
  53 <= Zpos (digits2_pos mx) ->
  -1074 <= ex + (Zpos (digits2_pos mx) - 53) ->
  ex + (Zpos (digits2_pos mx) - 53) + 1 <= 971 ->
  binary_round 53 1024 s mx ex = binary_round_aux 53 1024 s (Zpos mx) ex loc_Exact.
Proof.
  intros Hd Hlo Hhi. unfold binary_round.
  rewrite fexp_normal by lia. by rewrite shl_align_id by lia.
Qed.


Lemma binary_round_scale s (mx mz : positive) ex g :
  0 <= g ->
  Zpos mz = Zpos mx * 2 ^ g ->
  Zpos (digits2_pos mx) <= 53 ->
  -1074 <= ex + Zpos (digits2_pos mx) - 53 ->
  ex + Zpos (digits2_pos mx) - 53 + 1 <= 971 ->
  binary_round 53 1024 s mz (ex - g) = binary_round 53 1024 s mx ex.
Proof.
  intros Hg Hmz Hd Hlo Hhi.
  destruct (binary_round_small s mx ex Hd Hlo Hhi) as (m1 & -> & Hm1).
  assert (Hdz : Zpos (digits2_pos mz) = Zpos (digits2_pos mx) + g).
  { change (Zdigits2 (Zpos mz) = Zdigits2 (Zpos mx) + g).
    rewrite Hmz. apply digits_mul_pow2; lia. }
  set (d := Zpos (digits2_pos mx)) in *.
  destruct (Z.le_gt_cases (d + g) 53) as [Hs|Hl].
  - destruct (binary_round_small s mz (ex - g)) as (m2 & -> & Hm2); try lia.
    rewrite Hdz. f_equal; [|lia].
    apply Pos2Z.inj. rewrite Hm1, Hm2, Hmz, Hdz.
    rewrite <- Z.mul_assoc, <- Z.pow_add_r by lia. f_equal. f_equal. lia.
  - rewrite binary_round_large by lia.
    destruct (binary_round_aux_spec s (Zpos mz) (ex - g) loc_Exact)
      as (m2 & e2 & -> & _ & _ & Hex); simpl Zdigits2; try lia.
    simpl Zdigits2 in Hex. rewrite Hdz in Hex.
    assert (Hsplit : Zpos mx * 2 ^ g
                     = Zpos mx * 2 ^ (53 - d) * 2 ^ (d + g - 53)).
    { rewrite <- Z.mul_assoc, <- Z.pow_add_r by lia. f_equal. f_equal. lia. }
    assert (Hp : 0 < 2 ^ (d + g - 53)) by (apply Z.pow_pos_nonneg; lia).
    destruct Hex as [-> Hm2]; [done | |].
    + rewrite Hmz, Hsplit. apply Z.mod_mul. lia.
    + f_equal; [|lia]. apply Pos2Z.inj.
      rewrite Hm2, Hm1, Hmz, Hsplit. rewrite Z.div_mul by lia. done.
Qed.

Lemma dyadic_0 E : dyadic 0 E = S754_zero false.
Proof. reflexivity. Qed.

(** The canonical form of [M * 2^E] for a mantissa of at most 53 digits. *)
Lemma dyadic_finite M E :
  M <> 0 -> Z.abs M < 2 ^ 53 -> -1022 <= E <= 970 ->
  exists m',
    dyadic M E = S754_finite (M <? 0) m' (E + Zdigits2 M - 53) /\
    Zpos m' = Z.abs M * 2 ^ (53 - Zdigits2 M) /\
    1 <= Zdigits2 M <= 53.
Proof.
  intros Hne Hlt HE.
  assert (Hd : forall p, Zpos p < 2 ^ 53 -> 1 <= Zpos (digits2_pos p) <= 53).
  { intros p Hp. pose proof (digits2_pos_bounds p) as [H1 _].
    split; [lia|].
    destruct (Z.le_gt_cases (Zpos (digits2_pos p)) 53) as [|Hgt]; [done|].
    assert (2 ^ 53 <= 2 ^ (Zpos (digits2_pos p) - 1))
      by (apply Z.pow_le_mono_r; lia). lia. }
  unfold dyadic, prec, emax, binary_normalize. destruct M as [|p|p]; [done| |].
  - specialize (Hd p Hlt).
    destruct (binary_round_small false p E) as (m' & -> & Hm'); try lia.
    exists m'. split; [reflexivity | split; [exact Hm' | exact Hd]].
  - specialize (Hd p Hlt).
    destruct (binary_round_small true p E) as (m' & -> & Hm'); try lia.
    exists m'. split; [reflexivity | split; [exact Hm' | exact Hd]].
Qed.

Lemma dyadic_scale M E g :
  0 <= g -> Z.abs M < 2 ^ 53 -> -1022 <= E <= 970 ->
  dyadic (M * 2 ^ g) (E - g) = dyadic M E.
Proof.
  intros Hg Hlt HE.
  assert (Hp : 0 < 2 ^ g) by (apply Z.pow_pos_nonneg; lia).
  assert (Hd : forall p, Zpos p < 2 ^ 53 -> 1 <= Zpos (digits2_pos p) <= 53).
  { intros p Hpp. pose proof (digits2_pos_bounds p) as [H1 _].
    split; [lia|].
    destruct (Z.le_gt_cases (Zpos (digits2_pos p)) 53) as [|Hgt]; [done|].
    assert (2 ^ 53 <= 2 ^ (Zpos (digits2_pos p) - 1))
      by (apply Z.pow_le_mono_r; lia). lia. }
  unfold dyadic, prec, emax, binary_normalize. destruct M as [|p|p]; [done| |].
  - specialize (Hd p Hlt).
    destruct (Zpos p * 2 ^ g) as [|pz|pz] eqn:Ez; try lia.
    apply binary_round_scale; lia.
  - specialize (Hd p Hlt).
    destruct (Zneg p * 2 ^ g) as [|pz|pz] eqn:Ez; try lia.
    apply binary_round_scale; lia.
Qed.

Lemma cond_Zopp_ltb M : cond_Zopp (M <? 0) (Z.abs M) = M.
Proof. unfold cond_Zopp. destruct (Z.ltb_spec M 0); lia. Qed.

Lemma cond_Zopp_mul b x y : cond_Zopp b (x * y) = cond_Zopp b x * y.
Proof. unfold cond_Zopp. destruct b; lia. Qed.

(** The aligned mantissa [SFadd] and [SFsub] compute for a dyadic number. *)
Lemma aligned_mantissa M E m' ez :
  M <> 0 ->
  Zpos m' = Z.abs M * 2 ^ (53 - Zdigits2 M) ->
  1 <= Zdigits2 M <= 53 ->
  ez <= E + Zdigits2 M - 53 ->
  cond_Zopp (M <? 0) (Zpos (fst (shl_align m' (E + Zdigits2 M - 53) ez)))
  = M * 2 ^ (E - ez).
Proof.
  intros Hne Hm' Hd Hez.
  destruct (shl_align_spec m' (E + Zdigits2 M - 53) ez Hez) as [-> _].
  rewrite Hm', <- Z.mul_assoc, <- Z.pow_add_r by lia.
  replace (53 - Zdigits2 M + (E + Zdigits2 M - 53 - ez)) with (E - ez) by lia.
  by rewrite cond_Zopp_mul, cond_Zopp_ltb.
Qed.

Lemma dyadic_add M1 M2 E :
  Z.abs M1 < 2 ^ 53 -> Z.abs M2 < 2 ^ 53 -> Z.abs (M1 + M2) < 2 ^ 53 ->
  -1022 <= E <= 970 ->
  SFadd 53 1024 (dyadic M1 E) (dyadic M2 E) = dyadic (M1 + M2) E.
Proof.
  intros H1 H2 H12 HE.
  destruct (Z.eq_dec M1 0) as [->|Hn1]; destruct (Z.eq_dec M2 0) as [->|Hn2].
  - done.
  - rewrite dyadic_0, Z.add_0_l.
    destruct (dyadic_finite M2 E) as (m2 & -> & _); [done..|reflexivity].
  - rewrite dyadic_0, Z.add_0_r.
    destruct (dyadic_finite M1 E) as (m1 & -> & _); [done..|reflexivity].
  - destruct (dyadic_finite M1 E Hn1 H1 HE) as (m1 & -> & Hm1 & Hd1).
    destruct (dyadic_finite M2 E Hn2 H2 HE) as (m2 & -> & Hm2 & Hd2).
    unfold SFadd.
    set (ez := Z.min (E + Zdigits2 M1 - 53) (E + Zdigits2 M2 - 53)).
    rewrite (aligned_mantissa M1 E m1 ez), (aligned_mantissa M2 E m2 ez)
      by (done || lia).
    rewrite <- Z.mul_add_distr_r.
    change (binary_normalize 53 1024 ((M1 + M2) * 2 ^ (E - ez)) ez false)
      with (dyadic ((M1 + M2) * 2 ^ (E - ez)) ez).
    replace ez with (E - (E - ez)) at 2 by lia.
    apply dyadic_scale; lia.
Qed.

Lemma dyadic_sub M1 M2 E :
  Z.abs M1 < 2 ^ 53 -> Z.abs M2 < 2 ^ 53 -> Z.abs (M1 - M2) < 2 ^ 53 ->
  -1022 <= E <= 970 ->
  SFsub 53 1024 (dyadic M1 E) (dyadic M2 E) = dyadic (M1 - M2) E.
Proof.
  intros H1 H2 H12 HE.
  destruct (Z.eq_dec M1 0) as [->|Hn1]; destruct (Z.eq_dec M2 0) as [->|Hn2].
  - done.
  - rewrite dyadic_0, Z.sub_0_l.
    destruct (dyadic_finite M2 E) as (m2 & -> & Hm2 & Hd2); [done..|].
    destruct (dyadic_finite (- M2) E) as (m2' & -> & Hm2' & Hd2'); [lia..|].
    assert (Hdig : Zdigits2 (- M2) = Zdigits2 M2) by (by destruct M2).
    rewrite Hdig in *. rewrite Z.abs_opp in Hm2'.
    simpl. f_equal.
    + destruct (Z.ltb_spec M2 0), (Z.ltb_spec (- M2) 0); simpl; lia || done.
    + apply Pos2Z.inj. by rewrite Hm2, Hm2'.
  - rewrite dyadic_0, Z.sub_0_r.
    destruct (dyadic_finite M1 E) as (m1 & -> & _); [done..|reflexivity].
  - destruct (dyadic_finite M1 E Hn1 H1 HE) as (m1 & -> & Hm1 & Hd1).
    destruct (dyadic_finite M2 E Hn2 H2 HE) as (m2 & -> & Hm2 & Hd2).
    unfold SFsub.
    set (ez := Z.min (E + Zdigits2 M1 - 53) (E + Zdigits2 M2 - 53)).
    rewrite (aligned_mantissa M1 E m1 ez), (aligned_mantissa M2 E m2 ez)
      by (done || lia).
    rewrite <- Z.mul_sub_distr_r.
    change (binary_normalize 53 1024 ((M1 - M2) * 2 ^ (E - ez)) ez false)
      with (dyadic ((M1 - M2) * 2 ^ (E - ez)) ez).
    replace ez with (E - (E - ez)) at 2 by lia.
    apply dyadic_scale; lia.
Qed.

End Rounding.

(** ** Facts about float comparison *)

Module FloatFacts.

Import Float.

Lemma compare_finite_Eq s1 m1 e1 s2 m2 e2 :
  SFcompare (S754_finite s1 m1 e1) (S754_finite s2 m2 e2) = Some Eq ->
  s1 = s2 /\ m1 = m2 /\ e1 = e2.
Proof.
  unfold SFcompare.
  change (Pos.compare_cont Eq m1 m2) with (Pos.compare m1 m2).
  destruct s1, s2; try discriminate;
    destruct (Z.compare_spec e1 e2); try discriminate;
    destruct (Pos.compare_spec m1 m2); try discriminate; auto.
Qed.

Lemma compare_refl_finite s m e :
  SFcompare (S754_finite s m e) (S754_finite s m e) = Some Eq.
Proof.
  unfold SFcompare.
  change (Pos.compare_cont Eq m m) with (Pos.compare m m).
  rewrite Z.compare_refl, Pos.compare_refl. by destruct s.
Qed.

(** [==] holds between two zeros, two infinities of one sign, or two
    identical finite numbers. *)
Lemma eqb_true_iff x y :
  eqb x y = true <->
  match x, y with
  | S754_zero _, S754_zero _ => True
  | S754_infinity s1, S754_infinity s2 => s1 = s2
  | S754_finite _ _ _, S754_finite _ _ _ => x = y
  | _, _ => False
  end.
Proof.
  unfold eqb, SFeqb.
  destruct x as [s1|s1| |s1 m1 e1], y as [s2|s2| |s2 m2 e2];
    try (simpl; try destruct s1; try destruct s2; intuition congruence).
  split.
  - destruct (SFcompare _ _) as [[]|] eqn:E; try discriminate.
    intros _. apply compare_finite_Eq in E as (-> & -> & ->). done.
  - intros [= -> -> ->]. by rewrite compare_refl_finite.
Qed.

Lemma eqb_sym x y : eqb x y = eqb y x.
Proof.
  apply eq_true_iff_eq. rewrite !eqb_true_iff.
  destruct x, y; intuition congruence.
Qed.

Lemma eqb_trans x y z : eqb x y = true -> eqb y z = true -> eqb x z = true.
Proof.
  rewrite !eqb_true_iff.
  destruct x, y, z; intuition congruence.
Qed.

End FloatFacts.

(** ** C1: the locus evaluator *)

Section EvaluatorFacts.

Implicit Types (xs ys qs cs s : list float) (x y a b : float).

Lemma py_set_from_spec xs : forall s,
  (forall x, In x (fold_left
      (fun s x => if existsb (fun y => Float.eqb y x) s then s else s ++ [x])
      xs s) -> In x s \/ In x xs) /\
  (forall b, (existsb (fun a => Float.eqb a b) s = true \/
              existsb (fun a => Float.eqb a b) xs = true) ->
     existsb (fun a => Float.eqb a b)
       (fold_left
          (fun s x => if existsb (fun y => Float.eqb y x) s then s else s ++ [x])
          xs s) = true) /\
  (s <> [] \/ xs <> [] ->
     fold_left
       (fun s x => if existsb (fun y => Float.eqb y x) s then s else s ++ [x])
       xs s <> []).
Proof.
  induction xs as [|x xs IH]; intros s; simpl.
  - split; [auto|]. split; [|intuition].
    intros b [H|H]; [done | discriminate].
  - destruct (IH (if existsb (fun y => Float.eqb y x) s then s else s ++ [x]))
      as (IH1 & IH2 & IH3).
    split; [|split].
    + intros z Hz. apply IH1 in Hz as [Hz|Hz]; [|auto].
      destruct (existsb _ s); [auto|].
      apply in_app_or in Hz as [Hz|[<-|[]]]; auto.
    + intros b Hb. apply IH2.
      destruct (existsb (fun y => Float.eqb y x) s) eqn:Ex.
      * destruct Hb as [Hb|Hb]; [auto|].
        apply orb_true_iff in Hb as [Hb|Hb]; [|auto].
        left. apply existsb_exists in Ex as (y & Hy & Hyx).
        apply existsb_exists. exists y. split; [done|].
        by apply FloatFacts.eqb_trans with x.
      * rewrite existsb_app. simpl. rewrite orb_false_r.
        destruct Hb as [Hb|Hb]; [left; by rewrite Hb|].
        apply orb_true_iff in Hb as [Hb|Hb]; [|auto].
        left. rewrite Hb. apply orb_true_r.
    + intros _. apply IH3. left.
      destruct (existsb _ s) eqn:Ex.
      * intros ->. discriminate.
      * by destruct s.
Qed.

Lemma py_set_In xs x : In x (py_set xs) -> In x xs.
Proof.
  intros H. by destruct (proj1 (py_set_from_spec xs []) x H).
Qed.

(** Membership in [set(xs)] up to [==] is membership in [xs]. *)
Lemma py_set_contains xs b :
  existsb (fun a => Float.eqb a b) (py_set xs) =
  existsb (fun a => Float.eqb a b) xs.
Proof.
  apply eq_true_iff_eq. split.
  - intros (a & Ha & Hab)%existsb_exists.
    apply existsb_exists. exists a. eauto using py_set_In.
  - intros H. apply (py_set_from_spec xs []). auto.
Qed.

Lemma py_set_nil xs : py_set xs = [] <-> xs = [].
Proof.
  split; [|by intros ->].
  intros H. destruct xs as [|x xs]; [done|].
  exfalso. by eapply (py_set_from_spec (x :: xs) []); [right|].
Qed.

(** The intersection is non-empty exactly when a value is shared. *)
Lemma intersection_nonempty qs cs :
  intersection (py_set qs) cs <> [] <-> shares_allele qs cs.
Proof.
  unfold intersection, shares_allele. rewrite py_set_nil. split.
  - intros H.
    destruct (List.filter _ cs) as [|b l] eqn:E; [done|].
    assert (Hb : In b (List.filter
      (fun b => existsb (fun a => Float.eqb a b) (py_set qs)) cs))
      by (rewrite E; by left).
    apply filter_In in Hb as [Hb Hex].
    rewrite py_set_contains in Hex.
    apply existsb_exists in Hex as (a & Ha & Hab). eauto.
  - intros (a & b & Ha & Hb & Hab) E.
    assert (Hin : In b (List.filter
      (fun b => existsb (fun a => Float.eqb a b) (py_set qs)) cs)).
    { apply filter_In. split; [done|]. rewrite py_set_contains.
      apply existsb_exists. eauto. }
    by rewrite E in Hin.
Qed.

Lemma any_adjacent_true qs cs : any_adjacent qs cs = true <-> adjacent_pair qs cs.
Proof.
  unfold any_adjacent, adjacent_pair. rewrite existsb_exists. split.
  - intros (a & Ha & (b & Hb & Hab)%existsb_exists). eauto.
  - intros (a & b & Ha & Hb & Hab). exists a. split; [done|].
    apply existsb_exists. eauto.
Qed.

End EvaluatorFacts.

Lemma evaluate_locus_some (qs cs : list float) :
  (shares_allele qs cs ->
     _evaluate_locus (Some qs) (Some cs) = verdict_tuple Consistent) /\
  (~ shares_allele qs cs -> adjacent_pair qs cs ->
     _evaluate_locus (Some qs) (Some cs) = verdict_tuple Mutated) /\
  (~ shares_allele qs cs -> ~ adjacent_pair qs cs ->
     _evaluate_locus (Some qs) (Some cs) = verdict_tuple Mismatch).
Proof.
  unfold _evaluate_locus.
  pose proof (intersection_nonempty qs cs) as Hsh.
  pose proof (any_adjacent_true qs cs) as Hadj.
  destruct (intersection (py_set qs) cs) as [|x l].
  - assert (Hno : ~ shares_allele qs cs) by (intros H; by apply Hsh in H).
    repeat split; [done | |].
    + intros _ H. apply Hadj in H. by rewrite H.
    + intros _ H. destruct (any_adjacent qs cs); [|done].
      exfalso. apply H. by apply Hadj.
  - assert (Hyes : shares_allele qs cs) by (by apply Hsh).
    split; [done | split; intros H; by destruct H].
Qed.

Lemma shares_allele_dec (qs cs : list float) :
  {shares_allele qs cs} + {~ shares_allele qs cs}.
Proof.
  destruct (intersection (py_set qs) cs) as [|x l] eqn:E.
  - right. intros H. by apply intersection_nonempty in H.
  - left. apply intersection_nonempty. by rewrite E.
Qed.

Lemma adjacent_pair_dec (qs cs : list float) :
  {adjacent_pair qs cs} + {~ adjacent_pair qs cs}.
Proof.
  destruct (any_adjacent qs cs) eqn:E.
  - left. by apply any_adjacent_true.
  - right. intros H. apply any_adjacent_true in H. congruence.
Qed.

(** *** The test [abs(a - b) == 1] on exact values *)

Module Nearest.

Import Float Rounding.
Local Open Scope Z_scope.

Lemma shr_1_spec mrs :
  0 <= shr_m mrs ->
  shr_1 mrs
  = Build_shr_record (shr_m mrs / 2) (Z.odd (shr_m mrs)) (shr_r mrs || shr_s mrs).
Proof.
  destruct mrs as [m r s]. cbn [shr_m shr_r shr_s].
  destruct m as [|[p|p|]|p]; intros H; cbn [shr_1]; try lia; try done.
  - f_equal. rewrite Pos2Z.inj_xI. apply Z.div_unique with 1; lia.
  - f_equal. rewrite Pos2Z.inj_xO. apply Z.div_unique with 0; lia.
Qed.

(** After [k + 1] shifts: the quotient, the last bit shifted out, and
    whether a bit shifted out before it was set. *)
Lemma shr_iter_spec (k : nat) m :
  0 <= m ->
  Nat.iter (S k) shr_1 (Build_shr_record m false false)
  = Build_shr_record (m / 2 ^ (Z.of_nat k + 1))
      (Z.odd (m / 2 ^ Z.of_nat k))
      (negb (m mod 2 ^ Z.of_nat k =? 0)).
Proof.
  intros Hm. induction k as [|k IH].
  - change (Nat.iter 1 shr_1 ?x) with (shr_1 x).
    rewrite shr_1_spec by done. cbn [shr_m shr_r shr_s orb].
    change (2 ^ Z.of_nat 0) with 1. change (2 ^ (Z.of_nat 0 + 1)) with 2.
    by rewrite Z.div_1_r, Z.mod_1_r.
  - rewrite Nat.iter_succ, IH.
    assert (Hp : 0 < 2 ^ Z.of_nat k) by (apply Z.pow_pos_nonneg; lia).
    rewrite shr_1_spec by (cbn [shr_m]; apply Z.div_pos; lia).
    cbn [shr_m shr_r shr_s].
    rewrite Nat2Z.inj_succ.
    replace (Z.succ (Z.of_nat k) + 1) with (Z.of_nat k + 1 + 1) by lia.
    replace (Z.succ (Z.of_nat k)) with (Z.of_nat k + 1) by lia.
    rewrite (Z.pow_add_r 2 (Z.of_nat k + 1) 1) by lia. change (2 ^ 1) with 2.
    rewrite <- Z.div_div by lia. f_equal.
    rewrite (Z.pow_add_r 2 (Z.of_nat k) 1) by lia. change (2 ^ 1) with 2.
    rewrite Z.rem_mul_r by lia.
    rewrite (Zmod_odd (m / 2 ^ Z.of_nat k)).
    pose proof (Z.mod_pos_bound m (2 ^ Z.of_nat k) Hp) as Hb.
    destruct (Z.odd (m / 2 ^ Z.of_nat k)); simpl.
    + symmetry. apply negb_true_iff, Z.eqb_neq. lia.
    + f_equal. rewrite Z.mul_0_r, Z.add_0_r. done.
Qed.

(** Shifting out [k + 1] bits and rounding on the bits shifted out is
    rounding to nearest, ties to even. *)
Lemma round_shifted (k : nat) m :
  0 <= m ->
  round_nearest_even
    (shr_m (Nat.iter (S k) shr_1 (Build_shr_record m false false)))
    (loc_of_shr_record (Nat.iter (S k) shr_1 (Build_shr_record m false false)))
  = nearest m (Z.of_nat k + 1).
Proof.
  intros Hm. rewrite shr_iter_spec by done. cbn [shr_m].
  unfold nearest.
  assert (Hp : 0 < 2 ^ Z.of_nat k) by (apply Z.pow_pos_nonneg; lia).
  rewrite (Z.pow_add_r 2 (Z.of_nat k) 1) by lia. change (2 ^ 1) with 2.
  rewrite Z.rem_mul_r by lia.
  rewrite (Zmod_odd (m / 2 ^ Z.of_nat k)).
  pose proof (Z.mod_pos_bound m (2 ^ Z.of_nat k) Hp) as Hb.
  set (P := 2 ^ Z.of_nat k) in *. set (low := m mod P) in *.
  destruct (Z.odd (m / P)).
  - destruct (Z.eqb_spec low 0) as [E|E]; cbn [negb loc_of_shr_record].
    + rewrite E. replace (2 * (0 + P * 1)) with (P * 2) by lia.
      rewrite !Z.ltb_irrefl. reflexivity.
    + destruct (Z.ltb_spec (2 * (low + P * 1)) (P * 2)); [lia|].
      destruct (Z.ltb_spec (P * 2) (2 * (low + P * 1))); [|lia].
      reflexivity.
  - destruct (Z.ltb_spec (2 * (low + P * 0)) (P * 2)); [|lia].
    by destruct (Z.eqb_spec low 0).
Qed.

Lemma nearest_0 m : nearest m 0 = m.
Proof.
  unfold nearest. change (2 ^ 0) with 1.
  rewrite Z.mod_1_r, Z.div_1_r. reflexivity.
Qed.

Lemma nearest_cases m n :
  nearest m n = m / 2 ^ n \/ nearest m n = m / 2 ^ n + 1.
Proof.
  unfold nearest.
  destruct (_ <? _); [auto|]. destruct (_ <? _); [auto|].
  destruct (Z.even _); auto.
Qed.

Lemma shr_fexp_nearest mx ex :
  0 < mx ->
  0 <= Zdigits2 mx - 53 ->
  -1074 <= ex + (Zdigits2 mx - 53) ->
  exists mrs,
    shr_fexp 53 1024 mx ex loc_Exact = (mrs, ex + (Zdigits2 mx - 53)) /\
    round_nearest_even (shr_m mrs) (loc_of_shr_record mrs)
    = nearest mx (Zdigits2 mx - 53).
Proof.
  intros Hmx Hn He. unfold shr_fexp.
  rewrite fexp_normal by lia.
  replace (Zdigits2 mx + ex - 53 - ex) with (Zdigits2 mx - 53) by lia.
  destruct (Zdigits2 mx - 53) as [|p|p] eqn:En; [| |lia].
  - unfold shr. eexists. split; [by rewrite Z.add_0_r|].
    by rewrite nearest_0.
  - unfold shr. rewrite iter_pos_nat. eexists. split; [done|].
    destruct (Pos2Nat.is_succ p) as [k Hk]. rewrite Hk.
    cbn [shr_record_of_loc]. rewrite round_shifted by lia.
    f_equal. lia.
Qed.

(** Rounding a mantissa of [53 + n] digits, exactly: the mantissa is
    rounded to nearest, ties to even; when that carries into a 54th digit
    the exponent goes up by one. *)
Lemma binary_round_aux_nearest s mx ex :
  0 < mx ->
  0 <= Zdigits2 mx - 53 ->
  -1074 <= ex + (Zdigits2 mx - 53) ->
  binary_round_aux 53 1024 s mx ex loc_Exact
  = (if nearest mx (Zdigits2 mx - 53) =? 2 ^ 53
     then if ex + (Zdigits2 mx - 53) + 1 <=? 971
          then S754_finite s (2 ^ 52) (ex + (Zdigits2 mx - 53) + 1)
          else S754_infinity s
     else if ex + (Zdigits2 mx - 53) <=? 971
          then S754_finite s (Z.to_pos (nearest mx (Zdigits2 mx - 53)))
                 (ex + (Zdigits2 mx - 53))
          else S754_infinity s) /\
  2 ^ 52 <= nearest mx (Zdigits2 mx - 53) <= 2 ^ 53.
Proof.
  intros Hmx Hn Hlo.
  set (n := Zdigits2 mx - 53) in *.
  destruct (shr_fexp_nearest mx ex Hmx Hn Hlo) as (mrs & Hshr & Hround).
  fold n in Hshr, Hround.
  pose proof (Zdigits2_bounds mx Hmx) as [Hd1 Hd2].
  assert (Hq : 2 ^ 52 <= mx / 2 ^ n < 2 ^ 53).
  { assert (Hp : 0 < 2 ^ n) by (apply Z.pow_pos_nonneg; lia).
    replace (Zdigits2 mx - 1) with (52 + n) in Hd1 by lia.
    replace (Zdigits2 mx) with (53 + n) in Hd2 by lia.
    rewrite Z.pow_add_r in Hd1, Hd2 by lia.
    split.
    - apply Z.div_le_lower_bound; lia.
    - apply Z.div_lt_upper_bound; lia. }
  assert (Hm1 : 2 ^ 52 <= nearest mx n <= 2 ^ 53)
    by (destruct (nearest_cases mx n) as [-> | ->]; lia).
  split; [|done].
  unfold binary_round_aux. rewrite Hshr, Hround.
  set (m1 := nearest mx n) in *. clearbody m1.
  change (1024 - 53) with 971.
  destruct (Z.eqb_spec m1 (2 ^ 53)) as [Hc|Hc].
  - assert (Hd : Zdigits2 m1 = 54) by (apply Zdigits2_unique; rewrite Hc; lia).
    destruct (shr_fexp_spec m1 (ex + n) loc_Exact) as (mrs2 & Hshr2 & Hm2 & _);
      [lia | lia | lia |].
    rewrite Hshr2, Hm2, Hd, Hc.
    change (2 ^ 53 / 2 ^ (54 - 53)) with (Zpos (2 ^ 52)).
    cbv iota beta.
    by replace (ex + n + (54 - 53)) with (ex + n + 1) by lia.
  - assert (Hd : Zdigits2 m1 = 53) by (apply Zdigits2_unique; lia).
    destruct (shr_fexp_spec m1 (ex + n) loc_Exact) as (mrs2 & Hshr2 & Hm2 & _);
      [lia | lia | lia |].
    rewrite Hshr2, Hm2, Hd. change (2 ^ (53 - 53)) with 1. rewrite Z.div_1_r.
    destruct m1 as [|p1|p1] eqn:Em1; [lia| |lia].
    by replace (ex + n + (53 - 53)) with (ex + n) by lia.
Qed.

End Nearest.
Module RoundOne.

Import Float Rounding Nearest.
Local Open Scope Z_scope.

Lemma fexp_le d ex :
  d <= 53 -> -1074 <= ex -> fexp 53 1024 (d + ex) <= ex.
Proof. unfold fexp, emin. lia. Qed.

(** Rounding a mantissa of at most 53 digits is exact, whatever the
    exponent. *)
Lemma binary_round_small_gen s mx ex :
  Zpos (digits2_pos mx) <= 53 ->
  -1074 <= ex ->
  binary_round 53 1024 s mx ex
  = (if fexp 53 1024 (Zpos (digits2_pos mx) + ex) <=? 971
     then S754_finite s
            (Z.to_pos (Zpos mx * 2 ^ (ex - fexp 53 1024 (Zpos (digits2_pos mx) + ex))))
            (fexp 53 1024 (Zpos (digits2_pos mx) + ex))
     else S754_infinity s).
Proof.
  intros Hd Hex. unfold binary_round.
  set (d := Zpos (digits2_pos mx)) in *.
  pose proof (fexp_le d ex Hd Hex) as Hf.
  set (f := fexp 53 1024 (d + ex)) in *.
  destruct (shl_align_spec mx ex f Hf) as [Hm He].
  destruct (shl_align mx ex f) as [mz ez]. simpl in Hm, He. subst ez.
  assert (Hdz : Zdigits2 (Zpos mz) = d + (ex - f)).
  { rewrite Hm. apply digits_mul_pow2; lia. }
  assert (Hshift : fexp 53 1024 (Zdigits2 (Zpos mz) + f) - f = 0).
  { rewrite Hdz. replace (d + (ex - f) + f) with (d + ex) by lia. fold f. lia. }
  unfold binary_round_aux, shr_fexp. rewrite Hshift.
  cbn [shr shr_record_of_loc loc_of_shr_record round_nearest_even shr_m].
  rewrite Hshift. cbn [shr shr_record_of_loc shr_m].
  change (1024 - 53) with 971. rewrite <- Hm. by rewrite Pos2Z.id.
Qed.

Lemma binary_round_large_gen s mx ex :
  53 <= Zpos (digits2_pos mx) ->
  -1074 <= ex ->
  binary_round 53 1024 s mx ex = binary_round_aux 53 1024 s (Zpos mx) ex loc_Exact.
Proof.
  intros Hd Hex. unfold binary_round.
  rewrite fexp_normal by lia. by rewrite shl_align_id by lia.
Qed.

Lemma abs_is_one s m e :
  SFabs (S754_finite s m e) = one <-> Zpos m = 2 ^ 52 /\ e = -52.
Proof.
  change one with (S754_finite false (2 ^ 52) (-52)). simpl. split.
  - intros [= -> ->]. done.
  - intros [[= ->] ->]. done.
Qed.

Lemma pow2_pos k : 0 <= k -> 0 < 2 ^ k.
Proof. intros. apply Z.pow_pos_nonneg; lia. Qed.

(** A mantissa of at most 53 digits rounds to 1.0 exactly when it is
    1.0. *)
Lemma round_is_one_small s p e :
  Zpos (digits2_pos p) <= 53 -> -1074 <= e ->
  SFabs (binary_round 53 1024 s p e) = one <-> near_one (Zpos p) e.
Proof.
  intros Hd He. rewrite binary_round_small_gen by done.
  pose proof (digits2_pos_bounds p) as [Hb1 Hb2].
  set (d := Zpos (digits2_pos p)) in *.
  assert (Hd1 : 1 <= d) by (unfold d; lia).
  assert (Hp53 : Zpos p < 2 ^ 53).
  { eapply Z.lt_le_trans; [exact Hb2|]. apply Z.pow_le_mono_r; lia. }
  unfold near_one. split.
  - destruct (fexp 53 1024 (d + e) <=? 971) eqn:Ef; [|done].
    intros [Hm Hf]%abs_is_one.
    unfold fexp, emin in Hf, Hm.
    assert (He1 : e = 1 - d) by lia.
    replace (Z.max (d + e - 53) (3 - 1024 - 53)) with (-52) in Hm by lia.
    replace (e - -52) with (53 - d) in Hm by lia.
    pose proof (pow2_pos (53 - d) ltac:(lia)) as Hpp.
    rewrite Z2Pos.id in Hm by lia.
    assert (HK : 2 ^ 52 = 2 ^ (- e) * 2 ^ (53 - d)).
    { rewrite <- Z.pow_add_r by lia. f_equal. lia. }
    rewrite HK in Hm. apply Z.mul_cancel_r in Hm; [|lia].
    rewrite Hm. pose proof (pow2_pos (- e) ltac:(lia)). split; [lia|]. lia.
  - intros (He0 & Hlo & Hhi).
    set (k := - e) in *. assert (Hk : 0 <= k) by (unfold k; lia).
    pose proof (pow2_pos k Hk) as HK.
    assert (Hk52 : k <= 52).
    { destruct (Z.le_gt_cases k 52) as [|Hgt]; [done|].
      assert (2 ^ 53 <= 2 ^ k) by (apply Z.pow_le_mono_r; lia). lia. }
    assert (HK52 : 2 ^ k <= 2 ^ 52) by (apply Z.pow_le_mono_r; lia).
    assert (Hpk : Zpos p = 2 ^ k) by lia.
    assert (Hdk : d = k + 1).
    { unfold d. apply digits2_pos_unique. rewrite Hpk.
      replace (k + 1 - 1) with k by lia.
      rewrite Z.pow_add_r by lia. lia. }
    unfold fexp, emin.
    replace (Z.max (d + e - 53) (3 - 1024 - 53)) with (-52) by (unfold k in *; lia).
    change (-52 <=? 971) with true. cbv iota.
    apply abs_is_one. split; [|done].
    rewrite Hpk, <- Z.pow_add_r by (unfold k in *; lia).
    rewrite Z2Pos.id by (apply pow2_pos; unfold k in *; lia).
    f_equal. unfold k. lia.
Qed.

Lemma nearest_unfold m n :
  nearest m n
  = (if 2 * (m mod 2 ^ n) <? 2 ^ n then m / 2 ^ n
     else if 2 ^ n <? 2 * (m mod 2 ^ n) then m / 2 ^ n + 1
     else if Z.even (m / 2 ^ n) then m / 2 ^ n else m / 2 ^ n + 1).
Proof. reflexivity. Qed.

(** A mantissa of more than 53 digits rounds to 1.0 exactly when it is
    within the rounding interval of 1.0. *)
Lemma round_is_one_large s p e :
  54 <= Zpos (digits2_pos p) -> -1074 <= e ->
  SFabs (binary_round 53 1024 s p e) = one <-> near_one (Zpos p) e.
Proof.
  intros Hd He. rewrite binary_round_large_gen by lia.
  pose proof (digits2_pos_bounds p) as [Hb1 Hb2].
  destruct (binary_round_aux_nearest s (Zpos p) e) as [-> Hm1];
    [lia | simpl Zdigits2; lia | simpl Zdigits2; lia |].
  simpl Zdigits2 in *.
  set (d := Zpos (digits2_pos p)) in *.
  set (n := d - 53) in *.
  assert (Hn : 1 <= n) by (unfold n; lia).
  pose proof (pow2_pos n ltac:(lia)) as HP.
  assert (HP2 : 2 <= 2 ^ n).
  { change 2 with (2 ^ 1) at 1. apply Z.pow_le_mono_r; lia. }
  pose proof (Z.div_mod (Zpos p) (2 ^ n) ltac:(lia)) as Hdm.
  pose proof (Z.mod_pos_bound (Zpos p) (2 ^ n) HP) as Hr.
  assert (Hq : 2 ^ 52 <= Zpos p / 2 ^ n < 2 ^ 53).
  { replace (d - 1) with (52 + n) in Hb1 by (unfold n; lia).
    replace d with (53 + n) in Hb2 by (unfold n; lia).
    rewrite Z.pow_add_r in Hb1, Hb2 by lia.
    split; [apply Z.div_le_lower_bound; lia | apply Z.div_lt_upper_bound; lia]. }
  rewrite nearest_unfold in *.
  set (q := Zpos p / 2 ^ n) in *. set (r := Zpos p mod 2 ^ n) in *.
  set (P := 2 ^ n) in *.
  unfold near_one. split.
  - intros Hres.
    destruct (Z.ltb_spec (2 * r) P) as [Hlt|Hge].
    + (* rounded down *)
      destruct (Z.eqb_spec q (2 ^ 53)) as [E|_]; [lia|].
      destruct (e + n <=? 971); [|done].
      apply abs_is_one in Hres as [Hm Hen].
      rewrite Z2Pos.id in Hm by lia.
      assert (HK : 2 ^ (- e) = 2 ^ 52 * P).
      { unfold P. rewrite <- Z.pow_add_r by lia. f_equal. lia. }
      rewrite HK. split; [lia|]. rewrite Hm in Hdm. lia.
    + destruct (Z.ltb_spec P (2 * r)) as [Hgt|Hle].
      * (* rounded up *)
        destruct (Z.eqb_spec (q + 1) (2 ^ 53)) as [E|E].
        -- destruct (e + n + 1 <=? 971); [|done].
           apply abs_is_one in Hres as [_ Hen].
           assert (HK : 2 ^ (- e) = 2 ^ 53 * P).
           { unfold P. rewrite <- Z.pow_add_r by lia. f_equal. lia. }
           rewrite HK. split; [lia|].
           assert (q = 2 ^ 53 - 1) as Hq1 by lia. rewrite Hq1 in Hdm. lia.
        -- destruct (e + n <=? 971); [|done].
           apply abs_is_one in Hres as [Hm Hen].
           rewrite Z2Pos.id in Hm by lia. lia.
      * (* a tie *)
        assert (Htie : 2 * r = P) by lia.
        destruct (Z.even q) eqn:Ev.
        -- destruct (Z.eqb_spec q (2 ^ 53)) as [E|_]; [lia|].
           destruct (e + n <=? 971); [|done].
           apply abs_is_one in Hres as [Hm Hen].
           rewrite Z2Pos.id in Hm by lia.
           assert (HK : 2 ^ (- e) = 2 ^ 52 * P).
           { unfold P. rewrite <- Z.pow_add_r by lia. f_equal. lia. }
           rewrite HK. split; [lia|]. rewrite Hm in Hdm. lia.
        -- destruct (Z.eqb_spec (q + 1) (2 ^ 53)) as [E|E].
           ++ destruct (e + n + 1 <=? 971); [|done].
              apply abs_is_one in Hres as [_ Hen].
              assert (HK : 2 ^ (- e) = 2 ^ 53 * P).
              { unfold P. rewrite <- Z.pow_add_r by lia. f_equal. lia. }
              rewrite HK. split; [lia|].
              assert (q = 2 ^ 53 - 1) as Hq1 by lia. rewrite Hq1 in Hdm. lia.
           ++ destruct (e + n <=? 971); [|done].
              apply abs_is_one in Hres as [Hm Hen].
              rewrite Z2Pos.id in Hm by lia. lia.
  - intros (He0 & Hlo & Hhi).
    set (k := - e) in *. assert (Hk : 0 <= k) by (unfold k; lia).
    pose proof (pow2_pos k Hk) as HK.
    assert (Hp53 : 2 ^ 53 <= Zpos p).
    { eapply Z.le_trans; [|exact Hb1]. apply Z.pow_le_mono_r; lia. }
    destruct (Z.le_gt_cases (2 ^ k) (Zpos p)) as [Hge|Hlt].
    + (* at least 1: the quotient is 2^52 and is kept *)
      assert (Hdk : d = k + 1).
      { unfold d. apply digits2_pos_unique.
        replace (k + 1 - 1) with k by lia.
        rewrite Z.pow_add_r by lia. lia. }
      assert (HKP : 2 ^ k = 2 ^ 52 * P).
      { unfold P. rewrite <- Z.pow_add_r by lia. f_equal. unfold n. lia. }
      assert (Hq52 : q = 2 ^ 52).
      { unfold q. symmetry. apply Z.div_unique with (Zpos p - 2 ^ 52 * P); lia. }
      assert (Hr2 : 2 * r <= P) by lia.
      assert (Hexp : e + n = -52) by (unfold n, k in *; lia).
      rewrite Hq52 in *.
      destruct (Z.ltb_spec (2 * r) P) as [_|Hge2].
      * change (2 ^ 52 =? 2 ^ 53) with false. cbv iota.
        rewrite Hexp. by apply abs_is_one.
      * destruct (Z.ltb_spec P (2 * r)) as [?|_]; [lia|].
        change (Z.even (2 ^ 52)) with true. cbv iota.
        change (2 ^ 52 =? 2 ^ 53) with false. cbv iota.
        rewrite Hexp. by apply abs_is_one.
    + (* below 1: the quotient is 2^53 - 1 and is rounded up *)
      assert (Hdk : d = k).
      { unfold d. apply digits2_pos_unique. split; [|done].
        assert (Hk1 : 1 <= k).
        { destruct (Z.le_gt_cases 1 k); [done|].
          assert (k = 0) as Hk0 by lia. rewrite Hk0 in Hlt.
          change (2 ^ 0) with 1 in Hlt. lia. }
        assert (2 ^ k = 2 * 2 ^ (k - 1)) as Hk2.
        { rewrite <- (Z.pow_succ_r 2 (k - 1)) by lia. f_equal. lia. }
        lia. }
      assert (HKP : 2 ^ k = 2 ^ 53 * P).
      { unfold P. rewrite <- Z.pow_add_r by lia. f_equal. unfold n. lia. }
      assert (Hq53 : q = 2 ^ 53 - 1).
      { unfold q. symmetry.
        apply Z.div_unique with (Zpos p - (2 ^ 53 - 1) * P); lia. }
      assert (Hr2 : P <= 2 * r) by lia.
      assert (Hexp : e + n + 1 = -52) by (unfold n, k in *; lia).
      rewrite Hq53 in *.
      destruct (Z.ltb_spec (2 * r) P) as [?|_]; [lia|].
      destruct (Z.ltb_spec P (2 * r)) as [_|_].
      * change (2 ^ 53 - 1 + 1 =? 2 ^ 53) with true. cbv iota.
        rewrite Hexp. by apply abs_is_one.
      * change (Z.even (2 ^ 53 - 1)) with false. cbv iota.
        change (2 ^ 53 - 1 + 1 =? 2 ^ 53) with true. cbv iota.
        rewrite Hexp. by apply abs_is_one.
Qed.

End RoundOne.
Module SubOne.

Import Float Rounding Nearest RoundOne.
Local Open Scope Z_scope.

Lemma round_is_one s p e :
  -1074 <= e ->
  SFabs (binary_round 53 1024 s p e) = one <-> near_one (Zpos p) e.
Proof.
  intros He. destruct (Z.le_gt_cases (Zpos (digits2_pos p)) 53).
  - by apply round_is_one_small.
  - apply round_is_one_large; [lia|done].
Qed.

Lemma normalize_is_one M e :
  -1074 <= e ->
  SFabs (binary_normalize 53 1024 M e false) = one <-> near_one (Z.abs M) e.
Proof.
  intros He. unfold binary_normalize. destruct M as [|p|p].
  - split; [done|]. unfold near_one. intros (He0 & Hlo & _).
    pose proof (pow2_pos (- e) ltac:(lia)). simpl in Hlo. lia.
  - by apply round_is_one.
  - by apply round_is_one.
Qed.

Lemma valid_finite s m e :
  valid (S754_finite s m e) ->
  Zpos (digits2_pos m) <= 53 /\ -1074 <= e <= 971 /\
  fexp 53 1024 (Zpos (digits2_pos m) + e) = e.
Proof.
  unfold valid, valid_binary, bounded, canonical_mantissa, prec, emax.
  intros [Hc%Z.eqb_eq Hb%Z.leb_le]%andb_true_iff.
  unfold fexp, emin in *. lia.
Qed.

(** A binary64 value is its own rounding. *)
Lemma valid_round s m e :
  valid (S754_finite s m e) ->
  binary_round 53 1024 s m e = S754_finite s m e.
Proof.
  intros (Hd & He & Hf)%valid_finite.
  rewrite binary_round_small_gen by lia. rewrite Hf.
  replace (e <=? 971) with true by (symmetry; apply Z.leb_le; lia).
  by rewrite Z.sub_diag, Z.mul_1_r.
Qed.

Lemma valid_is_one s m e :
  valid (S754_finite s m e) ->
  SFabs (S754_finite s m e) = one <-> near_one (Zpos m) e.
Proof.
  intros Hv. pose proof (valid_finite _ _ _ Hv) as (_ & He & _).
  rewrite <- (round_is_one s m e) by lia. by rewrite valid_round.
Qed.

Lemma eqb_abs_one x :
  eqb (abs x) one = true <-> SFabs x = one.
Proof.
  unfold abs. rewrite FloatFacts.eqb_true_iff.
  change one with (S754_finite false (2 ^ 52) (-52)).
  destruct x as [s|s| |s m e]; simpl; split; done.
Qed.

(** The test [abs(a - b) == 1] on two binary64 values, in terms of their
    exact difference. *)
Lemma sub_abs_one a b :
  valid a -> valid b ->
  eqb (abs (sub a b)) one = true <->
  exists M e, difference a b = Some (M, e) /\ near_one (Z.abs M) e.
Proof.
  intros Ha Hb. rewrite eqb_abs_one. unfold sub, prec, emax.
  destruct a as [sa|sa| |sa ma ea], b as [sb|sb| |sb mb eb];
    try (split; [by (try destruct sa; try destruct sb) | by intros (M & e & [=] & _)]).
  - (* 0 - 0 *)
    split; [by destruct sa, sb|]. intros (M & e & [= <- <-] & He0 & Hlo & _).
    simpl in Hlo. lia.
  - (* 0 - b *)
    pose proof (valid_finite _ _ _ Hb) as (_ & He & _).
    simpl SFsub.
    change (SFabs (S754_finite (negb sb) mb eb))
      with (SFabs (S754_finite sb mb eb)).
    rewrite (valid_is_one sb mb eb Hb).
    split.
    + intros H. exists (- cond_Zopp sb (Zpos mb)), eb. split; [reflexivity|].
      by destruct sb.
    + intros (M & e & [= <- <-] & H). by destruct sb.
  - (* a - 0 *)
    pose proof (valid_finite _ _ _ Ha) as (_ & He & _).
    simpl SFsub.
    rewrite (valid_is_one sa ma ea Ha).
    split.
    + intros H. exists (cond_Zopp sa (Zpos ma)), ea. split; [reflexivity|].
      by destruct sa.
    + intros (M & e & [= <- <-] & H). by destruct sa.
  - (* a - b *)
    pose proof (valid_finite _ _ _ Ha) as (_ & Hea & _).
    pose proof (valid_finite _ _ _ Hb) as (_ & Heb & _).
    unfold SFsub.
    destruct (shl_align_spec ma ea (Z.min ea eb)) as [-> _]; [lia|].
    destruct (shl_align_spec mb eb (Z.min ea eb)) as [-> _]; [lia|].
    rewrite !cond_Zopp_mul, normalize_is_one by lia.
    split.
    + intros H. eexists _, _. split; [reflexivity|]. exact H.
    + intros (M & e & [= <- <-] & H). exact H.
Qed.

End SubOne.
Module Exact.

Import Float Rounding RoundOne.

Lemma two_not_0 : ~ (2 == 0)%Q.
Proof. done. Qed.

Lemma pow2_inject g : (0 <= g)%Z -> (inject_Z (2 ^ g) == 2 ^ g)%Q.
Proof. intros Hg. by rewrite Zpower_Qpower. Qed.

(** A mantissa moved to a smaller exponent. *)
Lemma value_aligned M e e' :
  (e' <= e)%Z ->
  (inject_Z M * 2 ^ e == inject_Z (M * 2 ^ (e - e')) * 2 ^ e')%Q.
Proof.
  intros He. rewrite inject_Z_mult, pow2_inject by lia.
  rewrite <- Qmult_assoc, <- Qpower_plus by apply two_not_0.
  by replace (e - e' + e')%Z with e by lia.
Qed.

Lemma difference_value a b M e :
  difference a b = Some (M, e) ->
  exists va vb,
    value a = Some va /\ value b = Some vb /\
    (va - vb == inject_Z M * 2 ^ e)%Q.
Proof.
  destruct a as [sa|sa| |sa ma ea], b as [sb|sb| |sb mb eb]; simpl; try done;
    intros [= <- <-]; eexists _, _; (split; [reflexivity|]);
    (split; [reflexivity|]).
  - simpl. ring.
  - rewrite inject_Z_opp. ring.
  - ring.
  - rewrite (value_aligned (cond_Zopp sa (Zpos ma)) ea (Z.min ea eb)) by lia.
    rewrite (value_aligned (cond_Zopp sb (Zpos mb)) eb (Z.min ea eb)) by lia.
    unfold Zminus. rewrite inject_Z_plus, inject_Z_opp. ring.
Qed.

Lemma difference_distance a b :
  (forall M e, difference a b = Some (M, e) ->
     exists d, distance a b = Some d /\ (d == inject_Z (Z.abs M) * 2 ^ e)%Q) /\
  (forall d, distance a b = Some d -> exists M e, difference a b = Some (M, e)).
Proof.
  split.
  - intros M e (va & vb & Ha & Hb & Hd)%difference_value.
    unfold distance. rewrite Ha, Hb. eexists. split; [reflexivity|].
    rewrite Hd, Qabs_Qmult.
    rewrite (Qabs_pos (2 ^ e)) by (by apply Qpower_0_le).
    reflexivity.
  - intros d. unfold distance.
    destruct a as [sa|sa| |sa ma ea], b as [sb|sb| |sb mb eb]; simpl; try done;
      intros _; eexists _, _; reflexivity.
Qed.

(** The two readings of "rounds to 1.0". *)
Lemma near_one_Q A e :
  (0 <= A)%Z ->
  near_one A e <-> rounds_to_one (inject_Z A * 2 ^ e).
Proof.
  intros HA. unfold near_one, rounds_to_one.
  assert (Hlo : (1 - (1 # 2 ^ 54) == (2 ^ 54 - 1) # 2 ^ 54)%Q) by reflexivity.
  assert (Hhi : (1 + (1 # 2 ^ 53) == (2 ^ 54 + 2) # 2 ^ 54)%Q) by reflexivity.
  rewrite Hlo, Hhi. clear Hlo Hhi.
  destruct (Z.le_gt_cases e 0) as [He|He].
  - set (k := (- e)%Z). assert (Hk : (0 <= k)%Z) by (unfold k; lia).
    pose proof (pow2_pos k Hk) as HK.
    assert (Hval : (inject_Z A * 2 ^ e == A # Z.to_pos (2 ^ k))%Q).
    { replace e with (- k)%Z by (unfold k; lia).
      rewrite Qpower_opp, <- pow2_inject by done.
      rewrite Qmake_Qdiv, Z2Pos.id by done. reflexivity. }
    rewrite Hval. unfold Qle. cbn [Qnum Qden].
    rewrite Z2Pos.id by done.
    change (Zpos (2 ^ 54)) with (2 ^ 54)%Z.
    split.
    + intros (_ & H1 & H2). split; lia.
    + intros [H1 H2]. split; [done|]. split; lia.
  - split; [lia|].
    assert (Hval : (inject_Z A * 2 ^ e == inject_Z (A * 2 ^ e))%Q).
    { by rewrite inject_Z_mult, pow2_inject by lia. }
    rewrite Hval. unfold Qle, inject_Z. cbn [Qnum Qden].
    change (Zpos (2 ^ 54)) with (2 ^ 54)%Z.
    intros [H1 H2]. exfalso.
    assert (H2e : (2 ^ e = 2 * 2 ^ (e - 1))%Z).
    { rewrite <- (Z.pow_succ_r 2 (e - 1)) by lia. f_equal. lia. }
    rewrite H2e in *. lia.
Qed.

(** The test [abs(a - b) == 1] holds of two binary64 values exactly when
    their distance rounds to 1.0. *)
Lemma test_rounds_to_one a b :
  valid a -> valid b ->
  Float.eqb (Float.abs (Float.sub a b)) Float.one = true <->
  exists d, distance a b = Some d /\ rounds_to_one d.
Proof.
  intros Ha Hb. rewrite (SubOne.sub_abs_one a b Ha Hb).
  destruct (difference_distance a b) as [H1 H2]. split.
  - intros (M & e & HM & Hnear).
    destruct (H1 M e HM) as (d & Hd & Heq). exists d. split; [done|].
    unfold rounds_to_one. rewrite Heq. apply near_one_Q; [lia|done].
  - intros (d & Hd & Hr).
    destruct (H2 d Hd) as (M & e & HM). exists M, e. split; [done|].
    destruct (H1 M e HM) as (d' & Hd' & Heq).
    assert (d' = d) as -> by congruence.
    apply near_one_Q; [lia|]. unfold rounds_to_one in *. by rewrite <- Heq.
Qed.

End Exact.

(** ** Every float the parser produces is a binary64 value *)

Module Validity.

Import Float Rounding.
Local Open Scope Z_scope.

Lemma Zdigits2_nonneg m : 0 <= Zdigits2 m.
Proof. by destruct m. Qed.

Lemma Zdigits2_ge m n : 0 <= n -> 2 ^ n <= m -> n + 1 <= Zdigits2 m.
Proof.
  intros Hn Hm.
  assert (0 < 2 ^ n) by (apply Z.pow_pos_nonneg; lia).
  destruct (Zdigits2_bounds m) as [_ H2]; [lia|].
  destruct (Z.lt_ge_cases n (Zdigits2 m)) as [|Hge]; [lia|].
  assert (2 ^ Zdigits2 m <= 2 ^ n) by (apply Z.pow_le_mono_r; lia). lia.
Qed.

Lemma Zdigits2_mono a b : 0 <= a <= b -> Zdigits2 a <= Zdigits2 b.
Proof.
  intros [Ha Hab]. destruct (Z.eq_dec a 0) as [->|Hne].
  - apply Zdigits2_nonneg.
  - destruct (Zdigits2_bounds a) as [H1 _]; [lia|].
    assert (0 < Zdigits2 a) by (destruct a; simpl; lia).
    pose proof (Zdigits2_ge b (Zdigits2 a - 1)). lia.
Qed.

(** The digits of a mantissa shifted down. *)
Lemma Zdigits2_div m k :
  0 < m -> 0 <= k -> 0 < m / 2 ^ k -> Zdigits2 (m / 2 ^ k) = Zdigits2 m - k.
Proof.
  intros Hm Hk Hq.
  destruct (Zdigits2_bounds m Hm) as [H1 H2].
  assert (Hp : 0 < 2 ^ k) by (apply Z.pow_pos_nonneg; lia).
  assert (Hkd : k < Zdigits2 m).
  { destruct (Z.lt_ge_cases k (Zdigits2 m)) as [|Hge]; [done|].
    assert (2 ^ Zdigits2 m <= 2 ^ k) by (apply Z.pow_le_mono_r; [lia|lia]).
    rewrite Z.div_small in Hq by lia. lia. }
  apply Zdigits2_unique; [|done]. split.
  - apply Z.div_le_lower_bound; [done|].
    rewrite <- Z.pow_add_r by lia.
    by replace (k + (Zdigits2 m - k - 1)) with (Zdigits2 m - 1) by lia.
  - apply Z.div_lt_upper_bound; [done|].
    rewrite <- Z.pow_add_r by lia.
    by replace (k + (Zdigits2 m - k)) with (Zdigits2 m) by lia.
Qed.

(** One shift to the exponent [fexp] asks for: the mantissa that comes
    out is zero or in canonical position. *)
Lemma shr_fexp_canonical m e l :
  0 <= m ->
  e <= fexp 53 1024 (Zdigits2 m + e) ->
  exists mrs e1,
    shr_fexp 53 1024 m e l = (mrs, e1) /\
    0 <= shr_m mrs <= m /\
    e1 <= fexp 53 1024 (Zdigits2 (shr_m mrs) + e1) /\
    (0 < shr_m mrs -> fexp 53 1024 (Zdigits2 (shr_m mrs) + e1) = e1).
Proof.
  intros Hm He. unfold shr_fexp.
  set (f := fexp 53 1024 (Zdigits2 m + e)) in *.
  assert (Hm0 : shr_m (shr_record_of_loc m l) = m) by (by destruct l as [|[]]).
  destruct (f - e) as [|p|p] eqn:Ek; [| |lia].
  - unfold shr. eexists _, _. split; [reflexivity|]. rewrite Hm0.
    assert (f = e) as Hfe by lia. fold f. split; [lia|]. split; [lia|]. intros _. lia.
  - unfold shr. rewrite iter_pos_nat. eexists _, _. split; [reflexivity|].
    rewrite shr_iter_m by (rewrite Hm0; lia).
    rewrite Hm0, positive_nat_Z.
    assert (Hp : 0 < 2 ^ Zpos p) by (apply Z.pow_pos_nonneg; lia).
    replace (e + Zpos p) with f by lia.
    split.
    { split; [apply Z.div_pos; lia|]. apply Z.div_le_upper_bound; [done|]. nia. }
    destruct (Z.eq_dec (m / 2 ^ Zpos p) 0) as [Hz|Hnz].
    + rewrite Hz. split; [|lia]. simpl Zdigits2. rewrite Z.add_0_l.
      (* the mantissa vanished: the exponent is the minimal one *)
      assert (Hsmall : m < 2 ^ Zpos p).
      { destruct (Z.lt_ge_cases m (2 ^ Zpos p)) as [|Hge]; [done|].
        assert (1 <= m / 2 ^ Zpos p) by (apply Z.div_le_lower_bound; lia). lia. }
      assert (Hd : Zdigits2 m <= Zpos p).
      { destruct (Z.eq_dec m 0) as [->|]; [simpl; lia|].
        destruct (Zdigits2_bounds m) as [H1 _]; [lia|].
        destruct (Z.le_gt_cases (Zdigits2 m) (Zpos p)) as [|Hgt]; [done|].
        assert (2 ^ Zpos p <= 2 ^ (Zdigits2 m - 1)) by (apply Z.pow_le_mono_r; lia).
        lia. }
      unfold f, fexp, emin in *. lia.
    + assert (Hq : 0 < m / 2 ^ Zpos p).
      { assert (0 <= m / 2 ^ Zpos p) by (apply Z.div_pos; lia). lia. }
      assert (Hmpos : 0 < m).
      { destruct (Z.eq_dec m 0) as [->|]; [by rewrite Z.div_0_l in Hnz by lia|lia]. }
      rewrite Zdigits2_div by (done || lia).
      replace (Zdigits2 m - Zpos p + f) with (Zdigits2 m + e) by lia.
      fold f. split; [lia|done].
Qed.

(** Rounding a mantissa that is fine enough gives a binary64 value. *)
Lemma binary_round_aux_valid s mx ex lx :
  0 <= mx ->
  ex <= fexp 53 1024 (Zdigits2 mx + ex) ->
  valid (binary_round_aux 53 1024 s mx ex lx).
Proof.
  intros Hmx Hex. unfold valid, prec, emax, binary_round_aux.
  destruct (shr_fexp_canonical mx ex lx Hmx Hex) as (mrs & e1 & -> & Hm1 & Hpre & _).
  set (m1 := round_nearest_even (shr_m mrs) (loc_of_shr_record mrs)).
  assert (Hr : shr_m mrs <= m1 <= shr_m mrs + 1).
  { unfold m1.
    destruct (round_nearest_even_cases (shr_m mrs) (loc_of_shr_record mrs))
      as [-> | ->]; lia. }
  assert (Hpre1 : e1 <= fexp 53 1024 (Zdigits2 m1 + e1)).
  { pose proof (Zdigits2_mono (shr_m mrs) m1 ltac:(lia)).
    unfold fexp, emin in *. lia. }
  destruct (shr_fexp_canonical m1 e1 loc_Exact ltac:(lia) Hpre1)
    as (mrs2 & e2 & -> & Hm2 & _ & Hcan).
  destruct (shr_m mrs2) as [|p|p] eqn:E; [done| |lia].
  destruct (e2 <=? 1024 - 53) eqn:Ee; [|done].
  simpl. unfold bounded, canonical_mantissa.
  specialize (Hcan ltac:(lia)). simpl Zdigits2 in Hcan.
  rewrite Hcan, Z.eqb_refl. done.
Qed.

Lemma binary_round_valid s mx ex : valid (binary_round 53 1024 s mx ex).
Proof.
  unfold binary_round.
  set (f := fexp 53 1024 (Zpos (digits2_pos mx) + ex)).
  destruct (Z.le_gt_cases ex f) as [Hle|Hgt].
  - rewrite shl_align_id by done. by apply binary_round_aux_valid.
  - destruct (shl_align_spec mx ex f ltac:(lia)) as [Hm He].
    destruct (shl_align mx ex f) as [mz ez]. simpl in Hm, He. subst ez.
    apply binary_round_aux_valid; [lia|].
    rewrite Hm, digits_mul_pow2 by lia. simpl Zdigits2.
    replace (Zpos (digits2_pos mx) + (ex - f) + f) with (Zpos (digits2_pos mx) + ex) by lia.
    fold f. lia.
Qed.

(** The quotient the division prepares is fine enough. *)
Lemma div_core_fine m1 m2 :
  0 < m1 -> 0 < m2 ->
  forall q e' l, SFdiv_core_binary 53 1024 m1 0 m2 0 = (q, e', l) ->
  0 <= q /\ e' <= fexp 53 1024 (Zdigits2 q + e').
Proof.
  intros H1 H2 q e' l. unfold SFdiv_core_binary.
  rewrite !Z.add_0_r, Z.sub_0_r.
  set (D := Zdigits2 m1 - Zdigits2 m2).
  set (e0 := Z.min (fexp 53 1024 D) 0).
  replace (0 - e0) with (- e0) by lia.
  set (m' := match - e0 with Z0 => m1 | Zpos _ => Z.shiftl m1 (- e0) | Zneg _ => 0 end).
  assert (Hm' : m' = m1 * 2 ^ (- e0)).
  { unfold m'. destruct (- e0) as [|p|p] eqn:E; [simpl; lia| |lia].
    by rewrite Z.shiftl_mul_pow2. }
  pose proof (Z.div_eucl_eq m' m2 ltac:(lia)) as Heq.
  pose proof (Z.mod_pos_bound m' m2 H2) as Hmod. unfold Z.modulo in Hmod.
  destruct (Z.div_eucl m' m2) as [q0 r0]. intros [= <- <- _].
  assert (Hs : 0 <= - e0) by lia.
  assert (Hp : 0 < 2 ^ (- e0)) by (apply Z.pow_pos_nonneg; lia).
  assert (Hq0 : 0 <= q0) by nia.
  split; [done|].
  (* the digits of the quotient *)
  assert (Hdq : D - e0 <= Zdigits2 q0 \/ D - e0 <= 0).
  { destruct (Z.le_gt_cases (D - e0) 0) as [|Hpos]; [by right|left].
    destruct (Zdigits2_bounds m1 H1) as [Ha _].
    destruct (Zdigits2_bounds m2 H2) as [_ Hb].
    pose proof (Zdigits2_ge q0 (D - e0 - 1) ltac:(lia)) as Hge.
    assert (2 ^ (D - e0 - 1) <= q0); [|lia].
    (* m' >= 2^(d1 - 1 - e0) = 2^(D - e0 - 1) * 2^d2 > 2^(D - e0 - 1) * m2 *)
    assert (Hlow : 2 ^ (D - e0 - 1) * 2 ^ Zdigits2 m2 <= m').
    { rewrite <- Z.pow_add_r by (pose proof (Zdigits2_nonneg m2); lia).
      replace (D - e0 - 1 + Zdigits2 m2) with (Zdigits2 m1 - 1 + - e0) by (unfold D; lia).
      assert (0 < Zdigits2 m1) by (destruct m1; simpl; lia).
      rewrite Z.pow_add_r by lia. rewrite Hm'. nia. }
    assert (0 < 2 ^ (D - e0 - 1)) by (apply Z.pow_pos_nonneg; lia).
    destruct (Z.le_gt_cases (2 ^ (D - e0 - 1)) q0) as [|Hlt]; [done|].
    exfalso. nia. }
  pose proof (Zdigits2_nonneg q0).
  unfold e0, fexp, emin in *. lia.
Qed.

Lemma of_decimal_valid neg m e : valid (of_decimal neg m e).
Proof.
  unfold of_decimal. destruct m as [|p|p]; [done| |done].
  destruct (Z.leb_spec 0 e) as [He|He].
  - apply binary_round_valid.
  - assert (H10 : 0 < 10 ^ (- e)) by (apply Z.pow_pos_nonneg; lia).
    pose proof (div_core_fine (Zpos p) (10 ^ (- e)) ltac:(lia) H10) as H.
    unfold prec, emax.
    destruct (SFdiv_core_binary 53 1024 (Zpos p) 0 (10 ^ (- e)) 0) as [[q e'] l].
    destruct (H q e' l eq_refl). by apply binary_round_aux_valid.
Qed.

End Validity.

(** [float(text)] returns a binary64 value. *)
Lemma float_of_string_valid s x : PyFloat.float_of_string s = Some x -> valid x.
Proof.
  unfold PyFloat.float_of_string.
  destruct (PyFloat.sign _) as [neg l].
  destruct (_ || _)%bool; [by intros [= <-]|].
  destruct (String.eqb _ "nan"); [by intros [= <-]|].
  destruct (PyFloat.number l) as [[[ip fp] r]|]; [|done].
  destruct (PyFloat.exponent r) as [e|]; [|done].
  intros [= <-]. apply Validity.of_decimal_valid.
Qed.

Lemma parse_token_valid alleles allele :
  Forall valid alleles -> Forall valid (parse_token alleles allele).
Proof.
  intros H. unfold parse_token.
  destruct (String.eqb _ ""); [done|].
  destruct (PyFloat.float_of_string _) as [x|] eqn:E; [|done].
  apply Forall_app. split; [done|].
  constructor; [|done]. by apply float_of_string_valid in E.
Qed.

(** Every list of alleles the parser returns holds binary64 values. *)
Lemma parse_alleles_valid value : valid_alleles (_parse_alleles value).
Proof.
  unfold _parse_alleles. destruct (isna value); [done|]. cbv zeta.
  destruct (_ || _)%bool; [done|].
  assert (H : forall tokens alleles,
             Forall valid alleles ->
             Forall valid (fold_left parse_token tokens alleles)).
  { induction tokens as [|t tokens IH]; intros alleles Ha; simpl; [done|].
    by apply IH, parse_token_valid. }
  specialize (H (Text.split "," (Text.strip (str value))) [] ltac:(constructor)).
  by destruct (fold_left _ _ _).
Qed.

(** The test of the code holds of some pair exactly when some pair has
    a distance that rounds to 1.0. *)
Lemma adjacent_pair_nearly qs cs :
  Forall valid qs -> Forall valid cs ->
  adjacent_pair qs cs <-> nearly_one_apart qs cs.
Proof.
  intros Hq Hc. rewrite List.Forall_forall in Hq, Hc.
  unfold adjacent_pair, nearly_one_apart. split.
  - intros (a & b & Ha & Hb & H).
    apply Exact.test_rounds_to_one in H as (d & Hd & Hr); auto.
    exists a, b, d. auto.
  - intros (a & b & d & Ha & Hb & Hd & Hr). exists a, b.
    split; [done|]. split; [done|].
    apply Exact.test_rounds_to_one; auto. by exists d.
Qed.

Lemma exactly_nearly qs cs : exactly_one_apart qs cs -> nearly_one_apart qs cs.
Proof.
  intros (a & b & d & Ha & Hb & Hd & H1). exists a, b, d.
  split; [done|]. split; [done|]. split; [done|].
  unfold rounds_to_one. rewrite H1. split; by vm_compute.
Qed.

(** The classification of two lists of binary64 values, by their exact
    values. *)
Lemma evaluate_locus_exact qs cs :
  Forall valid qs -> Forall valid cs ->
  (shares_allele qs cs ->
     _evaluate_locus (Some qs) (Some cs) = verdict_tuple Consistent) /\
  (~ shares_allele qs cs -> nearly_one_apart qs cs ->
     _evaluate_locus (Some qs) (Some cs) = verdict_tuple Mutated) /\
  (~ shares_allele qs cs -> ~ nearly_one_apart qs cs ->
     _evaluate_locus (Some qs) (Some cs) = verdict_tuple Mismatch) /\
  (exactly_one_apart qs cs -> nearly_one_apart qs cs).
Proof.
  intros Hq Hc.
  destruct (evaluate_locus_some qs cs) as (H1 & H2 & H3).
  pose proof (adjacent_pair_nearly qs cs Hq Hc) as Hadj.
  split; [done|]. split; [|split].
  - intros Hs Hn. apply H2; [done|]. by apply Hadj.
  - intros Hs Hn. apply H3; [done|]. intros H. by apply Hn, Hadj.
  - apply exactly_nearly.
Qed.

(** The same of two fields of [match_single]: what the parser returns
    is always a list of binary64 values. *)
Lemma evaluate_fields_exact (query_value candidate_value : cell) qs cs :
  _parse_alleles query_value = Some qs ->
  _parse_alleles candidate_value = Some cs ->
  (shares_allele qs cs ->
     _evaluate_locus (Some qs) (Some cs) = verdict_tuple Consistent) /\
  (~ shares_allele qs cs -> nearly_one_apart qs cs ->
     _evaluate_locus (Some qs) (Some cs) = verdict_tuple Mutated) /\
  (~ shares_allele qs cs -> ~ nearly_one_apart qs cs ->
     _evaluate_locus (Some qs) (Some cs) = verdict_tuple Mismatch) /\
  (exactly_one_apart qs cs -> nearly_one_apart qs cs).
Proof.
  intros Hq Hc. apply evaluate_locus_exact.
  - pose proof (parse_alleles_valid query_value) as H. by rewrite Hq in H.
  - pose proof (parse_alleles_valid candidate_value) as H. by rewrite Hc in H.
Qed.

(** C1. The locus evaluator classifies in this order: a side that is
    absent gives Inconclusive with penalty 0; otherwise a value common to
    both allele lists gives Consistent with penalty 0, whether or not some
    cross pair is also 1.0 apart; otherwise a cross pair whose exact
    distance rounds to 1.0 in binary64, that is, a distance from
    [1 - 2^-54] to [1 + 2^-53], gives Mutated with penalty 0.5; otherwise
    the verdict is Mismatch with penalty 1.  A pair exactly 1.0 apart is
    such a pair; the converse does not hold.  The allele values are
    binary64 values, as all those the parser returns are. *)
Theorem evaluate_locus_classification (q c : option (list float)) :
  valid_alleles q -> valid_alleles c ->
  (q = None \/ c = None -> _evaluate_locus q c = verdict_tuple Inconclusive) /\
  (forall qs cs, q = Some qs -> c = Some cs ->
     (shares_allele qs cs -> _evaluate_locus q c = verdict_tuple Consistent) /\
     (~ shares_allele qs cs -> nearly_one_apart qs cs ->
        _evaluate_locus q c = verdict_tuple Mutated) /\
     (~ shares_allele qs cs -> ~ nearly_one_apart qs cs ->
        _evaluate_locus q c = verdict_tuple Mismatch) /\
     (exactly_one_apart qs cs -> nearly_one_apart qs cs)).
Proof.
  intros Hq Hc. split.
  - intros [-> | ->]; [done | by destruct q].
  - intros qs cs -> ->. by apply evaluate_locus_exact.
Qed.

(** Query 9 against candidate 10: the difference is -1, its absolute
    value is 1. *)
Lemma evaluate_locus_classification_witness :
  valid_alleles (Some [Float.of_int 9]) /\
  valid_alleles (Some [Float.of_int 10]) /\
  ~ shares_allele [Float.of_int 9] [Float.of_int 10] /\
  nearly_one_apart [Float.of_int 9] [Float.of_int 10] /\
  _evaluate_locus (Some [Float.of_int 9]) (Some [Float.of_int 10])
  = verdict_tuple Mutated.
Proof.
  assert (Hq : valid_alleles (Some [Float.of_int 9]))
    by (repeat constructor).
  assert (Hc : valid_alleles (Some [Float.of_int 10]))
    by (repeat constructor).
  assert (Hs : ~ shares_allele [Float.of_int 9] [Float.of_int 10]).
  { intros (a & b & [<-|[]] & [<-|[]] & H). vm_compute in H. discriminate. }
  assert (Hn : nearly_one_apart [Float.of_int 9] [Float.of_int 10]).
  { exists (Float.of_int 9), (Float.of_int 10). eexists.
    split; [by left|]. split; [by left|]. split; [reflexivity|].
    split; by vm_compute. }
  split; [exact Hq|]. split; [exact Hc|]. split; [exact Hs|]. split; [exact Hn|].
  exact (proj1 (proj2 (proj2 (evaluate_locus_classification
                                (Some [Float.of_int 9]) (Some [Float.of_int 10])
                                Hq Hc)
                         [Float.of_int 9] [Float.of_int 10] eq_refl eq_refl))
           Hs Hn).
Defined.

(** The texts [2] and [0.9999999999999999] parse to 2.0 and to
    [1 - 2^-53].  They have no common value and are [1 + 2^-53] apart, not
    1.0; the difference rounds to 1.0 and the verdict is Mutated, not
    Mismatch. *)
Lemma mutated_not_exactly_one_apart :
  _parse_alleles (Str "2") = Some [Float.of_int 2] /\
  _parse_alleles (Str "0.9999999999999999")
  = Some [S754_finite false 9007199254740991 (-53)] /\
  ~ shares_allele [Float.of_int 2] [S754_finite false 9007199254740991 (-53)] /\
  ~ exactly_one_apart [Float.of_int 2] [S754_finite false 9007199254740991 (-53)] /\
  match distance (Float.of_int 2) (S754_finite false 9007199254740991 (-53)) with
  | Some d => (d == 1 + (1 # 2 ^ 53))%Q
  | None => False
  end /\
  _evaluate_locus (_parse_alleles (Str "2")) (_parse_alleles (Str "0.9999999999999999"))
  = verdict_tuple Mutated.
Proof.
  split; [by vm_compute|]. split; [by vm_compute|]. split; [|split; [|split]].
  - intros (a & b & [<-|[]] & [<-|[]] & H). vm_compute in H. discriminate.
  - intros (a & b & d & [<-|[]] & [<-|[]] & Hd & H1).
    vm_compute in Hd. injection Hd as <-. vm_compute in H1. discriminate.
  - by vm_compute.
  - by vm_compute.
Qed.

(** The spec's precedence example: 9.0 and 10.0 against 10.0 and 11.0
    share 10.0 and also have pairs 1.0 apart; the verdict is Consistent. *)
Example evaluate_locus_precedence :
  _evaluate_locus (_parse_alleles (Str "9,10")) (_parse_alleles (Str "10,11"))
  = verdict_tuple Consistent
  /\ any_adjacent [Float.of_int 9; Float.of_int 10] [Float.of_int 10; Float.of_int 11]
     = true.
Proof. split; reflexivity. Qed.

Example evaluate_locus_mutated :
  _evaluate_locus (_parse_alleles (Str "9")) (_parse_alleles (Str "10"))
  = verdict_tuple Mutated.
Proof. reflexivity. Qed.

Example evaluate_locus_mismatch :
  _evaluate_locus (_parse_alleles (Str "9")) (_parse_alleles (Str "12"))
  = verdict_tuple Mismatch.
Proof. reflexivity. Qed.

(** The difference is the rounded binary64 difference of the parsed
    values: 8.3 - 7.3 is not 1.0, while 10.3 - 9.3 is. *)
Example evaluate_locus_microvariants :
  _evaluate_locus (_parse_alleles (Str "7.3")) (_parse_alleles (Str "8.3"))
  = verdict_tuple Mismatch
  /\ _evaluate_locus (_parse_alleles (Str "9.3")) (_parse_alleles (Str "10.3"))
     = verdict_tuple Mutated.
Proof. split; reflexivity. Qed.

(** ** C4: the allele parser *)

Section ParserFacts.

Lemma parse_token_spec alleles allele :
  parse_token alleles allele =
  alleles ++ option_list (token_value allele).
Proof.
  unfold parse_token, token_value.
  destruct (String.eqb_spec (Text.strip allele) "") as [-> | _].
  - simpl. by rewrite app_nil_r.
  - destruct (PyFloat.float_of_string _); simpl; by rewrite ?app_nil_r.
Qed.

Lemma parse_loop_spec tokens : forall alleles,
  fold_left parse_token tokens alleles = alleles ++ omap token_value tokens.
Proof.
  induction tokens as [|t tokens IH]; intros alleles; simpl.
  - by rewrite app_nil_r.
  - rewrite IH, parse_token_spec.
    destruct (token_value t); simpl; by rewrite <- ?app_assoc, ?app_nil_r.
Qed.

End ParserFacts.


Section DuplicateFacts.

Implicit Types (xs ys qs cs : list float) (x y a b : float).

Lemma eqb_refl_not_nan a : Float.is_nan a = false -> Float.eqb a a = true.
Proof.
  intros H. apply FloatFacts.eqb_true_iff. by destruct a.
Qed.

Lemma eqb_true_not_nan a b :
  Float.eqb a b = true -> Float.is_nan a = false /\ Float.is_nan b = false.
Proof.
  intros H%FloatFacts.eqb_true_iff. by destruct a, b.
Qed.

(** Two values that are [==] have the same distance to any third. *)
Lemma eqb_abs_sub_l a a' b :
  Float.eqb a' a = true ->
  Float.abs (Float.sub a' b) = Float.abs (Float.sub a b).
Proof.
  intros H. apply FloatFacts.eqb_true_iff in H.
  destruct a' as [s'|s'| |s' m' e'], a as [s|s| |s m e]; try done.
  - destruct b as [sb|sb| |sb mb eb]; simpl; try done.
    by destruct s', s, sb.
  - by subst.
  - by injection H as -> -> ->.
Qed.

Lemma eqb_abs_sub_r a b b' :
  Float.eqb b' b = true ->
  Float.abs (Float.sub a b') = Float.abs (Float.sub a b).
Proof.
  intros H. apply FloatFacts.eqb_true_iff in H.
  destruct b' as [s'|s'| |s' m' e'], b as [s|s| |s m e]; try done.
  - destruct a as [sa|sa| |sa ma ea]; simpl; try done.
    by destruct s', s, sa.
  - by subst.
  - by injection H as -> -> ->.
Qed.

Lemma adjacent_pair_not_nan a b :
  Float.eqb (Float.abs (Float.sub a b)) Float.one = true ->
  Float.is_nan a = false /\ Float.is_nan b = false.
Proof.
  intros H. destruct a, b; try done.
Qed.

(** Every value of [xs] that is not a NaN has an [==] representative
    in [set(xs)]. *)
Lemma py_set_represents xs a :
  In a xs -> Float.is_nan a = false ->
  exists a', In a' (py_set xs) /\ Float.eqb a' a = true.
Proof.
  intros Ha Hn.
  assert (E : existsb (fun y => Float.eqb y a) (py_set xs) = true).
  { rewrite py_set_contains. apply existsb_exists.
    eauto using eqb_refl_not_nan. }
  apply existsb_exists in E as (a' & H1 & H2). eauto.
Qed.

Lemma shares_allele_py_set qs cs :
  shares_allele (py_set qs) (py_set cs) <-> shares_allele qs cs.
Proof.
  split.
  - intros (a & b & Ha & Hb & Hab). exists a, b. eauto using py_set_In.
  - intros (a & b & Ha & Hb & Hab).
    destruct (eqb_true_not_nan _ _ Hab) as [Hna Hnb].
    destruct (py_set_represents qs a Ha Hna) as (a' & Ha' & Haa).
    destruct (py_set_represents cs b Hb Hnb) as (b' & Hb' & Hbb).
    exists a', b'. repeat split; [done | done |].
    apply FloatFacts.eqb_trans with a; [done|].
    apply FloatFacts.eqb_trans with b; [done|].
    by rewrite FloatFacts.eqb_sym.
Qed.

Lemma adjacent_pair_py_set qs cs :
  adjacent_pair (py_set qs) (py_set cs) <-> adjacent_pair qs cs.
Proof.
  split.
  - intros (a & b & Ha & Hb & Hab). exists a, b. eauto using py_set_In.
  - intros (a & b & Ha & Hb & Hab).
    destruct (adjacent_pair_not_nan _ _ Hab) as [Hna Hnb].
    destruct (py_set_represents qs a Ha Hna) as (a' & Ha' & Haa).
    destruct (py_set_represents cs b Hb Hnb) as (b' & Hb' & Hbb).
    exists a', b'. repeat split; [done | done |].
    by rewrite (eqb_abs_sub_l a a' b'), (eqb_abs_sub_r a b b').
Qed.

(** The evaluator sees its arguments as sets: duplicates do not matter. *)
Lemma evaluate_locus_py_set qs cs :
  _evaluate_locus (Some (py_set qs)) (Some (py_set cs)) =
  _evaluate_locus (Some qs) (Some cs).
Proof.
  destruct (evaluate_locus_some qs cs) as (H1 & H2 & H3).
  destruct (evaluate_locus_some (py_set qs) (py_set cs)) as (G1 & G2 & G3).
  rewrite shares_allele_py_set in G1, G2, G3.
  rewrite adjacent_pair_py_set in G2, G3.
  destruct (shares_allele_dec qs cs) as [Hs|Hs].
  - by rewrite H1, G1.
  - destruct (adjacent_pair_dec qs cs) as [Ho|Ho].
    + by rewrite H2, G2.
    + by rewrite H3, G3.
Qed.

End DuplicateFacts.

(** The parser keeps duplicates: the claim that its result has duplicates
    collapsed fails on ["9,9"]. *)
Lemma parse_alleles_keeps_duplicates :
  _parse_alleles (Str "9,9") = Some [Float.of_int 9; Float.of_int 9] /\
  py_set [Float.of_int 9; Float.of_int 9] = [Float.of_int 9] /\
  ~ NoDup [Float.of_int 9; Float.of_int 9].
Proof.
  split; [reflexivity|]. split; [reflexivity|].
  intros H. apply NoDup_cons_1_1 in H. apply H. by left.
Qed.

(** C4 (amended). The parser returns absent for the missing-data marker
    (a value [pd.isna] accepts), for a value whose text [str(value)] is
    empty once trimmed and for the placeholder ["-"];
    otherwise it splits on commas, trims the fields, drops the fields
    [float] rejects (the empty ones among them), returns absent when none
    survives and otherwise the list of surviving values in field order,
    duplicates kept.  Duplicates collapse only in the evaluator, which
    gives the same tuple on the lists as on their sets. *)
Theorem parse_alleles_spec :
  (forall value : cell,
     _parse_alleles value =
     if isna value then None
     else
       let text := Text.strip (str value) in
       if bool_decide (text = "" \/ text = "-") then None
       else
         match surviving_values text with
         | [] => None
         | x :: xs => Some (x :: xs)
         end) /\
  token_value "" = None /\
  (forall qs cs : list float,
     _evaluate_locus (Some (py_set qs)) (Some (py_set cs)) =
     _evaluate_locus (Some qs) (Some cs)).
Proof.
  split; [|split; [reflexivity | apply evaluate_locus_py_set]].
  intros value. unfold _parse_alleles, surviving_values.
  destruct (isna value); [done|]. cbv zeta.
  rewrite parse_loop_spec. simpl.
  destruct (String.eqb_spec (Text.strip (str value)) "") as [E1|E1];
    destruct (String.eqb_spec (Text.strip (str value)) "-") as [E2|E2]; simpl;
    try (rewrite bool_decide_eq_true_2; [done | auto]).
  rewrite bool_decide_eq_false_2 by (intros [?|?]; done).
  by destruct (omap token_value _).
Qed.

Example parse_alleles_examples :
  _parse_alleles (Str "9,9.3")
    = Some [Float.of_int 9; Float.of_decimal false 93 (-1)] /\
  _parse_alleles (Str "9,,9.3")
    = Some [Float.of_int 9; Float.of_decimal false 93 (-1)] /\
  _parse_alleles (Str "-") = None /\
  _parse_alleles (Str "") = None /\
  _parse_alleles NA = None /\
  _parse_alleles (Str "x, y") = None.
Proof. repeat split; reflexivity. Qed.

(** ** The profile scorer *)

Lemma evaluate_locus_verdict (q c : option (list float)) :
  _evaluate_locus q c = verdict_tuple (verdict_of (_evaluate_locus q c)).
Proof.
  unfold _evaluate_locus.
  destruct q as [qs|], c as [cs|]; try done.
  destruct (intersection _ _); [|done].
  by destruct (any_adjacent _ _).
Qed.

Section ScorerFacts.

Variable qa : gmap string (option (list float)).
Variable candidate : gmap string cell.

Lemma score_locus_spec acc locus t :
  score_locus qa candidate acc locus = Ok t ->
  exists v,
    locus_verdict qa candidate locus = Some v /\
    consistent t = (consistent acc + bump Consistent v)%Z /\
    mutated t = (mutated acc + bump Mutated v)%Z /\
    inconclusive t = (inconclusive acc + bump Inconclusive v)%Z /\
    mismatch_penalty t = Float.add (mismatch_penalty acc) (verdict_penalty v).
Proof.
  unfold score_locus, locus_verdict, getitem.
  destruct (candidate !! locus) as [value|]; [|discriminate]. simpl.
  pose proof (evaluate_locus_verdict (mjoin (qa !! locus)) (_parse_alleles value))
    as Hv.
  destruct (verdict_of _) eqn:Ev; rewrite Hv; simpl; intros [= <-];
    eexists; (split; [reflexivity|]); by simpl.
Qed.

Lemma count_verdict_cons v locus loci :
  count_verdict v qa candidate (locus :: loci) =
  ((match locus_verdict qa candidate locus with
    | Some w => bump v w
    | None => 0
    end) + count_verdict v qa candidate loci)%Z.
Proof.
  unfold count_verdict, bump. simpl.
  destruct (locus_verdict qa candidate locus) as [w|].
  - destruct (decide (w = v)) as [->|Hne].
    + rewrite !bool_decide_eq_true_2 by done. simpl. lia.
    + rewrite !bool_decide_eq_false_2 by congruence. simpl. lia.
  - rewrite bool_decide_eq_false_2 by done. lia.
Qed.

Lemma count_verdict_nonneg v loci : (0 <= count_verdict v qa candidate loci)%Z.
Proof. unfold count_verdict. lia. Qed.

(** The accumulators after the loop over the loci. *)
Lemma tally_spec loci : forall acc t,
  for_each (score_locus qa candidate) acc loci = Ok t ->
  consistent t = (consistent acc + count_verdict Consistent qa candidate loci)%Z /\
  mutated t = (mutated acc + count_verdict Mutated qa candidate loci)%Z /\
  inconclusive t
    = (inconclusive acc + count_verdict Inconclusive qa candidate loci)%Z /\
  mismatch_penalty t =
    fold_left
      (fun p locus =>
         Float.add p
           (match locus_verdict qa candidate locus with
            | Some v => verdict_penalty v
            | None => Float.zero
            end))
      loci (mismatch_penalty acc) /\
  Forall (fun locus => is_Some (locus_verdict qa candidate locus)) loci.
Proof.
  induction loci as [|locus loci IH]; intros acc t; simpl.
  - intros [= <-]. unfold count_verdict. simpl.
    repeat split; try lia; constructor.
  - destruct (score_locus qa candidate acc locus) as [acc'|e] eqn:E;
      [|discriminate]. simpl. intros Ht.
    apply score_locus_spec in E as (v & Hv & Hc & Hm & Hi & Hp).
    apply IH in Ht as (Hc' & Hm' & Hi' & Hp' & Hall).
    rewrite !count_verdict_cons, Hv.
    repeat split; try lia; [by rewrite Hp', Hp | constructor; by eauto].
Qed.

(** Every locus gets exactly one of the four verdicts. *)
Lemma count_verdict_total loci :
  Forall (fun locus => is_Some (locus_verdict qa candidate locus)) loci ->
  (count_verdict Consistent qa candidate loci
   + count_verdict Mutated qa candidate loci
   + count_verdict Inconclusive qa candidate loci
   + count_verdict Mismatch qa candidate loci)%Z
  = Z.of_nat (length loci).
Proof.
  induction 1 as [|locus loci [v Hv] _ IH]; [done|].
  rewrite !count_verdict_cons, Hv. unfold bump. simpl length.
  destruct v; simpl; lia.
Qed.

End ScorerFacts.

(** ** The scan over the candidate rows *)

Section ScanFacts.

Variable query_id : cell.
Variable qa : gmap string (option (list float)).
Variable loci : list string.

Lemma scan_row_spec candidates candidate candidates' :
  scan_row query_id qa loci candidates candidate = Ok candidates' ->
  if is_self query_id candidate then candidates' = candidates
  else exists r, scored query_id qa loci candidate r /\
                 candidates' = candidates ++ [r].
Proof.
  unfold scan_row, is_self, getitem.
  destruct (candidate !! PersonID) as [cid|] eqn:Hid; [|discriminate]. simpl.
  destruct (cell_eqb cid query_id) eqn:Heq; [by intros [= <-]|].
  destruct (for_each _ tally0 loci) as [t|e] eqn:Ht; [|discriminate]. simpl.
  intros [= <-]. eexists. split; [|reflexivity].
  exists t. by simpl.
Qed.

(** The scan appends one result per row that is not the query's own,
    in the order of the rows. *)
Lemma scan_spec table : forall candidates candidates',
  for_each (scan_row query_id qa loci) candidates table = Ok candidates' ->
  exists new,
    candidates' = candidates ++ new /\
    Forall2 (scored query_id qa loci)
      (List.filter (fun candidate => negb (is_self query_id candidate)) table) new.
Proof.
  induction table as [|candidate table IH]; intros candidates candidates'; simpl.
  - intros [= <-]. exists []. by rewrite app_nil_r.
  - destruct (scan_row _ _ _ candidates candidate) as [c1|e] eqn:E;
      [|discriminate]. simpl. intros H.
    apply scan_row_spec in E. apply IH in H as (new & -> & Hnew).
    destruct (is_self query_id candidate); simpl.
    + subst c1. eauto.
    + destruct E as (r & Hr & ->). exists (r :: new).
      rewrite <- app_assoc. split; [done|]. by constructor.
Qed.

End ScanFacts.

(** [match_single] unfolded: the query identifier is read, the rows are
    scanned, the results sorted and cut to ten. *)
Lemma match_single_ok query_profile database_df results :
  match_single query_profile database_df = Ok results ->
  exists qid candidates,
    query_profile !! PersonID = Some qid /\
    Forall2 (scored qid (parse_query query_profile) (schema_loci database_df))
      (non_self_rows qid database_df) candidates /\
    results = take 10 (sort_desc candidates).
Proof.
  unfold match_single, getitem.
  destruct (query_profile !! PersonID) as [qid|]; [|discriminate]. simpl.
  destruct (for_each _ [] (rows database_df)) as [cands|e] eqn:E; [|discriminate].
  simpl. intros [= <-].
  apply scan_spec in E as (new & -> & Hnew). exists qid, new. eauto.
Qed.

(** ** The sort: permutation *)

Lemma insert_desc_perm x l : insert_desc x l ≡ₚ x :: l.
Proof.
  induction l as [|y l IH]; simpl; [done|].
  destruct (Float.ltb (clr x) (clr y)); [|done].
  rewrite IH. apply Permutation_swap.
Qed.

Lemma sort_desc_perm l : sort_desc l ≡ₚ l.
Proof.
  induction l as [|x l IH]; simpl; [done|].
  by rewrite insert_desc_perm, IH.
Qed.

Lemma sort_desc_length l : length (sort_desc l) = length l.
Proof. by rewrite sort_desc_perm. Qed.

(** Where a returned result comes from: a row that is not the query's
    own, scored over the schema loci. *)
Lemma result_provenance query_profile database_df results r :
  match_single query_profile database_df = Ok results ->
  In r results ->
  exists qid candidate t,
    query_profile !! PersonID = Some qid /\
    In candidate (non_self_rows qid database_df) /\
    candidate !! PersonID = Some (person_id r) /\
    cell_eqb (person_id r) qid = false /\
    for_each (score_locus (parse_query query_profile) candidate) tally0
      (schema_loci database_df) = Ok t /\
    clr r = score_of t /\
    posterior r = posterior_of (score_of t) /\
    consistent_loci r = consistent t /\
    mutated_loci r = mutated t /\
    inconclusive_loci r = inconclusive t.
Proof.
  intros (qid & cands & Hq & Hall & ->)%match_single_ok Hr.
  apply list_elem_of_In in Hr.
  apply elem_of_take in Hr as (j & Hj%list_elem_of_lookup_2 & _).
  rewrite sort_desc_perm in Hj. rename Hj into Hr.
  apply list_elem_of_lookup in Hr as [i Hi].
  destruct (Forall2_lookup_r _ _ _ _ _ Hall Hi) as (candidate & Hc & Hsc).
  destruct Hsc as (t & H1 & H2 & H3 & H4).
  exists qid, candidate, t. rewrite H4. simpl.
  repeat split; try done.
  apply list_elem_of_In, list_elem_of_lookup. eauto.
Qed.

(** The end-to-end example: A ranks first with score 2.000001, B second
    with the floor score 0.000001; the query's own record is left out. *)
Example match_single_example :
  match_single example_query example_db = Ok [example_result_A; example_result_B].
Proof. vm_compute. reflexivity. Qed.

(** ** C10: the count invariant *)

(** C10. For every comparison the three returned counts are the numbers of
    Consistent, Mutated and Inconclusive schema loci; they are not
    negative, and together with the number of Mismatch loci they add up to
    the number of schema loci. *)
Theorem count_invariant query_profile database_df results r :
  match_single query_profile database_df = Ok results ->
  In r results ->
  exists qid candidate,
    query_profile !! PersonID = Some qid /\
    In candidate (non_self_rows qid database_df) /\
    candidate !! PersonID = Some (person_id r) /\
    let qa := parse_query query_profile in
    let loci := schema_loci database_df in
    consistent_loci r = count_verdict Consistent qa candidate loci /\
    mutated_loci r = count_verdict Mutated qa candidate loci /\
    inconclusive_loci r = count_verdict Inconclusive qa candidate loci /\
    (0 <= consistent_loci r)%Z /\
    (0 <= mutated_loci r)%Z /\
    (0 <= inconclusive_loci r)%Z /\
    (consistent_loci r + mutated_loci r + inconclusive_loci r
     + count_verdict Mismatch qa candidate loci)%Z
    = Z.of_nat (length loci).
Proof.
  intros Hm Hr.
  destruct (result_provenance _ _ _ _ Hm Hr)
    as (qid & candidate & t & Hq & Hin & Hid & _ & Ht & _ & _ & Hc & Hmu & Hi).
  exists qid, candidate. repeat split; try done; simpl.
  all: apply tally_spec in Ht as (Hc' & Hm' & Hi' & _ & Hall); simpl in *.
  all: pose proof (count_verdict_total _ _ _ Hall).
  all: pose proof (count_verdict_nonneg (parse_query query_profile) candidate
                     Consistent (schema_loci database_df)).
  all: pose proof (count_verdict_nonneg (parse_query query_profile) candidate
                     Mutated (schema_loci database_df)).
  all: pose proof (count_verdict_nonneg (parse_query query_profile) candidate
                     Inconclusive (schema_loci database_df)).
  all: lia.
Qed.

Lemma count_invariant_witness :
  match_single example_query example_db = Ok [example_result_A; example_result_B] /\
  In example_result_A [example_result_A; example_result_B] /\
  exists qid candidate,
    example_query !! PersonID = Some qid /\
    In candidate (non_self_rows qid example_db) /\
    candidate !! PersonID = Some (person_id example_result_A) /\
    let qa := parse_query example_query in
    let loci := schema_loci example_db in
    consistent_loci example_result_A = count_verdict Consistent qa candidate loci /\
    mutated_loci example_result_A = count_verdict Mutated qa candidate loci /\
    inconclusive_loci example_result_A
      = count_verdict Inconclusive qa candidate loci /\
    (0 <= consistent_loci example_result_A)%Z /\
    (0 <= mutated_loci example_result_A)%Z /\
    (0 <= inconclusive_loci example_result_A)%Z /\
    (consistent_loci example_result_A + mutated_loci example_result_A
     + inconclusive_loci example_result_A
     + count_verdict Mismatch qa candidate loci)%Z
    = Z.of_nat (length loci).
Proof.
  split; [vm_compute; reflexivity|].
  split; [simpl; auto|].
  apply (count_invariant example_query example_db
           [example_result_A; example_result_B] example_result_A).
  - vm_compute; reflexivity.
  - simpl; auto.
Defined.

(** ** C2: the score formula *)

Lemma total_penalty_unfold qa candidate loci :
  total_penalty qa candidate loci =
  fold_left
    (fun p locus =>
       Float.add p
         (match locus_verdict qa candidate locus with
          | Some v => verdict_penalty v
          | None => Float.zero
          end))
    loci (mismatch_penalty tally0).
Proof. reflexivity. Qed.

(** C2. For every comparison, with the counts and the penalty accumulated
    over all schema loci, the score is
    [max(2*consistent_loci + mutated_loci - total_penalty, 0) + 1e-6] and
    the posterior is [score / (score + 1)]. *)
Theorem score_formula query_profile database_df results r :
  match_single query_profile database_df = Ok results ->
  In r results ->
  exists qid candidate,
    query_profile !! PersonID = Some qid /\
    In candidate (non_self_rows qid database_df) /\
    candidate !! PersonID = Some (person_id r) /\
    let qa := parse_query query_profile in
    let loci := schema_loci database_df in
    consistent_loci r = count_verdict Consistent qa candidate loci /\
    mutated_loci r = count_verdict Mutated qa candidate loci /\
    clr r =
      Float.add
        (Float.max
           (Float.sub (Float.of_int (2 * consistent_loci r + mutated_loci r))
              (total_penalty qa candidate loci))
           Float.zero)
        Float.epsilon /\
    posterior r = Float.div (clr r) (Float.add (clr r) Float.one).
Proof.
  intros Hm Hr.
  destruct (result_provenance _ _ _ _ Hm Hr)
    as (qid & candidate & t & Hq & Hin & Hid & _ & Ht & Hclr & Hpost & Hc & Hmu & _).
  exists qid, candidate. repeat split; try done; simpl.
  all: apply tally_spec in Ht as (Hc' & Hm' & _ & Hp & _).
  - rewrite Hc, Hc'. simpl. lia.
  - rewrite Hmu, Hm'. simpl. lia.
  - rewrite Hclr, Hc, Hmu, total_penalty_unfold, <- Hp.
    unfold score_of. by rewrite (Z.mul_comm 2).
  - by rewrite Hpost, Hclr.
Qed.

Lemma score_formula_witness :
  match_single example_query example_db = Ok [example_result_A; example_result_B] /\
  In example_result_B [example_result_A; example_result_B] /\
  exists qid candidate,
    example_query !! PersonID = Some qid /\
    In candidate (non_self_rows qid example_db) /\
    candidate !! PersonID = Some (person_id example_result_B) /\
    let qa := parse_query example_query in
    let loci := schema_loci example_db in
    consistent_loci example_result_B = count_verdict Consistent qa candidate loci /\
    mutated_loci example_result_B = count_verdict Mutated qa candidate loci /\
    clr example_result_B =
      Float.add
        (Float.max
           (Float.sub
              (Float.of_int
                 (2 * consistent_loci example_result_B + mutated_loci example_result_B))
              (total_penalty qa candidate loci))
           Float.zero)
        Float.epsilon /\
    posterior example_result_B
      = Float.div (clr example_result_B) (Float.add (clr example_result_B) Float.one).
Proof.
  split; [vm_compute; reflexivity|].
  split; [simpl; auto|].
  apply (score_formula example_query example_db
           [example_result_A; example_result_B] example_result_B).
  - vm_compute; reflexivity.
  - simpl; auto.
Defined.

(** The constant of the score is the literal [1e-6]. *)
Example epsilon_literal : PyFloat.float_of_string "1e-6" = Some Float.epsilon.
Proof. reflexivity. Qed.

(** ** C7: self-exclusion *)

(** An integer of at most 53 binary digits and its float are equal
    numbers. *)
Lemma eqb_int_of_int n :
  (Z.abs n < 2 ^ 53)%Z -> Float.eqb_int (Float.of_int n) n = true.
Proof.
  intros Hn. unfold Float.of_int.
  destruct (Z.eq_dec n 0%Z) as [->|Hne]; [done|].
  destruct (Rounding.dyadic_finite n 0%Z) as (m' & -> & Hm' & Hd);
    [done|done|lia|].
  unfold Float.eqb_int.
  assert (Hval : cond_Zopp (n <? 0)%Z (Zpos m') = (n * 2 ^ (53 - Zdigits2 n))%Z).
  { by rewrite Hm', Rounding.cond_Zopp_mul, Rounding.cond_Zopp_ltb. }
  rewrite Hval.
  destruct (Z.leb_spec 0%Z (0 + Zdigits2 n - 53)%Z) as [Hle|Hlt].
  - replace (0 + Zdigits2 n - 53)%Z with 0%Z by lia.
    replace (53 - Zdigits2 n)%Z with 0%Z by lia. apply Z.eqb_eq. lia.
  - apply Z.eqb_eq. do 2 f_equal. lia.
Qed.

Lemma number_eqb_refl x :
  match x with Flt y => Float.is_nan y = false | Int _ => True end ->
  number_eqb x x = true.
Proof.
  destruct x as [n|y]; simpl; [intros _; apply Z.eqb_refl|].
  apply eqb_refl_not_nan.
Qed.

(** C7. No returned result carries an identifier equal to the query's:
    the comparison [==] of the two, on the typed values, is false.  So
    when the query's identifier is a string no result has that string as
    identifier; when it is a number no result has that number, be it as
    an integer or as a float. *)
Theorem self_exclusion query_profile database_df results qid r :
  match_single query_profile database_df = Ok results ->
  query_profile !! PersonID = Some qid ->
  In r results ->
  cell_eqb (person_id r) qid = false /\
  (forall s, qid = Str s -> person_id r <> Str s) /\
  (forall n t t', qid = Num (Int n) t -> person_id r <> Num (Int n) t') /\
  (forall x t t', Float.is_nan x = false ->
     qid = Num (Flt x) t -> person_id r <> Num (Flt x) t') /\
  (forall n t t', (Z.abs n < 2 ^ 53)%Z ->
     qid = Num (Int n) t -> person_id r <> Num (Flt (Float.of_int n)) t') /\
  (forall n t t', (Z.abs n < 2 ^ 53)%Z ->
     qid = Num (Flt (Float.of_int n)) t -> person_id r <> Num (Int n) t').
Proof.
  intros Hm Hq Hr.
  destruct (result_provenance _ _ _ _ Hm Hr)
    as (qid' & candidate & t & Hq' & _ & _ & Hne & _).
  assert (qid' = qid) as -> by congruence.
  split; [done|].
  repeat split.
  - intros s -> E. rewrite E in Hne. simpl in Hne.
    by rewrite String.eqb_refl in Hne.
  - intros n t1 t2 -> E. rewrite E in Hne. simpl in Hne.
    by rewrite Z.eqb_refl in Hne.
  - intros x t1 t2 Hx -> E. rewrite E in Hne. simpl in Hne.
    by rewrite eqb_refl_not_nan in Hne.
  - intros n t1 t2 Hn -> E. rewrite E in Hne. simpl in Hne.
    by rewrite eqb_int_of_int in Hne.
  - intros n t1 t2 Hn -> E. rewrite E in Hne. simpl in Hne.
    by rewrite eqb_int_of_int in Hne.
Qed.

(** For the integer query 1: the records with identifier 1.0 and 1 are
    the query's own and left out, the record with the string ["1"] is
    another one and is returned. *)
Lemma self_exclusion_witness :
  match_single example_typed_query example_typed_db
    = Ok [example_typed_result_1; example_typed_result_2] /\
  example_typed_query !! PersonID = Some (Num (Int 1) "1") /\
  In example_typed_result_1 [example_typed_result_1; example_typed_result_2] /\
  cell_eqb (person_id example_typed_result_1) (Num (Int 1) "1") = false /\
  (forall t', person_id example_typed_result_1 <> Num (Int 1) t') /\
  (forall t', person_id example_typed_result_1 <> Num (Flt (Float.of_int 1)) t').
Proof.
  assert (H1 : match_single example_typed_query example_typed_db
               = Ok [example_typed_result_1; example_typed_result_2])
    by (vm_compute; reflexivity).
  assert (H2 : example_typed_query !! PersonID = Some (Num (Int 1) "1"))
    by (vm_compute; reflexivity).
  assert (H3 : In example_typed_result_1
                 [example_typed_result_1; example_typed_result_2])
    by (simpl; auto).
  destruct (self_exclusion example_typed_query example_typed_db _ _ _ H1 H2 H3)
    as (Hne & _ & Hint & _ & Hflt & _).
  split; [exact H1|]. split; [exact H2|]. split; [exact H3|].
  split; [exact Hne|]. split.
  - intros t'. exact (Hint 1%Z "1"%string t' eq_refl).
  - intros t'. apply (Hflt 1%Z "1"%string t'); [vm_compute; reflexivity | reflexivity].
Defined.

(** The same holds with strings for identifiers. *)
Example self_exclusion_strings :
  match_single example_query example_db = Ok [example_result_A; example_result_B] /\
  cell_eqb (person_id example_result_A) (Str "Q1") = false /\
  cell_eqb (person_id example_result_B) (Str "Q1") = false.
Proof. repeat split; vm_compute; reflexivity. Qed.

(** The table of the example does hold the query's own record. *)
Example example_db_has_self : In example_query (rows example_db).
Proof. simpl. auto. Qed.

(** ** C8: the scorer follows the table's schema *)

Lemma schema_loci_not_id database_df locus :
  In locus (schema_loci database_df) -> locus <> PersonID.
Proof.
  unfold schema_loci. intros [_ H]%filter_In ->.
  by rewrite String.eqb_refl in H.
Qed.

Lemma parse_query_lookup query_profile locus :
  locus <> PersonID ->
  parse_query query_profile !! locus = _parse_alleles <$> query_profile !! locus.
Proof.
  intros Hne. unfold parse_query.
  by rewrite lookup_fmap, lookup_delete_ne.
Qed.

Lemma for_each_ext {A S : Type} (body body' : S -> A -> result S) (l : list A) :
  (forall s x, In x l -> body s x = body' s x) ->
  forall s, for_each body s l = for_each body' s l.
Proof.
  induction l as [|x l IH]; intros Hext s; simpl; [done|].
  rewrite (Hext s x) by (by left).
  destruct (body' s x); simpl; [|done].
  apply IH. intros s' y Hy. apply Hext. by right.
Qed.

Lemma score_locus_ext qa qa' candidate acc locus :
  qa !! locus = qa' !! locus ->
  score_locus qa candidate acc locus = score_locus qa' candidate acc locus.
Proof. unfold score_locus. by intros ->. Qed.

Lemma scan_row_ext query_id qa qa' loci candidates candidate :
  (forall locus, In locus loci -> qa !! locus = qa' !! locus) ->
  scan_row query_id qa loci candidates candidate
  = scan_row query_id qa' loci candidates candidate.
Proof.
  intros Hqa. unfold scan_row.
  destruct (getitem candidate PersonID) as [cid|]; [|done]. simpl.
  destruct (cell_eqb cid query_id); [done|].
  rewrite (for_each_ext (score_locus qa candidate) (score_locus qa' candidate));
    [done|].
  intros acc locus Hl. by apply score_locus_ext, Hqa.
Qed.

(** Only the identifier and the schema loci of a query matter. *)
Lemma match_single_ext query_profile query_profile' database_df :
  query_profile' !! PersonID = query_profile !! PersonID ->
  (forall locus, In locus (schema_loci database_df) ->
     query_profile' !! locus = query_profile !! locus) ->
  match_single query_profile' database_df = match_single query_profile database_df.
Proof.
  intros Hid Hloci. unfold match_single, getitem. rewrite Hid.
  destruct (query_profile !! PersonID) as [qid|]; [|done]. simpl.
  fold (parse_query query_profile) (parse_query query_profile').
  rewrite (for_each_ext
             (scan_row qid (parse_query query_profile') (schema_loci database_df))
             (scan_row qid (parse_query query_profile) (schema_loci database_df)));
    [done|].
  intros cands candidate _. apply scan_row_ext. intros locus Hl.
  rewrite !parse_query_lookup by eauto using schema_loci_not_id.
  by rewrite Hloci.
Qed.

Lemma absent_locus_inconclusive query_profile candidate locus :
  locus <> PersonID ->
  query_profile !! locus = None ->
  is_Some (locus_verdict (parse_query query_profile) candidate locus) ->
  locus_verdict (parse_query query_profile) candidate locus = Some Inconclusive.
Proof.
  intros Hne Hq. unfold locus_verdict.
  rewrite parse_query_lookup, Hq by done. simpl.
  destruct (candidate !! locus) as [value|]; [done|]. by intros [? ?].
Qed.

Lemma count_verdict_filter_le qa candidate v (P : string -> bool) loci :
  (forall locus, In locus loci -> P locus = true ->
     locus_verdict qa candidate locus = Some v) ->
  (Z.of_nat (length (List.filter P loci)) <= count_verdict v qa candidate loci)%Z.
Proof.
  induction loci as [|locus loci IH]; intros H; [unfold count_verdict; simpl; lia|].
  rewrite count_verdict_cons. unfold bump. simpl.
  assert (IH' : (Z.of_nat (length (List.filter P loci))
                 <= count_verdict v qa candidate loci)%Z).
  { apply IH. intros l Hl. apply H. by right. }
  destruct (P locus) eqn:HP.
  - rewrite (H locus) by (done || by left).
    rewrite bool_decide_eq_true_2 by done. simpl length. lia.
  - destruct (locus_verdict qa candidate locus) as [w|]; [|lia].
    destruct (bool_decide (w = v)); lia.
Qed.

(** C8. The scorer evaluates every schema locus, that is every column of
    the table but the identifier: the four verdict counts of a result add
    up to the number of schema loci.  A schema locus for which the query
    has no entry is looked up as absent and counted Inconclusive.  What a
    query holds for loci outside the schema has no effect: a query that
    agrees on the identifier and on the schema loci gets the same
    results. *)
Theorem scorer_follows_schema query_profile query_profile' database_df results r :
  match_single query_profile database_df = Ok results ->
  In r results ->
  query_profile' !! PersonID = query_profile !! PersonID ->
  (forall locus, In locus (schema_loci database_df) ->
     query_profile' !! locus = query_profile !! locus) ->
  (exists qid candidate,
     query_profile !! PersonID = Some qid /\
     In candidate (non_self_rows qid database_df) /\
     candidate !! PersonID = Some (person_id r) /\
     let qa := parse_query query_profile in
     let loci := schema_loci database_df in
     (forall col, In col loci <-> In col (columns database_df) /\ col <> PersonID) /\
     (consistent_loci r + mutated_loci r + inconclusive_loci r
      + count_verdict Mismatch qa candidate loci)%Z
     = Z.of_nat (length loci) /\
     (forall locus, In locus loci -> query_profile !! locus = None ->
        locus_verdict qa candidate locus = Some Inconclusive) /\
     (Z.of_nat (length (missing_from_query query_profile loci))
      <= inconclusive_loci r)%Z) /\
  match_single query_profile' database_df = Ok results.
Proof.
  intros Hm Hr Hid Hloci. split; [|by rewrite (match_single_ext query_profile)].
  destruct (result_provenance _ _ _ _ Hm Hr)
    as (qid & candidate & t & Hq & Hin & Hcid & _ & Ht & _ & _ & Hc & Hmu & Hi).
  exists qid, candidate. do 3 (split; [done|]). simpl.
  apply tally_spec in Ht as (Hc' & Hm' & Hi' & _ & Hall).
  pose proof (count_verdict_total _ _ _ Hall) as Htot.
  assert (Habs : forall locus, In locus (schema_loci database_df) ->
            query_profile !! locus = None ->
            locus_verdict (parse_query query_profile) candidate locus
            = Some Inconclusive).
  { intros locus Hl Hnone. apply absent_locus_inconclusive; [|done|].
    - by eapply schema_loci_not_id.
    - rewrite Forall_forall in Hall. by apply Hall, list_elem_of_In. }
  split; [|split; [|split; [done|]]].
  - intros col. unfold schema_loci. rewrite filter_In, negb_true_iff.
    by rewrite String.eqb_neq.
  - rewrite Hc, Hmu, Hi, Hc', Hm', Hi'. simpl. lia.
  - rewrite Hi, Hi'. simpl. unfold missing_from_query.
    apply count_verdict_filter_le. intros locus Hl HP.
    apply Habs; [done|]. by apply bool_decide_eq_true_1 in HP.
Qed.

Lemma scorer_follows_schema_witness :
  match_single example_sparse_query example_db
    = Ok [example_result_A; example_result_B] /\
  In example_result_A [example_result_A; example_result_B] /\
  example_wide_query !! PersonID = example_sparse_query !! PersonID /\
  (forall locus, In locus (schema_loci example_db) ->
     example_wide_query !! locus = example_sparse_query !! locus) /\
  (Z.of_nat (length (missing_from_query example_sparse_query (schema_loci example_db)))
   <= inconclusive_loci example_result_A)%Z /\
  match_single example_wide_query example_db
    = Ok [example_result_A; example_result_B].
Proof.
  assert (H1 : match_single example_sparse_query example_db
               = Ok [example_result_A; example_result_B])
    by (vm_compute; reflexivity).
  assert (H2 : In example_result_A [example_result_A; example_result_B])
    by (simpl; auto).
  assert (H3 : example_wide_query !! PersonID = example_sparse_query !! PersonID)
    by (vm_compute; reflexivity).
  assert (H4 : forall locus, In locus (schema_loci example_db) ->
     example_wide_query !! locus = example_sparse_query !! locus).
  { intros locus [<-|[<-|[]]]; vm_compute; reflexivity. }
  destruct (scorer_follows_schema example_sparse_query example_wide_query
              example_db _ _ H1 H2 H3 H4)
    as [(qid & candidate & _ & _ & _ & _ & _ & _ & Hle) Hsame].
  repeat split; done.
Defined.

(** ** C5: errors *)

Lemma well_formed_lookup df row col :
  well_formed df -> In row (rows df) ->
  is_Some (row !! col) <-> In col (columns df).
Proof.
  unfold well_formed. rewrite Forall_forall. intros Hwf Hrow.
  apply list_elem_of_In, Hwf in Hrow.
  rewrite <- elem_of_dom, Hrow, elem_of_list_to_set. apply list_elem_of_In.
Qed.

Lemma for_each_ok {A S : Type} (body : S -> A -> result S) (l : list A) :
  (forall s x, In x l -> exists s', body s x = Ok s') ->
  forall s, exists s', for_each body s l = Ok s'.
Proof.
  induction l as [|x l IH]; intros Hbody s; simpl; [eauto|].
  destruct (Hbody s x) as [s' ->]; [by left|]. simpl.
  apply IH. intros s'' y Hy. apply Hbody. by right.
Qed.

Lemma for_each_raise {A S : Type} (body : S -> A -> result S) (l : list A) x :
  In x l ->
  (forall s, exists e, body s x = Raise e) ->
  forall s, exists e, for_each body s l = Raise e.
Proof.
  induction l as [|y l IH]; intros Hin Hbody s; simpl; [done|].
  destruct (body s y) as [s'|e] eqn:E; simpl; [|eauto].
  destruct Hin as [->|Hin]; [|by apply IH].
  destruct (Hbody s) as [e He]. congruence.
Qed.

Lemma score_locus_ok qa candidate acc locus :
  is_Some (candidate !! locus) ->
  exists t, score_locus qa candidate acc locus = Ok t.
Proof.
  intros [value Hv]. unfold score_locus, getitem. rewrite Hv. simpl.
  destruct (_evaluate_locus _ _) as [[[c m] inc] p]. eauto.
Qed.

Lemma scan_row_ok query_id qa loci candidates candidate :
  is_Some (candidate !! PersonID) ->
  (forall locus, In locus loci -> is_Some (candidate !! locus)) ->
  exists candidates', scan_row query_id qa loci candidates candidate = Ok candidates'.
Proof.
  intros [cid Hcid] Hloci. unfold scan_row, getitem. rewrite Hcid. simpl.
  destruct (cell_eqb cid query_id); [eauto|].
  destruct (for_each_ok (score_locus qa candidate) loci) with (s := tally0)
    as [t ->]; [|simpl; eauto].
  intros acc locus Hl. by apply score_locus_ok, Hloci.
Qed.

(** No content of the cells makes [match_single] raise. *)
Lemma match_single_total query_profile database_df :
  well_formed database_df ->
  is_Some (query_profile !! PersonID) ->
  In PersonID (columns database_df) ->
  exists results, match_single query_profile database_df = Ok results.
Proof.
  intros Hwf [qid Hq] Hcol. unfold match_single, getitem. rewrite Hq. simpl.
  destruct (for_each_ok
              (scan_row qid (_parse_alleles <$> delete PersonID query_profile)
                 (schema_loci database_df)) (rows database_df))
    with (s := @nil MatchResult) as [cands ->]; [|simpl; eauto].
  intros cands candidate Hrow. apply scan_row_ok.
  - by apply (well_formed_lookup database_df).
  - intros locus [Hl _]%filter_In. by apply (well_formed_lookup database_df).
Qed.

Lemma match_single_no_query_id query_profile database_df :
  query_profile !! PersonID = None ->
  match_single query_profile database_df = Raise (KeyError PersonID).
Proof. intros H. unfold match_single, getitem. by rewrite H. Qed.

Lemma match_single_no_id_column query_profile database_df :
  well_formed database_df ->
  is_Some (query_profile !! PersonID) ->
  ~ In PersonID (columns database_df) ->
  rows database_df <> [] ->
  match_single query_profile database_df = Raise (KeyError PersonID).
Proof.
  intros Hwf [qid Hq] Hcol Hrows. unfold match_single, getitem. rewrite Hq. simpl.
  destruct (rows database_df) as [|row table] eqn:E; [done|]. simpl.
  assert (Hrow : row !! PersonID = None).
  { apply eq_None_not_Some. intros H. apply Hcol.
    apply (well_formed_lookup database_df row); [done| |done].
    rewrite E. by left. }
  unfold scan_row at 1. unfold getitem. by rewrite Hrow.
Qed.

(** The claim of a [SchemaError] that ends one record's or one query's
    processing fails: without the identifier the call raises [KeyError]
    and yields nothing, for the whole table and the whole batch; a record
    whose identifier cell is empty raises nothing and is scored. *)
Lemma missing_identifier_is_key_error :
  match_single example_anonymous_query example_db = Raise (KeyError "PersonID") /\
  match_single example_query example_anonymous_db = Raise (KeyError "PersonID") /\
  find_matches example_db example_anonymous_db = Raise (KeyError "PersonID") /\
  exception_name (KeyError "PersonID") <> "SchemaError" /\
  match_single example_query example_blank_id_db
  = Ok [ {| person_id := NA;
            clr := clr example_result_B;
            posterior := posterior example_result_B;
            consistent_loci := 0;
            mutated_loci := 0;
            inconclusive_loci := 1 |} ].
Proof.
  repeat split; try (vm_compute; reflexivity). discriminate.
Qed.

(** C5 (amended). On a rectangular table: a query without the identifier
    key makes [match_single] raise [KeyError]; so does a table with rows
    but no identifier column; the exception ends the whole call, and
    [find_matches] lets it end the batch.  With both identifiers in place
    [match_single] returns a result list whatever the cells hold: no
    malformed field raises. *)
Theorem structural_errors query_profile database_df :
  well_formed database_df ->
  (query_profile !! PersonID = None ->
     match_single query_profile database_df = Raise (KeyError PersonID)) /\
  (is_Some (query_profile !! PersonID) ->
   ~ In PersonID (columns database_df) -> rows database_df <> [] ->
     match_single query_profile database_df = Raise (KeyError PersonID)) /\
  (is_Some (query_profile !! PersonID) -> In PersonID (columns database_df) ->
     exists results, match_single query_profile database_df = Ok results) /\
  (forall queries_df,
     In query_profile (rows queries_df) -> query_profile !! PersonID = None ->
     exists e, find_matches database_df queries_df = Raise e /\
               exception_name e = "KeyError").
Proof.
  intros Hwf. repeat split.
  - apply match_single_no_query_id.
  - by apply match_single_no_id_column.
  - by apply match_single_total.
  - intros queries_df Hin Hnone.
    destruct (for_each_raise
      (fun results query_row =>
         qid <- getitem query_row PersonID ;;
         top <- match_single query_row database_df ;;
         Ok (results ++ [ {| query_id := qid; top_candidates := take 10 top |} ]))
      (rows queries_df) query_profile Hin) with (s := @nil QueryResult)
      as [e He].
    + intros s. unfold getitem. rewrite Hnone. simpl. eauto.
    + exists e. split; [exact He | by destruct e].
Qed.

Lemma structural_errors_witness :
  well_formed example_garbled_db /\
  is_Some (example_query !! PersonID) /\
  In PersonID (columns example_garbled_db) /\
  exists results, match_single example_query example_garbled_db = Ok results.
Proof.
  assert (Hwf : well_formed example_garbled_db).
  { unfold well_formed. apply (bool_decide_unpack _). vm_compute. exact I. }
  assert (Hq : is_Some (example_query !! PersonID)).
  { apply (bool_decide_unpack _). vm_compute. exact I. }
  assert (Hc : In PersonID (columns example_garbled_db)) by (simpl; auto).
  repeat split; [done | done | done |].
  by apply (structural_errors example_query example_garbled_db Hwf).
Defined.

Example match_single_garbled :
  match_single example_query example_garbled_db
  = Ok [ {| person_id := Str "A";
            clr := clr example_result_B;
            posterior := posterior example_result_B;
            consistent_loci := 0;
            mutated_loci := 0;
            inconclusive_loci := 2 |};
         {| person_id := Str "B";
            clr := clr example_result_B;
            posterior := posterior example_result_B;
            consistent_loci := 0;
            mutated_loci := 0;
            inconclusive_loci := 2 |} ].
Proof. vm_compute. reflexivity. Qed.

(** ** The score in exact terms *)

Module ExactScore.

Import Rounding.
Local Open Scope Z_scope.

Section Penalty.

Variable qa : gmap string (option (list float)).
Variable candidate : gmap string cell.

Lemma verdict_penalty_halves v :
  verdict_penalty v = of_halves (penalty_halves v).
Proof. by destruct v. Qed.

Lemma of_halves_add a b :
  Z.abs a < 2 ^ 53 -> Z.abs b < 2 ^ 53 -> Z.abs (a + b) < 2 ^ 53 ->
  Float.add (of_halves a) (of_halves b) = of_halves (a + b).
Proof. intros. apply dyadic_add; lia. Qed.

Lemma of_halves_sub a b :
  Z.abs a < 2 ^ 53 -> Z.abs b < 2 ^ 53 -> Z.abs (a - b) < 2 ^ 53 ->
  Float.sub (of_halves a) (of_halves b) = of_halves (a - b).
Proof. intros. apply dyadic_sub; lia. Qed.

Lemma of_int_halves n : Z.abs n < 2 ^ 52 -> Float.of_int n = of_halves (2 * n).
Proof.
  intros H. unfold Float.of_int, of_halves.
  rewrite <- (dyadic_scale n 0 1) by lia.
  f_equal. lia.
Qed.

Lemma max_of_halves k :
  Z.abs k < 2 ^ 53 ->
  Float.max (of_halves k) Float.zero = of_halves (Z.max k 0).
Proof.
  intros H. unfold Float.max, of_halves.
  destruct (Z.eq_dec k 0) as [->|Hne]; [done|].
  destruct (dyadic_finite k (-1)) as (m' & E & _); [done | done | lia |].
  rewrite E. unfold Float.ltb, SFltb, SFcompare, Float.zero.
  destruct (Z.ltb_spec k 0).
  - by rewrite Z.max_r by lia.
  - by rewrite Z.max_l, E by lia.
Qed.


(** The penalty after the loop is exactly half the number of Mutated loci
    plus the number of Mismatch loci. *)
Lemma penalty_sum loci : forall j0,
  0 <= j0 ->
  j0 + 2 * Z.of_nat (length loci) < 2 ^ 53 ->
  fold_left
    (fun p locus =>
       Float.add p
         (match locus_verdict qa candidate locus with
          | Some v => verdict_penalty v
          | None => Float.zero
          end))
    loci (of_halves j0)
  = of_halves (j0 + count_verdict Mutated qa candidate loci
               + 2 * count_verdict Mismatch qa candidate loci).
Proof.
  induction loci as [|locus loci IH]; intros j0 H0 Hb.
  - unfold count_verdict. simpl. f_equal. lia.
  - cbn [fold_left]. rewrite !count_verdict_cons. unfold bump.
    assert (Hstep : exists h, 0 <= h <= 2 /\
      h = (match locus_verdict qa candidate locus with
           | Some w => if bool_decide (w = Mutated) then 1 else 0
           | None => 0
           end)
          + 2 * (match locus_verdict qa candidate locus with
                 | Some w => if bool_decide (w = Mismatch) then 1 else 0
                 | None => 0
                 end) /\
      (match locus_verdict qa candidate locus with
       | Some v => verdict_penalty v
       | None => Float.zero
       end) = of_halves h).
    { destruct (locus_verdict qa candidate locus) as [[]|];
        [exists 0 | exists 1 | exists 0 | exists 2 | exists 0];
        (split; [lia|]); split; reflexivity. }
    destruct Hstep as (h & Hh & Hsum & ->).
    simpl length in Hb. rewrite Nat2Z.inj_succ in Hb.
    rewrite of_halves_add by lia.
    rewrite IH by lia. f_equal. lia.
Qed.

End Penalty.

End ExactScore.

(** ** The rounded score and the posterior *)

Module ScoreBounds.

Import Rounding.
Local Open Scope Z_scope.

Lemma digits_range M a b :
  0 <= a -> 2 ^ a <= M < 2 ^ b -> a < Zdigits2 M <= b.
Proof.
  intros Ha [H1 H2].
  assert (0 < M) by (pose proof (Z.pow_pos_nonneg 2 a); lia).
  pose proof (Zdigits2_bounds M H) as [H3 H4].
  split.
  - destruct (Z.lt_ge_cases a (Zdigits2 M)) as [|Hge]; [done|].
    assert (2 ^ Zdigits2 M <= 2 ^ a) by (apply Z.pow_le_mono_r; lia). lia.
  - destruct (Z.le_gt_cases (Zdigits2 M) b) as [|Hgt]; [done|].
    assert (2 ^ b <= 2 ^ (Zdigits2 M - 1)).
    { apply Z.pow_le_mono_r; [lia|]. lia. }
    lia.
Qed.

Lemma normal_digits (m : positive) :
  2 ^ 52 <= Zpos m < 2 ^ 53 -> Zpos (digits2_pos m) = 53.
Proof. intros H. by apply digits2_pos_unique. Qed.

(** Adding two positive 53-digit floats: the sum of the aligned mantissas
    is rounded. *)
Lemma add_normal m1 e1 m2 e2 :
  2 ^ 52 <= Zpos m1 < 2 ^ 53 -> 2 ^ 52 <= Zpos m2 < 2 ^ 53 ->
  -1000 <= e1 <= 900 -> -1000 <= e2 <= 900 ->
  exists M n,
    M = Zpos m1 * 2 ^ (e1 - Z.min e1 e2) + Zpos m2 * 2 ^ (e2 - Z.min e1 e2) /\
    n = Zdigits2 M - 53 /\ 0 <= n /\
    exists m' e',
      SFadd 53 1024 (S754_finite false m1 e1) (S754_finite false m2 e2)
      = S754_finite false m' e' /\
      2 ^ 52 <= Zpos m' < 2 ^ 53 /\
      ((e' = Z.min e1 e2 + n /\ (Zpos m' = M / 2 ^ n \/ Zpos m' = M / 2 ^ n + 1)) \/
       (e' = Z.min e1 e2 + n + 1 /\ Zpos m' = 2 ^ 52 /\ M / 2 ^ n = 2 ^ 53 - 1)) /\
      (M mod 2 ^ n = 0 -> e' = Z.min e1 e2 + n /\ Zpos m' = M / 2 ^ n).
Proof.
  intros Hm1 Hm2 He1 He2.
  set (ez := Z.min e1 e2).
  set (M := Zpos m1 * 2 ^ (e1 - ez) + Zpos m2 * 2 ^ (e2 - ez)).
  exists M, (Zdigits2 M - 53). split; [done|]. split; [done|].
  assert (Hp1 : 0 < 2 ^ (e1 - ez)) by (apply Z.pow_pos_nonneg; lia).
  assert (Hp2 : 0 < 2 ^ (e2 - ez)) by (apply Z.pow_pos_nonneg; lia).
  set (g := Z.max e1 e2 - ez).
  assert (Hlow : 2 ^ 52 <= M) by (unfold M; nia).
  assert (Hhigh : M < 2 ^ (54 + g)).
  { assert (2 ^ (e1 - ez) <= 2 ^ g) by (apply Z.pow_le_mono_r; lia).
    assert (2 ^ (e2 - ez) <= 2 ^ g) by (apply Z.pow_le_mono_r; lia).
    rewrite Z.pow_add_r by lia. unfold M. nia. }
  destruct (digits_range M 52 (54 + g)) as [Hd1 Hd2]; [lia | done |].
  split; [lia|].
  unfold SFadd. fold ez.
  destruct (shl_align_spec m1 e1 ez) as [-> _]; [lia|].
  destruct (shl_align_spec m2 e2 ez) as [-> _]; [lia|].
  unfold cond_Zopp. fold M.
  destruct M as [|pM|pM] eqn:EM; [lia| |lia].
  unfold binary_normalize. rewrite binary_round_large by (simpl Zdigits2 in *; lia).
  destruct (binary_round_aux_spec false (Zpos pM) ez loc_Exact)
    as (m' & e' & Heq & Hn & Hcases & Hex); try lia.
  exists m', e'. split; [done|]. split; [done|]. split; [done|].
  intros Hmod. by apply Hex.
Qed.

Lemma add_one_gap ms es :
  2 ^ 52 <= Zpos ms < 2 ^ 53 -> -1000 <= es <= -2 ->
  exists mt et,
    Float.add (S754_finite false ms es) Float.one = S754_finite false mt et /\
    2 ^ 52 <= Zpos mt < 2 ^ 53 /\ -52 <= et <= -1 /\
    gap (Zpos ms) es (Zpos mt) et.
Proof.
  intros Hms Hes. unfold Float.add, Float.prec, Float.emax.
  change Float.one with (S754_finite false (2 ^ 52)%positive (-52)).
  destruct (add_normal ms es (2 ^ 52)%positive (-52))
    as (M & n & HM & Hn & Hn0 & mt & et & -> & Hmt & Hcases & _); try lia.
  exists mt, et. split; [done|]. split; [done|].
  change (Zpos (2 ^ 52)%positive) with (2 ^ 52) in HM.
  destruct (Z.le_gt_cases es (-54)) as [Hsmall|Hbig].
  - (* s is below half an ulp of 1.0 or so: t has the exponent of 1.0 *)
    rewrite Z.min_l in * by lia.
    replace (es - es) with 0 in HM by lia. rewrite Z.mul_1_r in HM.
    set (g := -52 - es) in *.
    assert (Hgdef : g = -52 - es) by done. clearbody g.
    assert (Hg : 0 < 2 ^ g) by (apply Z.pow_pos_nonneg; lia).
    assert (H4 : 2 ^ 2 <= 2 ^ g) by (apply Z.pow_le_mono_r; lia).
    destruct (digits_range M (52 + g) (53 + g)) as [Hd1 Hd2]; [lia| |].
    { rewrite !Z.pow_add_r by lia. lia. }
    assert (Hng : n = g) by lia. clear Hn. subst n.
    unfold gap. destruct Hcases as [[-> _]|[-> _]].
    + lia.
    + lia.
  - destruct (Z.eq_dec es (-53)) as [->|Hne].
    + change (Z.min (-53) (-52)) with (-53) in *.
      change (2 ^ (-53 - -53)) with 1 in HM.
      change (2 ^ (-52 - -53)) with 2 in HM.
      destruct (digits_range M 53 54) as [Hd1 Hd2]; [lia|lia|].
      assert (Hn1 : n = 1) by lia. clear Hn. subst n. change (2 ^ 1) with 2 in Hcases.
      unfold gap. destruct Hcases as [[-> Hq]|[-> Hq]]; [|lia].
      split; [lia|]. right. left. split; [lia|].
      pose proof (Z.div_mod M 2 ltac:(lia)).
      pose proof (Z.mod_pos_bound M 2 ltac:(lia)). lia.
    + rewrite Z.min_r in * by lia.
      change (2 ^ (-52 - -52)) with 1 in HM. rewrite Z.mul_1_r in HM.
      set (a := es - -52) in *.
      assert (Hadef : a = es + 52) by (unfold a; lia). clearbody a.
      assert (Ha : 0 <= a <= 50) by lia.
      assert (HA : 0 < 2 ^ a) by (apply Z.pow_pos_nonneg; lia).
      set (B := 2 ^ (52 - a)).
      assert (HBdef : B = 2 ^ (52 - a)) by done. clearbody B.
      assert (HB : 2 ^ 2 <= B) by (rewrite HBdef; apply Z.pow_le_mono_r; lia).
      assert (HAB : 2 ^ 52 = B * 2 ^ a).
      { rewrite HBdef, <- Z.pow_add_r by lia. f_equal. lia. }
      assert (HM' : M = (Zpos ms + B) * 2 ^ a) by lia.
      assert (Hd : Zdigits2 M = Zdigits2 (Zpos ms + B) + a).
      { rewrite HM'. apply digits_mul_pow2; lia. }
      assert (HBle : B <= 2 ^ 52) by nia.
      destruct (Z.lt_ge_cases (Zpos ms + B) (2 ^ 53)) as [Hlt|Hge].
      * assert (Zdigits2 (Zpos ms + B) = 53) by (apply Zdigits2_unique; lia).
        assert (Hna : n = a) by lia. clear Hn. subst n.
        assert (Hq : M / 2 ^ a = Zpos ms + B) by (rewrite HM'; apply Z.div_mul; lia).
        rewrite Hq in Hcases. unfold gap.
        destruct Hcases as [[-> Hm]|[-> Hm]]; lia.
      * assert (Zdigits2 (Zpos ms + B) = 54) by (apply Zdigits2_unique; lia).
        assert (Hna : n = a + 1) by lia. clear Hn. subst n.
        assert (Hq : M / 2 ^ (a + 1) = (Zpos ms + B) / 2).
        { rewrite HM', Z.pow_add_r by lia. change (2 ^ 1) with 2.
          rewrite (Z.mul_comm (2 ^ a) 2).
          rewrite Z.div_mul_cancel_r by lia. done. }
        rewrite Hq in Hcases.
        pose proof (Z.div_mod (Zpos ms + B) 2 ltac:(lia)).
        pose proof (Z.mod_pos_bound (Zpos ms + B) 2 ltac:(lia)).
        unfold gap. destruct Hcases as [[-> Hm]|[-> Hm]]; lia.
Qed.

Lemma div_core ms es mt et :
  2 ^ 52 <= Zpos ms < 2 ^ 53 -> 2 ^ 52 <= Zpos mt < 2 ^ 53 ->
  -400 <= es <= 400 -> -400 <= et <= 400 ->
  SFdiv_core_binary 53 1024 (Zpos ms) es (Zpos mt) et
  = ((Zpos ms * 2 ^ 53) / Zpos mt, es - et - 53,
     new_location (Zpos mt) ((Zpos ms * 2 ^ 53) mod Zpos mt)).
Proof.
  intros Hms Hmt Hes Het. unfold SFdiv_core_binary.
  simpl Zdigits2. rewrite !normal_digits by done.
  rewrite fexp_normal by lia.
  replace (Z.min (53 + es - (53 + et) - 53) (es - et)) with (es - et - 53) by lia.
  replace (es - et - (es - et - 53)) with 53 by lia.
  rewrite Z.shiftl_mul_pow2 by lia.
  unfold Z.div, Z.modulo.
  by destruct (Z.div_eucl (Zpos ms * 2 ^ 53) (Zpos mt)).
Qed.

(** With the gap, the quotient rounds to a float below 1.0. *)
Lemma div_below_one ms es mt et :
  2 ^ 52 <= Zpos ms < 2 ^ 53 -> 2 ^ 52 <= Zpos mt < 2 ^ 53 ->
  -400 <= es <= 400 -> -400 <= et <= 400 ->
  gap (Zpos ms) es (Zpos mt) et ->
  exists mp ep,
    Float.div (S754_finite false ms es) (S754_finite false mt et)
    = S754_finite false mp ep /\
    2 ^ 52 <= Zpos mp < 2 ^ 53 /\ ep <= -53.
Proof.
  intros Hms Hmt Hes Het Hgap. unfold Float.div, Float.prec, Float.emax, SFdiv.
  rewrite div_core by done. cbn [xorb].
  set (q := Zpos ms * 2 ^ 53 / Zpos mt).
  set (l := new_location _ _). clearbody l.
  assert (Hq1 : 2 ^ 52 <= q) by (apply Z.div_le_lower_bound; lia).
  assert (Hq2 : q < 2 ^ 54) by (apply Z.div_lt_upper_bound; lia).
  destruct (digits_range q 52 54) as [Hd1 Hd2]; [lia | lia |].
  destruct (binary_round_aux_spec false q (es - et - 53) l)
    as (mp & ep & -> & Hmp & Hcases & _); try lia.
  exists mp, ep. split; [done|]. split; [done|].
  destruct (Z.lt_ge_cases q (2 ^ 53)) as [Hlt|Hge].
  - assert (Hd : Zdigits2 q = 53) by (apply Zdigits2_unique; lia).
    rewrite Hd in Hcases. change (2 ^ (53 - 53)) with 1 in Hcases.
    rewrite Z.div_1_r in Hcases.
    destruct Hcases as [[-> _]|[-> [_ Hc]]].
    + unfold gap in Hgap. lia.
    + destruct Hgap as [?|[[? ?]|[? Hlt']]]; try lia.
      exfalso. assert (q < 2 ^ 53 - 1); [|lia].
      apply Z.div_lt_upper_bound; lia.
  - assert (Hd : Zdigits2 q = 54) by (apply Zdigits2_unique; lia).
    rewrite Hd in Hcases. change (2 ^ (54 - 53)) with 2 in Hcases.
    assert (Hne : es <> et).
    { intros ->. destruct Hgap as [?|[[? ?]|[_ Hlt']]]; try lia.
      assert (q < 2 ^ 53); [|lia]. apply Z.div_lt_upper_bound; lia. }
    destruct Hcases as [[-> _]|[-> [_ Hc]]].
    + unfold gap in Hgap. lia.
    + destruct Hgap as [?|[[? Hg2]|[? ?]]]; try lia.
      exfalso. assert (q < 2 * (2 ^ 53 - 1)).
      { apply Z.div_lt_upper_bound; lia. }
      pose proof (Z.div_mod q 2 ltac:(lia)).
      pose proof (Z.mod_pos_bound q 2 ltac:(lia)). lia.
Qed.

Lemma dyadic_normal M E :
  0 < M < 2 ^ 53 -> -1022 <= E <= 970 ->
  exists m',
    Float.dyadic M E = S754_finite false m' (E + Zdigits2 M - 53) /\
    2 ^ 52 <= Zpos m' < 2 ^ 53 /\ 1 <= Zdigits2 M <= 53.
Proof.
  intros HM HE.
  destruct (dyadic_finite M E) as (m' & Heq & Hm' & Hd); [lia..|].
  exists m'. replace (M <? 0) with false in Heq by (symmetry; apply Z.ltb_ge; lia).
  split; [done|]. split; [|done].
  pose proof (Zdigits2_bounds M ltac:(lia)) as [H1 H2].
  rewrite Hm', Z.abs_eq by lia.
  set (d := Zdigits2 M) in *. clearbody d.
  assert (0 < 2 ^ (53 - d)) by (apply Z.pow_pos_nonneg; lia).
  replace (2 ^ 52) with (2 ^ (d - 1) * 2 ^ (53 - d))
    by (rewrite <- Z.pow_add_r by lia; f_equal; lia).
  replace (2 ^ 53) with (2 ^ d * 2 ^ (53 - d))
    by (rewrite <- Z.pow_add_r by lia; f_equal; lia).
  nia.
Qed.

(** The score for a clamped value of [k] half units, [k] below 2^50. *)
Lemma score_shape k :
  0 <= k < 2 ^ 50 ->
  exists ms es,
    Float.add (of_halves k) Float.epsilon = S754_finite false ms es /\
    2 ^ 52 <= Zpos ms < 2 ^ 53 /\ -72 <= es <= -2 /\
    Float.leb Float.epsilon (S754_finite false ms es) = true.
Proof.
  intros Hk. destruct (Z.eq_dec k 0) as [->|Hne].
  - exists 4722366482869645%positive, (-72). split; [done|].
    split; [by vm_compute|]. split; [lia|done].
  - unfold of_halves.
    destruct (dyadic_normal k (-1)) as (my & -> & Hmy & Hd); [lia | lia |].
    destruct (digits_range k 0 50) as [_ Hd50]; [lia | lia|].
    set (ey := -1 + Zdigits2 k - 53) in *.
    assert (Hey : -53 <= ey <= -4) by (unfold ey; lia). clearbody ey.
    change Float.epsilon with (S754_finite false 4722366482869645 (-72)).
    destruct (add_normal my ey 4722366482869645 (-72))
      as (M & n & HM & Hn & Hn0 & ms & es & Heq & Hms & Hcases & _);
      [done | by vm_compute | lia | lia |].
    exists ms, es. split; [exact Heq|]. split; [done|].
    rewrite Z.min_r in * by lia.
    change (2 ^ (-72 - -72)) with 1 in HM. rewrite Z.mul_1_r in HM.
    set (g := ey - -72) in *.
    assert (Hg : 19 <= g <= 68) by (unfold g; lia).
    assert (Hgdef : ey = g - 72) by (unfold g; lia). clearbody g.
    assert (Hp : 0 < 2 ^ g) by (apply Z.pow_pos_nonneg; lia).
    destruct (digits_range M (52 + g) (54 + g)) as [Hd1 Hd2]; [lia | |].
    { rewrite !Z.pow_add_r by lia. change (Zpos 4722366482869645) with 4722366482869645 in HM.
      assert (1 <= 2 ^ g) by lia. nia. }
    assert (Hes : ey <= es <= ey + 2) by (destruct Hcases as [[-> _]|[-> _]]; lia).
    split; [lia|].
    unfold Float.leb, SFleb, SFcompare.
    destruct (Z.compare_spec (-72) es) as [|_|]; [lia | done | lia].
Qed.

(** The score is at least [1e-6], and the posterior [score / (score + 1)]
    is a positive float below 1.0; the divisor is not zero. *)
Lemma score_posterior_bounds k :
  0 <= k < 2 ^ 50 ->
  let score := Float.add (of_halves k) Float.epsilon in
  Float.leb Float.epsilon score = true /\
  Float.ltb Float.zero score = true /\
  Float.is_finite score = true /\
  Float.ltb Float.zero (Float.add score Float.one) = true /\
  Float.ltb Float.zero (posterior_of score) = true /\
  Float.ltb (posterior_of score) Float.one = true.
Proof.
  intros Hk score.
  destruct (score_shape k Hk) as (ms & es & Hs & Hms & Hes & Hleb).
  unfold score. rewrite Hs. split; [done|]. split; [done|]. split; [done|].
  unfold posterior_of.
  destruct (add_one_gap ms es) as (mt & et & Ht & Hmt & Het & Hgap); [done | lia |].
  rewrite Ht. split; [done|].
  destruct (div_below_one ms es mt et) as (mp & ep & Hp & Hmp & Hep);
    [done | done | lia | lia | done |].
  rewrite Hp. split; [done|].
  unfold Float.ltb, SFltb, SFcompare. change Float.one with (S754_finite false (2 ^ 52) (-52)).
  cbv beta iota.
  destruct (Z.compare_spec ep (-52)) as [|_|]; [lia | done | lia].
Qed.

End ScoreBounds.

(** ** The order of floats *)

Module FloatOrder.

Import Float.

Ltac compare_cases :=
  repeat match goal with
  | H : context [Z.compare ?a ?b] |- _ => destruct (Z.compare_spec a b)
  | |- context [Z.compare ?a ?b] => destruct (Z.compare_spec a b)
  | H : context [Pos.compare ?a ?b] |- _ => destruct (Pos.compare_spec a b)
  | |- context [Pos.compare ?a ?b] => destruct (Pos.compare_spec a b)
  end.

Ltac float_cases x :=
  destruct x as [[]|[]| |[] ? ?].

Lemma ltb_leb x y : ltb x y = true -> leb x y = true.
Proof.
  unfold ltb, leb, SFltb, SFleb. by destruct (SFcompare x y) as [[]|].
Qed.

Lemma ltb_not_eqb x y : ltb x y = true -> eqb x y = false.
Proof.
  unfold ltb, eqb, SFltb, SFeqb. by destruct (SFcompare x y) as [[]|].
Qed.

(** On numbers, [y <= x] holds whenever [x < y] does not. *)
Lemma ltb_false_leb x y :
  is_nan x = false -> is_nan y = false -> ltb x y = false -> leb y x = true.
Proof.
  unfold ltb, leb, SFltb, SFleb, SFcompare.
  float_cases x; float_cases y; try done; intros _ _;
    change (Pos.compare_cont Eq ?a ?b) with (Pos.compare a b);
    compare_cases; simpl; try done; try lia.
Qed.

Lemma leb_trans x y z : leb x y = true -> leb y z = true -> leb x z = true.
Proof.
  unfold leb, SFleb, SFcompare.
  float_cases x; float_cases y; try done; float_cases z; try done;
    change (Pos.compare_cont Eq ?a ?b) with (Pos.compare a b);
    compare_cases; simpl; try done; try lia.
Qed.

Lemma leb_refl x : is_nan x = false -> leb x x = true.
Proof.
  unfold leb, SFleb, SFcompare.
  float_cases x; try done; intros _;
    change (Pos.compare_cont Eq ?a ?b) with (Pos.compare a b);
    by rewrite Z.compare_refl, Pos.compare_refl.
Qed.

End FloatOrder.

(** ** The penalty stays finite *)

Module Saturation.

Import Rounding ScoreBounds.
Local Open Scope Z_scope.

Lemma penalty_step m e ey :
  2 ^ 52 <= Zpos m < 2 ^ 53 -> -53 <= e <= 0 -> ey = -53 \/ ey = -52 ->
  penalty_range (Float.add (S754_finite false m e) (S754_finite false (2 ^ 52) ey)).
Proof.
  intros Hm He Hey.
  destruct (add_normal m e (2 ^ 52)%positive ey)
    as (M & n & HM & Hn & Hn0 & m' & e' & Heq & Hm' & Hcases & Hex); try lia.
  change (Zpos (2 ^ 52)%positive) with (2 ^ 52) in HM.
  unfold Float.add, Float.prec, Float.emax. rewrite Heq.
  right. exists m', e'. split; [done|]. split; [done|].
  set (ez := Z.min e ey) in *.
  assert (Hez : -53 <= ez <= -52) by (unfold ez; lia).
  assert (Hez1 : ez <= e) by (unfold ez; lia).
  assert (Hez2 : ez <= ey) by (unfold ez; lia).
  clearbody ez.
  split; [destruct Hcases as [[-> _]|[-> _]]; lia|].
  set (P := 2 ^ (- ez)).
  assert (HP : 0 < P) by (apply Z.pow_pos_nonneg; lia).
  assert (H1 : 0 < 2 ^ (e - ez) <= P).
  { split; [apply Z.pow_pos_nonneg; lia|]. apply Z.pow_le_mono_r; lia. }
  assert (H2 : 2 ^ 52 * 2 ^ (ey - ez) <= P).
  { unfold P. rewrite <- Z.pow_add_r by lia. apply Z.pow_le_mono_r; lia. }
  assert (HMle : M <= 2 ^ 53 * P) by nia.
  assert (H53 : 2 ^ (53 - ez) = 2 ^ 53 * P).
  { unfold P. rewrite <- Z.pow_add_r by lia. f_equal. }
  assert (HMpos : 0 < M) by nia.
  pose proof (Zdigits2_bounds M HMpos) as [Hd1 Hd2].
  destruct (Z.eq_dec M (2 ^ 53 * P)) as [Heq'|Hne].
  - assert (Hd : Zdigits2 M = 54 - ez).
    { apply Zdigits2_unique; [|done].
      replace (54 - ez - 1) with (53 - ez) by lia.
      replace (54 - ez) with (1 + (53 - ez)) by lia.
      rewrite Z.pow_add_r by lia. lia. }
    assert (Hn1 : n = 1 - ez) by lia.
    assert (Hsplit : M = 2 ^ 52 * 2 ^ n).
    { rewrite Heq', Hn1, <- H53, <- Z.pow_add_r by lia. f_equal. lia. }
    assert (Hpn : 0 < 2 ^ n) by (apply Z.pow_pos_nonneg; lia).
    destruct Hex as [He' Hm'']; [rewrite Hsplit; apply Z.mod_mul; lia|].
    right. split; [lia|]. rewrite Hm'', Hsplit. apply Z.div_mul. lia.
  - assert (Hd : Zdigits2 M <= 53 - ez).
    { destruct (Z.le_gt_cases (Zdigits2 M) (53 - ez)) as [|Hgt]; [done|].
      assert (2 ^ (53 - ez) <= 2 ^ (Zdigits2 M - 1))
        by (apply Z.pow_le_mono_r; lia). lia. }
    destruct Hcases as [[-> _]|[-> [Hc _]]]; [left; lia|].
    destruct (Z.le_gt_cases (ez + n + 1) 0); [by left|right]. split; [lia|done].
Qed.

Lemma penalty_range_literal e :
  -53 <= e <= 1 -> penalty_range (S754_finite false 4503599627370496 e).
Proof.
  intros He. right. exists 4503599627370496%positive, e.
  split; [done|]. lia.
Qed.

Lemma penalty_range_add p v :
  penalty_range p -> penalty_range (Float.add p (verdict_penalty v)).
Proof.
  intros [->|(m & e & -> & Hm & He & Hsat)].
  - destruct v; simpl; [by left | | by left | ].
    + by apply (penalty_range_literal (-53)).
    + by apply (penalty_range_literal (-52)).
  - assert (Hz : Float.add (S754_finite false m e) Float.zero = S754_finite false m e)
      by done.
    assert (Hsame : penalty_range (S754_finite false m e)).
    { right. exists m, e. done. }
    destruct v; simpl verdict_penalty; rewrite ?Hz; try done.
    + destruct Hsat as [Hle|[-> Hm52]].
      * apply (penalty_step m e (-53)); [done | lia | by left].
      * change (2 ^ 52) with (Zpos 4503599627370496) in Hm52.
        apply Pos2Z.inj in Hm52 as ->. by apply (penalty_range_literal 1).
    + destruct Hsat as [Hle|[-> Hm52]].
      * apply (penalty_step m e (-52)); [done | lia | by right].
      * change (2 ^ 52) with (Zpos 4503599627370496) in Hm52.
        apply Pos2Z.inj in Hm52 as ->. by apply (penalty_range_literal 1).
Qed.

End Saturation.

(** ** The score is a number *)

Module NotNan.

Import Rounding Saturation.

Lemma binary_normalize_not_nan m e :
  Float.is_nan (binary_normalize 53 1024 m e false) = false.
Proof.
  pose proof (binary_normalize_shape m e) as H.
  by destruct (binary_normalize 53 1024 m e false).
Qed.

Lemma add_not_nan x y :
  Float.is_nan x = false -> Float.is_finite y = true ->
  Float.is_nan (Float.add x y) = false.
Proof.
  intros Hx Hy. unfold Float.add, Float.prec, Float.emax.
  destruct x as [sx|sx| |sx mx ex], y as [sy|sy| |sy my ey]; try done.
  - by destruct sx, sy.
  - apply binary_normalize_not_nan.
Qed.

Lemma sub_not_nan x y :
  Float.is_nan x = false -> Float.is_finite y = true ->
  Float.is_nan (Float.sub x y) = false.
Proof.
  intros Hx Hy. unfold Float.sub, Float.prec, Float.emax.
  destruct x as [sx|sx| |sx mx ex], y as [sy|sy| |sy my ey]; try done.
  - by destruct sx, sy.
  - apply binary_normalize_not_nan.
Qed.

Lemma max_not_nan x y :
  Float.is_nan x = false -> Float.is_nan y = false ->
  Float.is_nan (Float.max x y) = false.
Proof. intros Hx Hy. unfold Float.max. by destruct (Float.ltb x y). Qed.

Lemma penalty_range_finite p : penalty_range p -> Float.is_finite p = true.
Proof. by intros [->|(m & e & -> & _)]. Qed.

Lemma penalty_fold_range qa candidate loci : forall p0,
  penalty_range p0 ->
  penalty_range
    (fold_left
       (fun p locus =>
          Float.add p
            (match locus_verdict qa candidate locus with
             | Some v => verdict_penalty v
             | None => Float.zero
             end))
       loci p0).
Proof.
  induction loci as [|locus loci IH]; intros p0 Hp0; [done|].
  cbn [fold_left]. apply IH.
  destruct (locus_verdict qa candidate locus) as [v|].
  - by apply penalty_range_add.
  - by apply (penalty_range_add p0 Inconclusive).
Qed.

(** Whatever the number of loci, the score is a number. *)
Lemma score_not_nan qa candidate loci t :
  for_each (score_locus qa candidate) tally0 loci = Ok t ->
  Float.is_nan (score_of t) = false.
Proof.
  intros Ht. apply tally_spec in Ht as (_ & _ & _ & Hp & _).
  assert (Hpen : penalty_range (mismatch_penalty t)).
  { rewrite Hp. apply penalty_fold_range. by left. }
  unfold score_of. apply add_not_nan; [|done].
  apply max_not_nan; [|done].
  apply sub_not_nan; [|by apply penalty_range_finite].
  apply binary_normalize_not_nan.
Qed.

End NotNan.

(** ** The divisor of the posterior *)

Module Divisor.

Import Rounding NotNan ScoreBounds.
Local Open Scope Z_scope.

Lemma digits_range_53 m :
  2 ^ 52 <= m <= 2 ^ 53 ->
  Zdigits2 m = 53 \/ (Zdigits2 m = 54 /\ m = 2 ^ 53).
Proof.
  intros Hm. destruct (Z.eq_dec m (2 ^ 53)) as [->|Hne].
  - right. split; [|done]. apply Zdigits2_unique; lia.
  - left. apply Zdigits2_unique; lia.
Qed.

(** In the normal range a positive mantissa never rounds to zero. *)
Lemma binary_round_aux_positive mx ex lx :
  0 < mx -> 0 <= Zdigits2 mx - 53 -> -1074 <= ex + (Zdigits2 mx - 53) ->
  match binary_round_aux 53 1024 false mx ex lx with
  | S754_finite false _ _ | S754_infinity false => True
  | _ => False
  end.
Proof.
  intros Hmx Hn Hlo.
  destruct (shr_fexp_spec mx ex lx Hmx Hn Hlo) as (mrs & Hshr & Hm & _).
  pose proof (Zdigits2_bounds mx Hmx) as [Hd1 Hd2].
  set (n := Zdigits2 mx - 53) in *.
  assert (Hndef : Zdigits2 mx = 53 + n) by (unfold n; lia). clearbody n.
  assert (Hq : 2 ^ 52 <= mx / 2 ^ n < 2 ^ 53).
  { assert (Hp : 0 < 2 ^ n) by (apply Z.pow_pos_nonneg; lia).
    replace (Zdigits2 mx - 1) with (52 + n) in Hd1 by lia.
    rewrite Hndef in Hd2.
    rewrite Z.pow_add_r in Hd1, Hd2 by lia.
    split; [apply Z.div_le_lower_bound; lia | apply Z.div_lt_upper_bound; lia]. }
  unfold binary_round_aux. rewrite Hshr.
  set (m1 := round_nearest_even (shr_m mrs) (loc_of_shr_record mrs)).
  assert (Hm1 : 2 ^ 52 <= m1 <= 2 ^ 53).
  { unfold m1. rewrite Hm.
    destruct (round_nearest_even_cases (mx / 2 ^ n) (loc_of_shr_record mrs))
      as [-> | ->]; lia. }
  clearbody m1.
  destruct (digits_range_53 m1) as [Hd53|Hd54]; [done| |].
  - destruct (shr_fexp_spec m1 (ex + n) loc_Exact) as (mrs2 & Hshr2 & Hm2 & _);
      [lia | lia | lia |].
    rewrite Hshr2, Hm2, Hd53. change (2 ^ (53 - 53)) with 1. rewrite Z.div_1_r.
    destruct m1 as [|p1|p1]; [lia| |lia].
    by destruct (_ <=? _).
  - destruct Hd54 as [Hd54 Heq].
    destruct (shr_fexp_spec m1 (ex + n) loc_Exact) as (mrs2 & Hshr2 & Hm2 & _);
      [lia | lia | lia |].
    rewrite Hshr2, Hm2, Hd54, Heq.
    change (2 ^ 53 / 2 ^ (54 - 53)) with (Zpos (2 ^ 52)).
    cbv iota beta. by destruct (_ <=? _).
Qed.

Lemma max_zero_nonneg x :
  Float.is_nan x = false -> nonneg_float (Float.max x Float.zero).
Proof. by destruct x as [[]|[]| |[] m e]. Qed.

Lemma aligned_sum_positive m1 e1 m2 e2 :
  exists pM,
    Zpos (fst (shl_align m1 e1 (Z.min e1 e2)))
    + Zpos (fst (shl_align m2 e2 (Z.min e1 e2))) = Zpos pM /\
    Zpos m2 * 2 ^ (e2 - Z.min e1 e2) <= Zpos pM.
Proof.
  destruct (shl_align_spec m1 e1 (Z.min e1 e2)) as [H1 _]; [lia|].
  destruct (shl_align_spec m2 e2 (Z.min e1 e2)) as [H2 _]; [lia|].
  rewrite H2.
  destruct (Zpos (fst (shl_align m1 e1 (Z.min e1 e2)))
            + Zpos m2 * 2 ^ (e2 - Z.min e1 e2)) as [|pM|pM] eqn:E; try lia.
  exists pM. split; [done|]. lia.
Qed.

Lemma add_nonneg x m e :
  nonneg_float x -> nonneg_float (Float.add x (S754_finite false m e)).
Proof.
  unfold Float.add, Float.prec, Float.emax.
  destruct x as [s|[]| |[] mx ex]; try done. intros _.
  unfold SFadd. cbn [cond_Zopp].
  destruct (aligned_sum_positive mx ex m e) as (pM & -> & _).
  pose proof (binary_normalize_shape (Zpos pM) (Z.min ex e)) as H.
  destruct (binary_normalize 53 1024 (Zpos pM) (Z.min ex e) false)
    as [s|s| |s m' e']; cbn in H; try done; by subst s.
Qed.

(** Adding 1.0 to a float that is not negative gives a positive float. *)
Lemma add_one_positive x :
  nonneg_float x -> Float.ltb Float.zero (Float.add x Float.one) = true.
Proof.
  unfold Float.add, Float.prec, Float.emax.
  destruct x as [s|[]| |[] mx ex]; try done. intros _.
  change Float.one with (S754_finite false (2 ^ 52) (-52)).
  unfold SFadd. cbn [cond_Zopp].
  destruct (aligned_sum_positive mx ex (2 ^ 52) (-52)) as (pM & -> & Hle).
  set (ez := Z.min ex (-52)) in *.
  assert (Hez : ez <= -52) by (unfold ez; lia). clearbody ez.
  change (Zpos (2 ^ 52)) with (2 ^ 52) in Hle.
  rewrite <- Z.pow_add_r in Hle by lia.
  replace (52 + (-52 - ez)) with (- ez) in Hle by lia.
  pose proof (Zdigits2_bounds (Zpos pM) ltac:(lia)) as [_ Hd].
  assert (Hdig : - ez < Zdigits2 (Zpos pM)).
  { destruct (Z.lt_ge_cases (- ez) (Zdigits2 (Zpos pM))) as [|Hge]; [done|].
    assert (2 ^ Zdigits2 (Zpos pM) <= 2 ^ (- ez)).
    { apply Z.pow_le_mono_r; [lia|]. lia. }
    lia. }
  simpl Zdigits2 in Hdig.
  unfold binary_normalize, binary_round.
  rewrite shl_align_id by (unfold fexp, emin; lia).
  pose proof (binary_round_aux_positive (Zpos pM) ez loc_Exact) as H.
  simpl Zdigits2 in H.
  destruct (binary_round_aux 53 1024 false (Zpos pM) ez loc_Exact)
    as [s|[]| |[] m' e']; try (exfalso; apply H; lia); done.
Qed.

(** The divisor [score + 1] of the posterior is positive for any number
    of loci: the division never has a zero divisor. *)
Lemma posterior_divisor_positive qa candidate loci t :
  for_each (score_locus qa candidate) tally0 loci = Ok t ->
  Float.ltb Float.zero (Float.add (score_of t) Float.one) = true.
Proof.
  intros Ht. apply add_one_positive. unfold score_of.
  change Float.epsilon with (S754_finite false 4722366482869645 (-72)).
  apply add_nonneg, max_zero_nonneg.
  apply tally_spec in Ht as (_ & _ & _ & Hp & _).
  apply sub_not_nan; [apply binary_normalize_not_nan|].
  apply penalty_range_finite. rewrite Hp.
  apply penalty_fold_range. by left.
Qed.

Lemma leb_finite m1 e1 m2 e2 :
  e1 < e2 \/ (e1 = e2 /\ Zpos m1 <= Zpos m2) ->
  Float.leb (S754_finite false m1 e1) (S754_finite false m2 e2) = true.
Proof.
  intros H. unfold Float.leb, SFleb, SFcompare.
  destruct (Z.compare_spec e1 e2) as [He|He|He]; [|done|lia].
  destruct H as [H|[_ H]]; [lia|].
  change (Pcompare m1 m2 Eq) with (Pos.compare m1 m2).
  by destruct (Pos.compare_spec m1 m2) as [Hm|Hm|Hm]; [| |lia].
Qed.

(** Adding [1e-6] to a float that is not negative gives at least [1e-6],
    whatever the size of the float: the rounded sum keeps an exponent of
    at least -72 and, at that exponent, a mantissa no smaller than that
    of [1e-6]. *)
Lemma add_epsilon_ge x :
  nonneg_float x ->
  Float.leb Float.epsilon (Float.add x Float.epsilon) = true /\
  Float.ltb Float.zero (Float.add x Float.epsilon) = true.
Proof.
  unfold Float.add, Float.prec, Float.emax.
  destruct x as [s|[]| |[] mx ex]; try done. intros _.
  change Float.epsilon with (S754_finite false 4722366482869645 (-72)).
  unfold SFadd. cbn [cond_Zopp].
  destruct (aligned_sum_positive mx ex 4722366482869645 (-72)) as (pM & -> & Hle).
  set (ez := Z.min ex (-72)) in *.
  assert (Hez : ez <= -72) by (unfold ez; lia). clearbody ez.
  set (g := -72 - ez) in *.
  assert (Hg : 0 <= g) by (unfold g; lia).
  assert (Hgdef : ez = -72 - g) by (unfold g; lia). clearbody g.
  assert (Hpow : 0 < 2 ^ g) by (apply Z.pow_pos_nonneg; lia).
  assert (Hdig : 52 + g < Zdigits2 (Zpos pM)).
  { apply (digits_range (Zpos pM) (52 + g) (Zdigits2 (Zpos pM))); [lia|].
    split; [|apply Zdigits2_bounds; lia].
    rewrite Z.pow_add_r by lia.
    change (2 ^ 52) with 4503599627370496. nia. }
  unfold binary_normalize, binary_round.
  rewrite shl_align_id by (unfold fexp, emin; simpl Zdigits2 in Hdig; lia).
  destruct (binary_round_aux_gen false (Zpos pM) ez loc_Exact)
    as (m' & e' & -> & Hm' & Hcases & _); [lia|lia|lia|].
  destruct (e' <=? 971); [|done].
  split; [|done].
  apply leb_finite.
  destruct Hcases as [[He' Hq]|[He' _]]; [|left; lia].
  destruct (Z.eq_dec (Zdigits2 (Zpos pM) - 53) g) as [Hn|Hn]; [|left; lia].
  right. split; [lia|].
  rewrite Hn in Hq.
  assert (Hdiv : 4722366482869645 <= Zpos pM / 2 ^ g).
  { apply Z.div_le_lower_bound; lia. }
  destruct Hq as [-> | ->]; lia.
Qed.

(** The score of a candidate is at least [1e-6], hence positive, for any
    number of loci. *)
Lemma score_at_least_epsilon qa candidate loci t :
  for_each (score_locus qa candidate) tally0 loci = Ok t ->
  Float.leb Float.epsilon (score_of t) = true /\
  Float.ltb Float.zero (score_of t) = true.
Proof.
  intros Ht. unfold score_of. apply add_epsilon_ge, max_zero_nonneg.
  apply tally_spec in Ht as (_ & _ & _ & Hp & _).
  apply sub_not_nan; [apply binary_normalize_not_nan|].
  apply penalty_range_finite. rewrite Hp.
  apply penalty_fold_range. by left.
Qed.

End Divisor.

(** ** C6 and C9: the score in closed form *)

Section ClosedForm.

Import Rounding ExactScore ScoreBounds.
Local Open Scope Z_scope.

Variable qa : gmap string (option (list float)).
Variable candidate : gmap string cell.

Lemma score_of_clamped t : score_of t = Float.add (clamped_value t) Float.epsilon.
Proof. reflexivity. Qed.

Lemma raw_halves_bounds loci :
  Forall (fun locus => is_Some (locus_verdict qa candidate locus)) loci ->
  - 2 * Z.of_nat (length loci) <= raw_halves qa candidate loci
  <= 4 * Z.of_nat (length loci).
Proof.
  intros Hall. pose proof (count_verdict_total _ _ _ Hall).
  pose proof (count_verdict_nonneg qa candidate Consistent loci).
  pose proof (count_verdict_nonneg qa candidate Mutated loci).
  pose proof (count_verdict_nonneg qa candidate Inconclusive loci).
  pose proof (count_verdict_nonneg qa candidate Mismatch loci).
  unfold raw_halves. lia.
Qed.

(** Below 2^50 loci every step of the score before the final addition is
    exact: the clamped value is the float of [max(raw, 0) / 2]. *)
Lemma clamped_closed_form loci t :
  Z.of_nat (length loci) < 2 ^ 50 ->
  for_each (score_locus qa candidate) tally0 loci = Ok t ->
  clamped_value t = of_halves (Z.max (raw_halves qa candidate loci) 0).
Proof.
  intros Hlen Ht.
  apply tally_spec in Ht as (Hc & Hm & _ & Hp & Hall).
  pose proof (raw_halves_bounds loci Hall) as Hraw.
  pose proof (count_verdict_total _ _ _ Hall) as Htot.
  pose proof (count_verdict_nonneg qa candidate Consistent loci).
  pose proof (count_verdict_nonneg qa candidate Mutated loci).
  pose proof (count_verdict_nonneg qa candidate Inconclusive loci).
  pose proof (count_verdict_nonneg qa candidate Mismatch loci).
  change (mismatch_penalty tally0) with (of_halves 0) in Hp.
  rewrite penalty_sum in Hp by lia.
  unfold clamped_value. rewrite Hc, Hm, Hp. simpl consistent. simpl mutated.
  rewrite of_int_halves by lia.
  rewrite of_halves_sub by lia.
  rewrite max_of_halves by lia.
  f_equal. unfold raw_halves. lia.
Qed.

Lemma count_verdict_app v loci loci' :
  count_verdict v qa candidate (loci ++ loci')
  = count_verdict v qa candidate loci + count_verdict v qa candidate loci'.
Proof.
  unfold count_verdict. rewrite List.filter_app, length_app. lia.
Qed.

Lemma raw_halves_snoc loci locus v :
  locus_verdict qa candidate locus = Some v ->
  raw_halves qa candidate (loci ++ [locus])
  = raw_halves qa candidate loci + verdict_halves v.
Proof.
  intros Hv. unfold raw_halves. rewrite !count_verdict_app.
  rewrite !(count_verdict_cons qa candidate _ locus []), Hv. unfold bump.
  unfold count_verdict. simpl List.filter. simpl length.
  destruct v; rewrite ?bool_decide_eq_true_2, ?bool_decide_eq_false_2 by done;
    simpl; lia.
Qed.

End ClosedForm.

Lemma schema_loci_length database_df :
  (length (schema_loci database_df) <= length (columns database_df))%nat.
Proof. unfold schema_loci. apply List.filter_length_le. Qed.

(** C9. For every returned result the score is at least [1e-6], hence
    strictly positive, the posterior is [score / (score + 1)] and its
    divisor [score + 1] is positive, whatever the size of the table.  For
    a table with fewer than 2^48 columns the posterior lies strictly
    between 0 and 1.  (From about 2^52 Consistent loci on, [score + 1]
    rounds to [score].) *)
Theorem score_and_posterior_range query_profile database_df results r :
  match_single query_profile database_df = Ok results ->
  In r results ->
  Float.leb Float.epsilon (clr r) = true /\
  Float.ltb Float.zero (clr r) = true /\
  posterior r = Float.div (clr r) (Float.add (clr r) Float.one) /\
  Float.ltb Float.zero (Float.add (clr r) Float.one) = true /\
  ((Z.of_nat (length (columns database_df)) < 2 ^ 48)%Z ->
   Float.ltb Float.zero (posterior r) = true /\
   Float.ltb (posterior r) Float.one = true).
Proof.
  intros Hm Hr.
  destruct (result_provenance _ _ _ _ Hm Hr)
    as (qid & candidate & t & _ & _ & _ & _ & Ht & Hclr & Hpost & _).
  destruct (Divisor.score_at_least_epsilon _ _ _ _ Ht) as [Hge Hpos].
  rewrite <- Hclr in Hge, Hpos.
  split; [done|]. split; [done|].
  split; [by rewrite Hpost, Hclr|].
  split; [rewrite Hclr; by eapply Divisor.posterior_divisor_positive|].
  intros Hcols.
  pose proof (schema_loci_length database_df) as Hlen.
  pose proof Ht as Ht'.
  apply tally_spec in Ht' as (_ & _ & _ & _ & Hall).
  pose proof (raw_halves_bounds _ _ _ Hall) as Hraw.
  assert (Hlen50 : (Z.of_nat (length (schema_loci database_df)) < 2 ^ 50)%Z) by lia.
  rewrite Hpost, score_of_clamped.
  rewrite (clamped_closed_form _ _ _ _ Hlen50 Ht).
  destruct (ScoreBounds.score_posterior_bounds
              (Z.max (raw_halves (parse_query query_profile) candidate
                        (schema_loci database_df)) 0))
    as (_ & _ & _ & _ & H4 & H5); [lia|].
  split; done.
Qed.

Lemma score_and_posterior_range_witness :
  match_single example_query example_db = Ok [example_result_A; example_result_B] /\
  In example_result_B [example_result_A; example_result_B] /\
  (Z.of_nat (length (columns example_db)) < 2 ^ 48)%Z /\
  Float.leb Float.epsilon (clr example_result_B) = true /\
  Float.ltb Float.zero (clr example_result_B) = true /\
  Float.ltb Float.zero (Float.add (clr example_result_B) Float.one) = true /\
  Float.ltb Float.zero (posterior example_result_B) = true /\
  Float.ltb (posterior example_result_B) Float.one = true.
Proof.
  assert (H1 : match_single example_query example_db
               = Ok [example_result_A; example_result_B])
    by (vm_compute; reflexivity).
  assert (H2 : In example_result_B [example_result_A; example_result_B])
    by (simpl; auto).
  assert (H3 : (Z.of_nat (length (columns example_db)) < 2 ^ 48)%Z)
    by (vm_compute; reflexivity).
  destruct (score_and_posterior_range example_query example_db _ _ H1 H2)
    as (Hge & Hpos & _ & Hdiv & Hrange).
  split; [exact H1|]. split; [exact H2|]. split; [exact H3|].
  split; [exact Hge|]. split; [exact Hpos|].
  split; [exact Hdiv|]. exact (Hrange H3).
Defined.

(** The claim of a strict increase by 2 fails at the floor: with two
    Mismatch loci the score is [1e-6], and it still is when a Consistent
    locus is added.  Away from the floor the scores 6.000001 and 8.000001
    for three and four Consistent loci do not differ by 2.0 either, since
    the addition of [1e-6] rounds. *)
Lemma consistent_locus_not_plus_two :
  (exists r2 r3,
     match_single example_long_query example_far_db2 = Ok [r2] /\
     match_single example_long_query example_far_db3 = Ok [r3] /\
     consistent_loci r2 = 0%Z /\ consistent_loci r3 = 1%Z /\
     mutated_loci r3 = mutated_loci r2 /\
     inconclusive_loci r3 = inconclusive_loci r2 /\
     clr r2 = Float.epsilon /\ clr r3 = Float.epsilon /\
     Float.ltb (clr r2) (clr r3) = false) /\
  (exists r3 r4,
     match_single example_long_query example_near_db3 = Ok [r3] /\
     match_single example_long_query example_near_db4 = Ok [r4] /\
     consistent_loci r3 = 3%Z /\ consistent_loci r4 = 4%Z /\
     clr r3 = Float.of_decimal false 6000001 (-6) /\
     clr r4 = Float.of_decimal false 8000001 (-6) /\
     Float.eqb (Float.sub (clr r4) (clr r3)) (Float.of_int 2) = false).
Proof.
  split.
  - eexists _, _. split; [vm_compute; reflexivity|].
    split; [vm_compute; reflexivity|]. repeat split; vm_compute; reflexivity.
  - eexists _, _. split; [vm_compute; reflexivity|].
    split; [vm_compute; reflexivity|]. repeat split; vm_compute; reflexivity.
Qed.

(** C6 (amended). The score is [1e-6] added to the clamped value
    [max(v, 0)] of [v = 2*consistent + mutated - penalty], and below 2^48
    loci that value is exact.  One more Consistent locus raises [v] by
    exactly 2, one more Mutated locus by 0.5, and one more Mismatch locus
    lowers it by 1: so when [v] was not negative the clamped value rises
    by exactly 2.0, respectively 0.5, and for a Mismatch it falls by 1.0
    and is clamped at 0; when [v] stays negative the score stays at the
    floor [1e-6]. *)
Theorem score_monotonicity qa candidate loci locus v t t' :
  (Z.of_nat (length loci) < 2 ^ 48)%Z ->
  for_each (score_locus qa candidate) tally0 loci = Ok t ->
  for_each (score_locus qa candidate) tally0 (loci ++ [locus]) = Ok t' ->
  locus_verdict qa candidate locus = Some v ->
  let raw := raw_halves qa candidate loci in
  score_of t = Float.add (clamped_value t) Float.epsilon /\
  score_of t' = Float.add (clamped_value t') Float.epsilon /\
  clamped_value t = of_halves (Z.max raw 0) /\
  clamped_value t' = of_halves (Z.max (raw + verdict_halves v) 0) /\
  (v = Consistent -> (0 <= raw)%Z ->
     clamped_value t' = Float.add (clamped_value t) (Float.of_int 2)) /\
  (v = Mutated -> (0 <= raw)%Z ->
     clamped_value t' = Float.add (clamped_value t) Float.half) /\
  (v = Mismatch -> (0 <= raw)%Z ->
     clamped_value t'
     = Float.max (Float.sub (clamped_value t) Float.one) Float.zero) /\
  ((raw + verdict_halves v <= 0)%Z -> score_of t' = Float.epsilon).
Proof.
  intros Hlen Ht Ht' Hv raw.
  assert (Hlen' : (Z.of_nat (length (loci ++ [locus])) < 2 ^ 50)%Z).
  { rewrite length_app. simpl. lia. }
  assert (Hlen50 : (Z.of_nat (length loci) < 2 ^ 50)%Z) by lia.
  pose proof (clamped_closed_form qa candidate loci t Hlen50 Ht) as Hc.
  pose proof (clamped_closed_form qa candidate _ t' Hlen' Ht') as Hc'.
  rewrite (raw_halves_snoc qa candidate loci locus v Hv) in Hc'. fold raw in Hc, Hc'.
  pose proof Ht as Hall. apply tally_spec in Hall as (_ & _ & _ & _ & Hall).
  pose proof (raw_halves_bounds _ _ _ Hall) as Hraw. fold raw in Hraw.
  split; [reflexivity|]. split; [reflexivity|].
  split; [exact Hc|]. split; [exact Hc'|].
  rewrite Hc, Hc'.
  split; [|split; [|split]].
  - intros -> Hpos. simpl verdict_halves.
    rewrite (ExactScore.of_int_halves 2) by (simpl; lia).
    rewrite ExactScore.of_halves_add by lia. f_equal. lia.
  - intros -> Hpos. simpl verdict_halves.
    change Float.half with (of_halves 1).
    rewrite ExactScore.of_halves_add by lia. f_equal. lia.
  - intros -> Hpos. simpl verdict_halves.
    change Float.one with (of_halves 2).
    rewrite ExactScore.of_halves_sub by lia.
    rewrite ExactScore.max_of_halves by lia. f_equal. lia.
  - intros Hneg. rewrite score_of_clamped, Hc'.
    by rewrite Z.max_r by lia.
Qed.

Lemma score_monotonicity_witness :
  (Z.of_nat (length ["L1"; "L2"; "L3"]) < 2 ^ 48)%Z /\
  for_each (score_locus (parse_query example_long_query) example_near_row) tally0
    ["L1"; "L2"; "L3"] = Ok example_tally3 /\
  for_each (score_locus (parse_query example_long_query) example_near_row) tally0
    (["L1"; "L2"; "L3"] ++ ["L4"]) = Ok example_tally4 /\
  locus_verdict (parse_query example_long_query) example_near_row "L4"
  = Some Consistent /\
  clamped_value example_tally4
  = Float.add (clamped_value example_tally3) (Float.of_int 2).
Proof.
  assert (H1 : (Z.of_nat (length ["L1"; "L2"; "L3"]) < 2 ^ 48)%Z)
    by (vm_compute; reflexivity).
  assert (H2 : for_each
                 (score_locus (parse_query example_long_query) example_near_row)
                 tally0 ["L1"; "L2"; "L3"] = Ok example_tally3)
    by (vm_compute; reflexivity).
  assert (H3 : for_each
                 (score_locus (parse_query example_long_query) example_near_row)
                 tally0 (["L1"; "L2"; "L3"] ++ ["L4"]) = Ok example_tally4)
    by (vm_compute; reflexivity).
  assert (H4 : locus_verdict (parse_query example_long_query) example_near_row "L4"
               = Some Consistent)
    by (vm_compute; reflexivity).
  split; [exact H1|]. split; [exact H2|]. split; [exact H3|]. split; [exact H4|].
  destruct (score_monotonicity _ _ _ _ _ _ _ H1 H2 H3 H4)
    as (_ & _ & _ & _ & Hplus & _).
  apply Hplus; [reflexivity | vm_compute; discriminate].
Defined.

(** ** The sort is sorted and stable *)

Section SortFacts.

Implicit Types (l : list MatchResult) (x y r : MatchResult).

Lemma insert_desc_sorted x l :
  Float.is_nan (clr x) = false ->
  Forall (fun r => Float.is_nan (clr r) = false) l ->
  StronglySorted descending l ->
  StronglySorted descending (insert_desc x l).
Proof.
  intros Hx Hl Hs. induction Hs as [|y l Hs IH Hy]; simpl.
  - by repeat constructor.
  - apply Forall_cons in Hl as [Hny Hl].
    destruct (Float.ltb (clr x) (clr y)) eqn:E.
    + constructor; [by apply IH|].
      rewrite insert_desc_perm. constructor; [|done].
      by apply FloatOrder.ltb_leb.
    + constructor; [by constructor|].
      assert (Hyx : descending x y) by (by apply FloatOrder.ltb_false_leb).
      constructor; [done|].
      eapply Forall_impl; [exact Hy|]. intros z Hz.
      unfold descending in *. by eapply FloatOrder.leb_trans.
Qed.

Lemma sort_desc_sorted l :
  Forall (fun r => Float.is_nan (clr r) = false) l ->
  StronglySorted descending (sort_desc l).
Proof.
  induction 1 as [|x l Hx Hl IH]; simpl; [constructor|].
  apply insert_desc_sorted; [done | by rewrite sort_desc_perm | done].
Qed.

Lemma insert_desc_filter v x l :
  List.filter (same_clr v) (insert_desc x l)
  = (if same_clr v x then [x] else []) ++ List.filter (same_clr v) l.
Proof.
  induction l as [|y l IH]; simpl; [by destruct (same_clr v x)|].
  destruct (Float.ltb (clr x) (clr y)) eqn:E; simpl; [|by destruct (same_clr v x)].
  rewrite IH. destruct (same_clr v x) eqn:Ex; [|done].
  assert (same_clr v y = false) as ->; [|done].
  apply not_true_is_false. intros Ey. unfold same_clr in *.
  apply FloatOrder.ltb_not_eqb in E.
  rewrite (FloatFacts.eqb_trans (clr x) v (clr y)) in E; [done | done |].
  by rewrite FloatFacts.eqb_sym.
Qed.

(** The sort is stable: among the results of one score the scan order is
    kept. *)
Lemma sort_desc_stable v l :
  List.filter (same_clr v) (sort_desc l) = List.filter (same_clr v) l.
Proof.
  induction l as [|x l IH]; simpl; [done|].
  rewrite insert_desc_filter, IH. by destruct (same_clr v x).
Qed.

Lemma filter_take_prefix {A : Type} (f : A -> bool) (n : nat) (l : list A) :
  List.filter f (take n l) `prefix_of` List.filter f l.
Proof.
  exists (List.filter f (drop n l)).
  by rewrite <- List.filter_app, take_drop.
Qed.

Lemma StronglySorted_app_inv {A : Type} (R : relation A) (l1 l2 : list A) :
  StronglySorted R (l1 ++ l2) ->
  StronglySorted R l1 /\ Forall (fun a => Forall (R a) l2) l1.
Proof.
  induction l1 as [|x l1 IH]; simpl; intros H.
  - split; constructor.
  - apply StronglySorted_inv in H as [Hs Hx].
    apply IH in Hs as [Hs1 Hs2].
    apply Forall_app in Hx as [Hx1 Hx2].
    split; constructor; done.
Qed.

Lemma StronglySorted_lookup {A : Type} (R : relation A) (l : list A) i j a b :
  StronglySorted R l -> (i < j)%nat -> l !! i = Some a -> l !! j = Some b -> R a b.
Proof.
  intros Hs. revert i j. induction Hs as [|x l Hs IH Hx]; intros i j Hij Hi Hj.
  - done.
  - destruct j as [|j]; [lia|]. simpl in Hj.
    destruct i as [|i]; simpl in Hi.
    + injection Hi as <-. rewrite Forall_forall in Hx.
      apply Hx. by eapply list_elem_of_lookup_2.
    + apply (IH i j); [lia | done | done].
Qed.

End SortFacts.

(** ** C3: the match ranker *)

Lemma scored_not_nan qid qa loci candidate r :
  scored qid qa loci candidate r -> Float.is_nan (clr r) = false.
Proof.
  intros (t & _ & _ & Ht & ->). simpl. by eapply NotNan.score_not_nan.
Qed.

Lemma scan_self_only query_id qa loci table : forall candidates,
  List.filter (fun candidate => negb (is_self query_id candidate)) table = [] ->
  for_each (scan_row query_id qa loci) candidates table = Ok candidates.
Proof.
  induction table as [|candidate table IH]; intros candidates Hnil; [done|].
  simpl in *. destruct (is_self query_id candidate) eqn:Hself; [|done].
  simpl in Hnil. unfold scan_row at 1. unfold is_self, getitem in *.
  destruct (candidate !! PersonID) as [cid|]; [|done]. simpl.
  rewrite Hself. by apply IH.
Qed.

(** With no candidate but the query itself the result is the empty list,
    not an error. *)
Lemma match_single_no_candidates query_profile database_df qid :
  query_profile !! PersonID = Some qid ->
  non_self_rows qid database_df = [] ->
  match_single query_profile database_df = Ok [].
Proof.
  intros Hq Hnil. unfold match_single, getitem. rewrite Hq. simpl.
  by rewrite scan_self_only.
Qed.

(** C3. The ranker returns at most 10 results, sorted by [clr]
    descending: the first ten of the scored candidates in that order, and
    every candidate left out scores no higher than any one returned.  With
    fewer than 10 candidates other than the query all of them are
    returned; with none the result is the empty list, not an error.
    Results of equal [clr] keep the order of the scan. *)
Theorem ranking query_profile database_df results :
  match_single query_profile database_df = Ok results ->
  exists qid candidates,
    query_profile !! PersonID = Some qid /\
    Forall2 (scored qid (parse_query query_profile) (schema_loci database_df))
      (non_self_rows qid database_df) candidates /\
    (length results <= 10)%nat /\
    length results = Nat.min 10 (length (non_self_rows qid database_df)) /\
    (forall i j a b, (i < j)%nat ->
       results !! i = Some a -> results !! j = Some b ->
       Float.leb (clr b) (clr a) = true) /\
    (exists rest,
       results ++ rest ≡ₚ candidates /\
       Forall (fun a => Forall (fun b => Float.leb (clr b) (clr a) = true) rest)
         results) /\
    ((length (non_self_rows qid database_df) < 10)%nat -> results ≡ₚ candidates) /\
    (non_self_rows qid database_df = [] -> results = []) /\
    (forall database_df',
       non_self_rows qid database_df' = [] ->
       match_single query_profile database_df' = Ok []) /\
    (forall v,
       List.filter (same_clr v) results `prefix_of` List.filter (same_clr v) candidates).
Proof.
  intros (qid & cands & Hq & Hall & ->)%match_single_ok.
  exists qid, cands. split; [done|]. split; [done|].
  pose proof (Forall2_length _ _ _ Hall) as Hlen.
  assert (Hnan : Forall (fun r => Float.is_nan (clr r) = false) cands).
  { apply Forall_forall. intros r [i Hi]%list_elem_of_lookup.
    destruct (Forall2_lookup_r _ _ _ _ _ Hall Hi) as (candidate & _ & Hsc).
    by eapply scored_not_nan. }
  pose proof (sort_desc_sorted cands Hnan) as Hsorted.
  rewrite <- (take_drop 10 (sort_desc cands)) in Hsorted.
  apply StronglySorted_app_inv in Hsorted as [Hs1 Hs2].
  split; [rewrite length_take; lia|].
  split; [rewrite length_take, sort_desc_length; lia|].
  split.
  { intros i j a b Hij Hi Hj.
    apply (StronglySorted_lookup descending _ i j a b Hs1 Hij Hi Hj). }
  split.
  { exists (drop 10 (sort_desc cands)).
    split; [by rewrite take_drop, sort_desc_perm | exact Hs2]. }
  split.
  { intros Hfew. rewrite take_ge by (rewrite sort_desc_length; lia).
    apply sort_desc_perm. }
  split.
  { intros Hnil. rewrite Hnil in Hall. apply Forall2_nil_inv_l in Hall as ->. done. }
  split.
  { intros database_df' Hnil. by apply (match_single_no_candidates _ _ qid). }
  intros v. rewrite <- (sort_desc_stable v cands). apply filter_take_prefix.
Qed.

Lemma ranking_witness :
  match_single example_query example_db = Ok [example_result_A; example_result_B] /\
  (length [example_result_A; example_result_B] <= 10)%nat /\
  (forall i j a b, (i < j)%nat ->
     [example_result_A; example_result_B] !! i = Some a ->
     [example_result_A; example_result_B] !! j = Some b ->
     Float.leb (clr b) (clr a) = true).
Proof.
  split; [vm_compute; reflexivity|].
  destruct (ranking example_query example_db [example_result_A; example_result_B])
    as (qid & cands & _ & _ & Hlen & _ & Hsorted & _); [vm_compute; reflexivity|].
  split; [exact Hlen | exact Hsorted].
Defined.

(** Twelve candidates: the four Consistent ones come first, then the two
    Mutated ones, then the first four of the six at the floor, each group
    in scan order; P10 and P11 are cut. *)
Example match_single_twelve :
  (fun results => (person_id <$> results, length results))
    <$> (match match_single example_sparse_query example_twelve_db with
         | Ok results => Some results
         | Raise _ => None
         end)
  = Some ([Str "P02"; Str "P05"; Str "P08"; Str "P12"; Str "P03"; Str "P06";
           Str "P01"; Str "P04"; Str "P07"; Str "P09"], 10%nat).
Proof. vm_compute. reflexivity. Qed.

(** One candidate gives one result; a table with only the query's own
    record gives none. *)
Example match_single_single :
  (length <$> (match match_single example_sparse_query example_single_db with
               | Ok results => Some results
               | Raise _ => None
               end)) = Some 1%nat /\
  match_single example_query
    {| columns := columns example_db; rows := [example_query] |} = Ok [].
Proof. split; vm_compute; reflexivity. Qed.
(** * The batch driver [find_matches] *)

Section BatchFacts.

Variable database_df : DataFrame.

(** What [match_single] returns has at most ten entries; cutting it to
    ten again changes nothing. *)
Lemma match_single_take query_profile results :
  match_single query_profile database_df = Ok results ->
  take 10 results = results.
Proof.
  intros (qid & cands & _ & _ & ->)%match_single_ok.
  by rewrite take_take.
Qed.

Lemma find_matches_loop queries : forall results results',
  for_each
    (fun results query_row =>
       qid <- getitem query_row PersonID ;;
       top <- match_single query_row database_df ;;
       Ok (results ++ [ {| query_id := qid; top_candidates := take 10 top |} ]))
    results queries = Ok results' <->
  exists new, results' = results ++ new /\ Forall2 (answers database_df) queries new.
Proof.
  induction queries as [|query_row queries IH]; intros results results'; simpl.
  - split.
    + intros [= <-]. exists []. by rewrite app_nil_r.
    + intros (new & -> & ->%Forall2_nil_inv_l). by rewrite app_nil_r.
  - unfold getitem at 1.
    destruct (query_row !! PersonID) as [qid|] eqn:Hid; simpl.
    2:{ split; [done|]. intros (new & _ & Hall).
        apply Forall2_cons_inv_l in Hall as (qr & ? & [Hq _] & _). congruence. }
    destruct (match_single query_row database_df) as [top|e] eqn:Hm; simpl.
    2:{ split; [done|]. intros (new & _ & Hall).
        apply Forall2_cons_inv_l in Hall as (qr & ? & [_ Hq] & _). congruence. }
    rewrite (match_single_take _ _ Hm), IH. split.
    + intros (new & -> & Hall).
      exists ({| query_id := qid; top_candidates := top |} :: new).
      rewrite <- app_assoc. split; [done|]. constructor; [|done]. by split.
    + intros (new & -> & Hall).
      apply Forall2_cons_inv_l in Hall as (qr & new' & [Hq1 Hq2] & Hall & ->).
      exists new'. rewrite <- app_assoc. split; [|done].
      destruct qr as [qid' top']. simpl in *. congruence.
Qed.

End BatchFacts.

Lemma find_matches_answers database_df queries_df results :
  find_matches database_df queries_df = Ok results <->
  Forall2 (answers database_df) (rows queries_df) results.
Proof.
  unfold find_matches. rewrite find_matches_loop. split.
  - by intros (new & -> & Hall).
  - intros Hall. by exists results.
Qed.

(** X1. [find_matches] returns a list exactly when every query row has an
    identifier and [match_single] returns for it; the list then has one
    entry per query row, in the order of the rows, holding the row's
    identifier and the list [match_single] returns for the row: the second
    cut to ten entries changes nothing. *)
Theorem find_matches_spec database_df queries_df results :
  find_matches database_df queries_df = Ok results <->
  Forall2 (answers database_df) (rows queries_df) results.
Proof. apply find_matches_answers. Qed.

Lemma find_matches_spec_witness :
  Forall2 (answers example_db) (rows example_queries)
    [ {| query_id := Str "Q1";
         top_candidates := [example_result_A; example_result_B] |};
      {| query_id := Str "B";
         top_candidates :=
           [ {| person_id := Str "Q1";
                clr := Float.epsilon;
                posterior := posterior_of Float.epsilon;
                consistent_loci := 0; mutated_loci := 0; inconclusive_loci := 1 |};
             {| person_id := Str "A";
                clr := Float.epsilon;
                posterior := posterior_of Float.epsilon;
                consistent_loci := 0; mutated_loci := 0; inconclusive_loci := 1 |} ] |} ].
Proof.
  apply (proj1 (find_matches_spec example_db example_queries _)).
  vm_compute. reflexivity.
Defined.

(** X2. On a rectangular table that has the identifier column, and for query
    rows that all carry an identifier, [find_matches] never raises, whatever
    the cells hold; it returns one entry per query row. *)
Theorem find_matches_total database_df queries_df :
  well_formed database_df ->
  In PersonID (columns database_df) ->
  Forall (fun query_row : gmap string cell => is_Some (query_row !! PersonID))
    (rows queries_df) ->
  exists results,
    find_matches database_df queries_df = Ok results /\
    length results = length (rows queries_df).
Proof.
  intros Hwf Hcol Hids.
  assert (Hall : exists results,
             Forall2 (answers database_df) (rows queries_df) results).
  { induction Hids as [|query_row queries [qid Hqid] _ (results & IH)].
    - exists []. constructor.
    - destruct (match_single_total query_row database_df Hwf) as [top Htop];
        [by eexists | done |].
      exists ({| query_id := qid; top_candidates := top |} :: results).
      constructor; [by split | done]. }
  destruct Hall as [results Hall]. exists results. split.
  - by apply find_matches_answers.
  - symmetry. by eapply Forall2_length.
Qed.

Lemma find_matches_total_witness :
  well_formed example_db /\
  In PersonID (columns example_db) /\
  Forall (fun query_row : gmap string cell => is_Some (query_row !! PersonID))
    (rows example_queries) /\
  exists results,
    find_matches example_db example_queries = Ok results /\
    length results = length (rows example_queries).
Proof.
  assert (H1 : well_formed example_db).
  { unfold well_formed. by repeat constructor; vm_compute. }
  assert (H2 : In PersonID (columns example_db)) by (simpl; auto).
  assert (H3 : Forall (fun query_row : gmap string cell =>
                         is_Some (query_row !! PersonID)) (rows example_queries)).
  { repeat constructor; by eexists. }
  split; [exact H1|]. split; [exact H2|]. split; [exact H3|].
  exact (find_matches_total example_db example_queries H1 H2 H3).
Defined.

Lemma for_each_app {A S : Type} (body : S -> A -> result S) (l1 l2 : list A) s :
  for_each body s (l1 ++ l2) = (s' <- for_each body s l1 ;; for_each body s' l2).
Proof.
  revert s. induction l1 as [|x l1 IH]; intros s; simpl; [done|].
  destruct (body s x); simpl; [apply IH | done].
Qed.

(** The entries appended by the loop of [find_matches] do not depend on
    the entries it starts from. *)
Lemma find_matches_loop_shift database_df queries : forall results,
  for_each
    (fun results query_row =>
       qid <- getitem query_row PersonID ;;
       top <- match_single query_row database_df ;;
       Ok (results ++ [ {| query_id := qid; top_candidates := take 10 top |} ]))
    results queries =
  (new <- for_each
     (fun results query_row =>
        qid <- getitem query_row PersonID ;;
        top <- match_single query_row database_df ;;
        Ok (results ++ [ {| query_id := qid; top_candidates := take 10 top |} ]))
     [] queries ;;
   Ok (results ++ new)).
Proof.
  induction queries as [|query_row queries IH]; intros results; simpl.
  - by rewrite app_nil_r.
  - destruct (getitem query_row PersonID) as [qid|e]; simpl; [|done].
    destruct (match_single query_row database_df) as [top|e]; simpl; [|done].
    rewrite IH. symmetry. rewrite IH.
    destruct (for_each _ [] queries) as [new|e]; simpl; [|done].
    by rewrite <- app_assoc.
Qed.

(** X3. A batch of queries may be split: running [find_matches] on the first
    part and on the rest and joining the two lists gives what one run on the
    whole table gives, exceptions included. The column labels of the query
    table play no role. *)
Theorem find_matches_app database_df cols cols1 cols2 rows1 rows2 :
  find_matches database_df {| columns := cols; rows := rows1 ++ rows2 |} =
  (results1 <- find_matches database_df {| columns := cols1; rows := rows1 |} ;;
   results2 <- find_matches database_df {| columns := cols2; rows := rows2 |} ;;
   Ok (results1 ++ results2)).
Proof.
  unfold find_matches. simpl. rewrite for_each_app.
  destruct (for_each _ [] rows1) as [results1|e]; simpl; [|done].
  apply find_matches_loop_shift.
Qed.
(** * Further properties of [match_single] *)

(** ** The query's own rows *)

Lemma scan_skips_self query_id qa loci table : forall candidates,
  for_each (scan_row query_id qa loci) candidates table
  = for_each (scan_row query_id qa loci) candidates
      (List.filter (fun candidate => negb (is_self query_id candidate)) table).
Proof.
  induction table as [|candidate table IH]; intros candidates; simpl; [done|].
  destruct (is_self query_id candidate) eqn:Hself; simpl.
  - assert (Hskip : scan_row query_id qa loci candidates candidate = Ok candidates).
    { unfold scan_row, getitem. unfold is_self in Hself.
      destruct (candidate !! PersonID) as [cid|]; [|done]. simpl. by rewrite Hself. }
    rewrite Hskip. simpl. apply IH.
  - destruct (scan_row query_id qa loci candidates candidate); simpl; [apply IH|done].
Qed.

(** X4. Rows carrying the query's identifier have no effect at all: two
    tables with the same columns and the same other rows, in the same order,
    give the same outcome, exceptions included. In particular a row of the
    query's own is skipped before any of its loci is read. *)
Theorem own_rows_have_no_effect query_profile database_df database_df' qid :
  query_profile !! PersonID = Some qid ->
  columns database_df = columns database_df' ->
  non_self_rows qid database_df = non_self_rows qid database_df' ->
  match_single query_profile database_df = match_single query_profile database_df'.
Proof.
  intros Hq Hcols Hrows. unfold match_single, getitem. rewrite Hq. simpl.
  unfold schema_loci. rewrite <- Hcols.
  rewrite (scan_skips_self _ _ _ (rows database_df)).
  rewrite (scan_skips_self _ _ _ (rows database_df')).
  unfold non_self_rows in Hrows. by rewrite Hrows.
Qed.

Lemma own_rows_have_no_effect_witness :
  match_single example_query example_db = match_single example_query example_db_others.
Proof.
  apply (own_rows_have_no_effect example_query example_db example_db_others (Str "Q1"));
    reflexivity.
Defined.

(** ** The score from the returned counts *)

(** X5. For a table with fewer than 2^48 columns the score of a result is
    determined by its three counts and the number [n] of schema loci: it is
    [max(3*consistent + 1.5*mutated + inconclusive - n, 0) + 1e-6], the
    maximum being computed exactly. *)
Theorem score_from_counts query_profile database_df results r :
  match_single query_profile database_df = Ok results ->
  In r results ->
  (Z.of_nat (length (columns database_df)) < 2 ^ 48)%Z ->
  clr r =
  Float.add
    (of_halves (result_halves (Z.of_nat (length (schema_loci database_df))) r))
    Float.epsilon.
Proof.
  intros Hm Hr Hcols. unfold result_halves.
  destruct (result_provenance _ _ _ _ Hm Hr)
    as (qid & candidate & t & _ & _ & _ & _ & Ht & -> & _ & -> & -> & ->).
  pose proof (schema_loci_length database_df) as Hlen.
  assert (Hlen50 : (Z.of_nat (length (schema_loci database_df)) < 2 ^ 50)%Z) by lia.
  rewrite score_of_clamped, (clamped_closed_form _ _ _ _ Hlen50 Ht).
  pose proof Ht as (Hc & Hmu & Hi & _ & Hall)%tally_spec.
  pose proof (count_verdict_total _ _ _ Hall) as Htot.
  unfold raw_halves, result_halves. rewrite Hc, Hmu, Hi. simpl.
  do 2 f_equal. lia.
Qed.

Lemma score_from_counts_witness :
  clr example_result_A =
  Float.add (of_halves (result_halves 2 example_result_A)) Float.epsilon.
Proof.
  apply (score_from_counts example_query example_db
           [example_result_A; example_result_B] example_result_A).
  - vm_compute. reflexivity.
  - simpl. auto.
  - vm_compute. reflexivity.
Defined.
(** ** The score orders the candidates as their evidence does *)

Module ScoreOrder.

Import Rounding ScoreBounds.
Local Open Scope Z_scope.

(** The score for the evidence [k/2], scaled by 2^72: it is within 2^69
    of the exact sum [k * 2^71 + 4722366482869645]. *)
Lemma score_scaled k :
  0 <= k < 2 ^ 50 ->
  exists ms es,
    Float.add (of_halves k) Float.epsilon = S754_finite false ms es /\
    2 ^ 52 <= Zpos ms < 2 ^ 53 /\ -72 <= es /\
    k * 2 ^ 71 + 4722366482869645 - 2 ^ 69 < Zpos ms * 2 ^ (es + 72)
    <= k * 2 ^ 71 + 4722366482869645 + 2 ^ 69.
Proof.
  intros Hk. destruct (Z.eq_dec k 0) as [->|Hne].
  - exists 4722366482869645%positive, (-72). split; [done|].
    split; [by vm_compute|]. split; [lia|]. by vm_compute.
  - unfold of_halves.
    destruct (dyadic_finite k (-1)) as (my & Hmy & Hval & Hd); [lia | lia | lia |].
    rewrite Hmy. replace (k <? 0) with false by (symmetry; apply Z.ltb_ge; lia).
    rewrite Z.abs_eq in Hval by lia.
    destruct (digits_range k 0 50) as [_ Hd50]; [lia | lia|].
    pose proof (Zdigits2_bounds k ltac:(lia)) as [Hb1 Hb2].
    set (d := Zdigits2 k) in *. clearbody d.
    assert (Hmyr : 2 ^ 52 <= Zpos my < 2 ^ 53).
    { assert (Hp : 0 < 2 ^ (53 - d)) by (apply Z.pow_pos_nonneg; lia).
      replace (2 ^ 52) with (2 ^ (d - 1) * 2 ^ (53 - d))
        by (rewrite <- Z.pow_add_r by lia; f_equal; lia).
      replace (2 ^ 53) with (2 ^ d * 2 ^ (53 - d))
        by (rewrite <- Z.pow_add_r by lia; f_equal; lia).
      rewrite Hval. nia. }
    change Float.epsilon with (S754_finite false 4722366482869645 (-72)).
    destruct (add_normal my (-1 + d - 53) 4722366482869645 (-72))
      as (M & n & HM & Hn & Hn0 & ms & es & Heq & Hms & Hcases & _);
      [done | by vm_compute | lia | lia |].
    exists ms, es. split; [exact Heq|]. split; [done|].
    rewrite Z.min_r in * by lia.
    change (2 ^ (-72 - -72)) with 1 in HM. rewrite Z.mul_1_r in HM.
    change (Zpos 4722366482869645) with 4722366482869645 in HM.
    assert (HMk : M = k * 2 ^ 71 + 4722366482869645).
    { rewrite HM, Hval, <- Z.mul_assoc, <- Z.pow_add_r by lia.
      do 3 f_equal. lia. }
    clear HM. 
    assert (Hk71 : k * 2 ^ 71 <= (2 ^ 50 - 1) * 2 ^ 71) by nia.
    destruct (digits_range M 52 122) as [Hd1 Hd2]; [lia | lia |].
    assert (Hn69 : n <= 69) by lia.
    assert (HP : 0 < 2 ^ n <= 2 ^ 69).
    { split; [apply Z.pow_pos_nonneg; lia | apply Z.pow_le_mono_r; lia]. }
    pose proof (Z.div_mod M (2 ^ n) ltac:(lia)) as Hdm.
    pose proof (Z.mod_pos_bound M (2 ^ n) ltac:(lia)) as Hmod.
    set (q := M / 2 ^ n) in *. set (P := 2 ^ n) in *.
    destruct Hcases as [[-> Hq]|(-> & Hm & Hq)].
    + split; [lia|]. replace (-72 + n + 72) with n by lia. fold P.
      destruct Hq as [-> | ->]; nia.
    + split; [lia|]. replace (-72 + n + 1 + 72) with (n + 1) by lia.
      rewrite Z.pow_add_r by lia. fold P. rewrite Hm.
      change (2 ^ 1) with 2. change (2 ^ 52) with 4503599627370496.
      change (2 ^ 53 - 1) with 9007199254740991 in Hq. nia.
Qed.

(** Two positive floats of 53-digit mantissa compare as their values
    do. *)
Lemma ltb_scaled m1 e1 m2 e2 :
  2 ^ 52 <= Zpos m1 < 2 ^ 53 -> 2 ^ 52 <= Zpos m2 < 2 ^ 53 ->
  -72 <= e1 -> -72 <= e2 ->
  Zpos m1 * 2 ^ (e1 + 72) < Zpos m2 * 2 ^ (e2 + 72) ->
  Float.ltb (S754_finite false m1 e1) (S754_finite false m2 e2) = true.
Proof.
  intros Hm1 Hm2 He1 He2 Hlt.
  unfold Float.ltb, SFltb, SFcompare.
  change (Pos.compare_cont Eq ?a ?b) with (Pos.compare a b).
  assert (Hp2 : 0 < 2 ^ (e2 + 72)) by (apply Z.pow_pos_nonneg; lia).
  destruct (Z.compare_spec e1 e2) as [->|_|Hgt]; [|done|].
  - destruct (Pos.compare_spec m1 m2) as [->|_|Hm]; [lia|done|nia].
  - exfalso.
    replace (e1 + 72) with ((e1 - e2 - 1) + 1 + (e2 + 72)) in Hlt by lia.
    rewrite !Z.pow_add_r in Hlt by lia.
    assert (HA : 0 < 2 ^ (e1 - e2 - 1)) by (apply Z.pow_pos_nonneg; lia).
    change (2 ^ 1) with 2 in Hlt.
    set (A := 2 ^ (e1 - e2 - 1)) in *. set (P := 2 ^ (e2 + 72)) in *.
    assert (HX : 2 ^ 52 <= Zpos m1 * A) by nia.
    assert (Hfac : Zpos m1 * (A * 2 * P) = (2 * (Zpos m1 * A)) * P) by ring.
    rewrite Hfac in Hlt.
    apply Z.mul_lt_mono_pos_r in Hlt; [|done]. lia.
Qed.

(** More evidence gives a strictly higher score: the rounding of the
    final addition of [1e-6] never merges two different values. *)
Lemma score_increasing k1 k2 :
  0 <= k1 -> k1 < k2 -> k2 < 2 ^ 50 ->
  Float.ltb (Float.add (of_halves k1) Float.epsilon)
            (Float.add (of_halves k2) Float.epsilon) = true.
Proof.
  intros H1 H12 H2.
  destruct (score_scaled k1) as (m1 & e1 & -> & Hm1 & He1 & Hs1); [lia|].
  destruct (score_scaled k2) as (m2 & e2 & -> & Hm2 & He2 & Hs2); [lia|].
  apply ltb_scaled; try done.
  change (2 ^ 71) with (4 * 2 ^ 69) in *. lia.
Qed.

End ScoreOrder.

(** X6. Within one answer (for a table of fewer than 2^48 columns) the score
    orders the candidates exactly as their evidence does: of two results the
    one with the larger value of [max(3*consistent + 1.5*mutated +
    inconclusive - n, 0)] has the strictly larger score, and two results
    with the same value have the same score. *)
Theorem score_orders_evidence query_profile database_df results r1 r2 :
  match_single query_profile database_df = Ok results ->
  In r1 results -> In r2 results ->
  (Z.of_nat (length (columns database_df)) < 2 ^ 48)%Z ->
  let n := Z.of_nat (length (schema_loci database_df)) in
  ((result_halves n r1 < result_halves n r2)%Z ->
   Float.ltb (clr r1) (clr r2) = true) /\
  (result_halves n r1 = result_halves n r2 -> clr r1 = clr r2).
Proof.
  intros Hm Hr1 Hr2 Hcols n.
  assert (Hclr : forall r, In r results ->
            clr r = Float.add (of_halves (result_halves n r)) Float.epsilon /\
            (0 <= result_halves n r < 2 ^ 50)%Z).
  { intros r Hr.
    destruct (result_provenance _ _ _ _ Hm Hr)
      as (qid & candidate & t & _ & _ & _ & _ & Ht & -> & _ & Hc & Hmu & Hi).
    pose proof (schema_loci_length database_df) as Hlen.
    assert (Hlen50 : (Z.of_nat (length (schema_loci database_df)) < 2 ^ 50)%Z) by lia.
    rewrite score_of_clamped, (clamped_closed_form _ _ _ _ Hlen50 Ht).
    pose proof Ht as (Hc' & Hmu' & Hi' & _ & Hall)%tally_spec.
    pose proof (count_verdict_total _ _ _ Hall) as Htot.
    pose proof (raw_halves_bounds _ _ _ Hall) as Hraw.
    assert (Heq : result_halves n r
                  = Z.max (raw_halves (parse_query query_profile) candidate
                             (schema_loci database_df)) 0).
    { unfold raw_halves, result_halves, n. rewrite Hc, Hmu, Hi, Hc', Hmu', Hi'.
      simpl. f_equal. lia. }
    rewrite Heq. split; [done|]. lia. }
  destruct (Hclr r1 Hr1) as [-> Hb1]. destruct (Hclr r2 Hr2) as [-> Hb2].
  split.
  - intros Hlt. apply ScoreOrder.score_increasing; lia.
  - by intros ->.
Qed.

Lemma score_orders_evidence_witness :
  (result_halves 2 example_result_B < result_halves 2 example_result_A)%Z /\
  Float.ltb (clr example_result_B) (clr example_result_A) = true.
Proof.
  assert (H : (result_halves 2 example_result_B < result_halves 2 example_result_A)%Z)
    by (vm_compute; reflexivity).
  split; [exact H|].
  refine (proj1 (score_orders_evidence example_query example_db
                   [example_result_A; example_result_B]
                   example_result_B example_result_A _ _ _ _) H).
  - vm_compute. reflexivity.
  - simpl. auto.
  - simpl. auto.
  - vm_compute. reflexivity.
Defined.
(** ** The order of the columns *)

Lemma filter_Permutation {A : Type} (f : A -> bool) (l l' : list A) :
  l ≡ₚ l' -> List.filter f l ≡ₚ List.filter f l'.
Proof.
  induction 1 as [|x l l' _ IH|x y l|l l' l'' _ IH1 _ IH2]; simpl.
  - done.
  - destruct (f x); [by constructor | done].
  - destruct (f x), (f y); try done. apply Permutation_swap.
  - by etrans.
Qed.

Lemma count_verdict_Permutation v qa candidate loci loci' :
  loci ≡ₚ loci' ->
  count_verdict v qa candidate loci = count_verdict v qa candidate loci'.
Proof.
  intros H. unfold count_verdict. f_equal.
  apply Permutation_length. by apply filter_Permutation.
Qed.

Lemma for_each_impl {A S : Type} (body body' : S -> A -> result S) (l : list A) :
  (forall s x s', In x l -> body s x = Ok s' -> body' s x = Ok s') ->
  forall s s', for_each body s l = Ok s' -> for_each body' s l = Ok s'.
Proof.
  induction l as [|x l IH]; intros Hb s s'; simpl; [done|].
  destruct (body s x) as [s1|e] eqn:E; [|done]. simpl. intros H.
  rewrite (Hb s x s1) by (simpl; auto). simpl.
  apply IH; [|done]. intros ????. apply Hb. simpl. auto.
Qed.

(** The accumulators over a permutation of fewer than 2^50 loci: the same
    counts and the same score. *)
Lemma tally_Permutation qa candidate loci loci' t :
  loci ≡ₚ loci' ->
  (Z.of_nat (length loci) < 2 ^ 50)%Z ->
  for_each (score_locus qa candidate) tally0 loci = Ok t ->
  exists t',
    for_each (score_locus qa candidate) tally0 loci' = Ok t' /\
    consistent t' = consistent t /\
    mutated t' = mutated t /\
    inconclusive t' = inconclusive t /\
    score_of t' = score_of t.
Proof.
  intros Hperm Hlen Ht.
  pose proof Ht as (Hc & Hmu & Hi & _ & Hall)%tally_spec.
  destruct (for_each_ok (score_locus qa candidate) loci') with (s := tally0)
    as [t' Ht'].
  { intros acc locus Hin. apply score_locus_ok.
    apply (Permutation_in _ (Permutation_sym Hperm)) in Hin.
    rewrite List.Forall_forall in Hall. apply Hall in Hin as [v Hv].
    unfold locus_verdict in Hv. destruct (candidate !! locus); [by eexists|done]. }
  exists t'. split; [done|].
  pose proof Ht' as (Hc' & Hmu' & Hi' & _ & _)%tally_spec.
  rewrite Hc, Hmu, Hi, Hc', Hmu', Hi'.
  rewrite !(count_verdict_Permutation _ _ _ _ _ Hperm).
  repeat split; try done.
  rewrite !score_of_clamped.
  rewrite (clamped_closed_form _ _ _ _ Hlen Ht).
  rewrite (clamped_closed_form qa candidate loci' t'); [|by rewrite <- Hperm|done].
  unfold raw_halves. by rewrite !(count_verdict_Permutation _ _ _ _ _ Hperm).
Qed.

Lemma scan_row_Permutation query_id qa loci loci' candidates candidate candidates' :
  loci ≡ₚ loci' ->
  (Z.of_nat (length loci) < 2 ^ 50)%Z ->
  scan_row query_id qa loci candidates candidate = Ok candidates' ->
  scan_row query_id qa loci' candidates candidate = Ok candidates'.
Proof.
  intros Hperm Hlen. unfold scan_row.
  destruct (getitem candidate PersonID) as [cid|e]; [|done]. simpl.
  destruct (cell_eqb cid query_id); [done|].
  destruct (for_each _ tally0 loci) as [t|e] eqn:Ht; [|done]. simpl.
  destruct (tally_Permutation _ _ _ _ _ Hperm Hlen Ht)
    as (t' & Ht' & Hc & Hmu & Hi & Hs).
  rewrite Ht'. simpl. by rewrite Hc, Hmu, Hi, Hs.
Qed.

(** X7. The order of the columns of the table does not matter: with the
    columns in any other order (fewer than 2^48 of them) [match_single]
    returns the same list. *)
Theorem column_order_irrelevant query_profile database_df cols' results :
  columns database_df ≡ₚ cols' ->
  (Z.of_nat (length (columns database_df)) < 2 ^ 48)%Z ->
  match_single query_profile database_df = Ok results ->
  match_single query_profile {| columns := cols'; rows := rows database_df |}
  = Ok results.
Proof.
  intros Hperm Hlen. unfold match_single.
  destruct (getitem query_profile PersonID) as [qid|e]; [|done]. simpl.
  destruct (for_each _ [] (rows database_df)) as [cands|e] eqn:E; [|done].
  simpl. intros [= <-].
  erewrite for_each_impl; [reflexivity| |exact E].
  intros s x s' _. apply scan_row_Permutation.
  - unfold schema_loci. simpl. by apply filter_Permutation.
  - pose proof (schema_loci_length database_df). lia.
Qed.

Lemma column_order_irrelevant_witness :
  match_single example_query example_db_columns_swapped
  = Ok [example_result_A; example_result_B].
Proof.
  apply (column_order_irrelevant example_query example_db).
  - simpl. change ["L2"; "PersonID"; "L1"] with (["L2"] ++ ["PersonID"; "L1"]).
    change ["PersonID"; "L1"; "L2"] with (["PersonID"; "L1"] ++ ["L2"]).
    apply Permutation_app_comm.
  - vm_compute. reflexivity.
  - vm_compute. reflexivity.
Defined.

(** ** A query without usable alleles *)

Lemma tally_uninformative qa candidate loci : forall acc t,
  (forall locus, In locus loci -> mjoin (qa !! locus) = None) ->
  mismatch_penalty acc = Float.zero ->
  for_each (score_locus qa candidate) acc loci = Ok t ->
  consistent t = consistent acc /\
  mutated t = mutated acc /\
  inconclusive t = (inconclusive acc + Z.of_nat (length loci))%Z /\
  mismatch_penalty t = Float.zero.
Proof.
  induction loci as [|locus loci IH]; intros acc t Hq Hp; simpl.
  - intros [= <-]. repeat split; try done. lia.
  - unfold score_locus at 1. rewrite (Hq locus) by (simpl; auto).
    destruct (getitem candidate locus) as [value|e]; [|done]. simpl.
    intros Ht. apply IH in Ht as (-> & -> & -> & ->).
    + simpl. repeat split; lia.
    + intros ??. apply Hq. simpl. auto.
    + simpl. by rewrite Hp.
Qed.

(** Results of equal score stay as they are when sorted. *)
Lemma sort_desc_ties v l :
  Float.ltb v v = false ->
  Forall (fun r => clr r = v) l ->
  sort_desc l = l.
Proof.
  intros Hv. induction 1 as [|x l Hx Hl IH]; [done|].
  simpl. rewrite IH. destruct Hl as [|y l Hy _]; [done|].
  simpl. by rewrite Hx, Hy, Hv.
Qed.

(** X8. When the query has no usable allele at any schema locus (each is
    missing, blank, the placeholder, or not numeric), every candidate gets
    the floor score [1e-6] with all loci Inconclusive, and the list returned
    is that of the first ten rows of the table other than the query's own,
    in the order of the table. *)
Theorem uninformative_query query_profile database_df qid results :
  query_profile !! PersonID = Some qid ->
  (forall locus, In locus (schema_loci database_df) ->
     mjoin (parse_query query_profile !! locus) = None) ->
  match_single query_profile database_df = Ok results ->
  Forall2 (floor_result (Z.of_nat (length (schema_loci database_df))))
    (take 10 (non_self_rows qid database_df)) results.
Proof.
  intros Hq Hloci (qid' & cands & Hq' & Hall & ->)%match_single_ok.
  assert (qid' = qid) as -> by congruence.
  assert (Hfloor : Forall2 (floor_result (Z.of_nat (length (schema_loci database_df))))
                     (non_self_rows qid database_df) cands).
  { eapply Forall2_impl; [exact Hall|].
    intros candidate r (t & Hid & _ & Ht & ->).
    apply tally_uninformative in Ht as (Hc & Hmu & Hi & Hp); [|done|done].
    assert (Hscore : score_of t = Float.epsilon).
    { unfold score_of. by rewrite Hc, Hmu, Hp. }
    unfold floor_result. simpl. by rewrite Hscore, Hc, Hmu, Hi. }
  rewrite (sort_desc_ties Float.epsilon); [by apply Forall2_take|done|].
  clear Hall. induction Hfloor as [|?? ?? (_ & ? & _)]; by constructor.
Qed.

Lemma uninformative_query_witness :
  Forall2 (floor_result (Z.of_nat (length (schema_loci example_db))))
    (take 10 (non_self_rows (Str "Q1") example_db))
    [ {| person_id := Str "B"; clr := Float.epsilon;
         posterior := posterior_of Float.epsilon;
         consistent_loci := 0; mutated_loci := 0; inconclusive_loci := 2 |};
      {| person_id := Str "A"; clr := Float.epsilon;
         posterior := posterior_of Float.epsilon;
         consistent_loci := 0; mutated_loci := 0; inconclusive_loci := 2 |} ].
Proof.
  apply (uninformative_query example_blank_query example_db (Str "Q1")).
  - reflexivity.
  - intros locus [<-|[<-|[]]]; vm_compute; reflexivity.
  - vm_compute. reflexivity.
Defined.
(** ** The order of the rows *)

Module KeyOrder.

Import Float FloatOrder.

(** A positive float: a positive number or the positive infinity. *)
Lemma positive_cases x :
  ltb zero x = true ->
  (exists m e, x = S754_finite false m e) \/ x = S754_infinity false.
Proof. float_cases x; try done; eauto. Qed.

Lemma ltb_asym x y : ltb x y = true -> ltb y x = false.
Proof.
  unfold ltb, SFltb, SFcompare.
  float_cases x; float_cases y; try done;
    change (Pos.compare_cont Eq ?a ?b) with (Pos.compare a b);
    compare_cases; simpl; try done; try lia.
Qed.

(** Two positive floats neither of which is below the other are the
    same float. *)
Lemma ltb_neither x y :
  ltb zero x = true -> ltb zero y = true ->
  ltb x y = false -> ltb y x = false -> x = y.
Proof.
  intros [(mx & ex & ->)| ->]%positive_cases [(my & ey & ->)| ->]%positive_cases;
    try done.
  unfold ltb, SFltb, SFcompare.
  change (Pos.compare_cont Eq ?a ?b) with (Pos.compare a b).
  compare_cases; simpl; try done; try lia.
  intros _ _. congruence.
Qed.

Lemma ltb_below x y z :
  ltb zero x = true -> ltb zero y = true -> ltb zero z = true ->
  ltb y z = true -> ltb x z = false -> ltb y x = true.
Proof.
  intros [(mx & ex & ->)| ->]%positive_cases [(my & ey & ->)| ->]%positive_cases
         [(mz & ez & ->)| ->]%positive_cases; try done.
  unfold ltb, SFltb, SFcompare.
  change (Pos.compare_cont Eq ?a ?b) with (Pos.compare a b).
  compare_cases; simpl; try done; try lia.
Qed.

End KeyOrder.

Section RowOrder.

Implicit Types (l s : list MatchResult) (x y : MatchResult).

(** Where a result is inserted depends on the scores only. *)
Lemma insert_desc_keys x x' s : forall s',
  clr x = clr x' -> map clr s = map clr s' ->
  map clr (insert_desc x s) = map clr (insert_desc x' s').
Proof.
  induction s as [|z s IH]; intros [|z' s'] Hx Hs; try done; simpl in *.
  - by rewrite Hx.
  - injection Hs as Hz Hs. rewrite <- Hx, <- Hz.
    destruct (Float.ltb (clr x) (clr z)); simpl.
    + rewrite Hz. f_equal. by apply IH.
    + by rewrite Hx, Hz, Hs.
Qed.

(** Two insertions commute as far as the scores go. *)
Lemma insert_desc_swap x y s :
  positive_score x -> positive_score y -> Forall positive_score s ->
  map clr (insert_desc x (insert_desc y s))
  = map clr (insert_desc y (insert_desc x s)).
Proof.
  intros Hx Hy. induction 1 as [|z s Hz Hs IH]; simpl.
  - destruct (Float.ltb (clr x) (clr y)) eqn:Exy;
      destruct (Float.ltb (clr y) (clr x)) eqn:Eyx; simpl; try done.
    + by rewrite (KeyOrder.ltb_asym _ _ Exy) in Eyx.
    + by rewrite (KeyOrder.ltb_neither _ _ Hx Hy Exy Eyx).
  - destruct (Float.ltb (clr y) (clr z)) eqn:Eyz;
      destruct (Float.ltb (clr x) (clr z)) eqn:Exz; simpl;
      rewrite ?Eyz, ?Exz; simpl.
    + by rewrite IH.
    + by rewrite (KeyOrder.ltb_below _ _ _ Hx Hy Hz Eyz Exz), ?Eyz.
    + by rewrite (KeyOrder.ltb_below _ _ _ Hy Hx Hz Exz Eyz), ?Exz.
    + destruct (Float.ltb (clr x) (clr y)) eqn:Exy;
        destruct (Float.ltb (clr y) (clr x)) eqn:Eyx; simpl;
        rewrite ?Eyz, ?Exz; try done.
      * by rewrite (KeyOrder.ltb_asym _ _ Exy) in Eyx.
      * by rewrite (KeyOrder.ltb_neither _ _ Hx Hy Exy Eyx).
Qed.

(** The scores of a sorted list depend on the multiset of the results
    only. *)
Lemma sort_desc_keys l l' :
  l ≡ₚ l' -> Forall positive_score l ->
  map clr (sort_desc l) = map clr (sort_desc l').
Proof.
  induction 1 as [|x l l' Hp IH|x y l|l l' l'' Hp1 IH1 Hp2 IH2]; intros Hpos.
  - done.
  - apply Forall_cons in Hpos as [_ Hl]. simpl.
    apply insert_desc_keys; [done|]. by apply IH.
  - apply Forall_cons in Hpos as [Hx [Hy Hl]%Forall_cons]. simpl.
    apply insert_desc_swap; try done. by rewrite sort_desc_perm.
  - rewrite IH1 by done. apply IH2. by rewrite <- Hp1.
Qed.

Variable query_id : cell.
Variable qa : gmap string (option (list float)).
Variable loci : list string.

(** What a row contributes does not depend on the results found so
    far. *)
Lemma scan_row_acc candidates candidate :
  scan_row query_id qa loci candidates candidate
  = (new <- scan_row query_id qa loci [] candidate ;; Ok (candidates ++ new)).
Proof.
  unfold scan_row.
  destruct (getitem candidate PersonID) as [cid|e]; [|done]. simpl.
  destruct (cell_eqb cid query_id); simpl; [by rewrite app_nil_r|].
  by destruct (for_each _ tally0 loci).
Qed.

Lemma scan_acc_Permutation table : forall candidates candidates' found,
  candidates ≡ₚ candidates' ->
  for_each (scan_row query_id qa loci) candidates table = Ok found ->
  exists found',
    for_each (scan_row query_id qa loci) candidates' table = Ok found' /\
    found ≡ₚ found'.
Proof.
  induction table as [|candidate table IH]; intros c c' found Hc; simpl.
  - intros [= <-]. eauto.
  - rewrite (scan_row_acc c), (scan_row_acc c').
    destruct (scan_row query_id qa loci [] candidate) as [new|e]; [|done]. simpl.
    apply IH. by rewrite Hc.
Qed.

Lemma scan_Permutation table table' :
  table ≡ₚ table' ->
  forall candidates found,
    for_each (scan_row query_id qa loci) candidates table = Ok found ->
    exists found',
      for_each (scan_row query_id qa loci) candidates table' = Ok found' /\
      found ≡ₚ found'.
Proof.
  induction 1 as [|x l l' Hp IH|x y l|l l' l'' Hp1 IH1 Hp2 IH2];
    intros c found; simpl.
  - intros [= <-]. eauto.
  - destruct (scan_row query_id qa loci c x) as [c1|e]; [|done]. simpl.
    apply IH.
  - rewrite (scan_row_acc c y), (scan_row_acc c x).
    destruct (scan_row query_id qa loci [] y) as [ny|e] eqn:Ey; [|done]. simpl.
    rewrite (scan_row_acc (c ++ ny) x).
    destruct (scan_row query_id qa loci [] x) as [nx|e] eqn:Ex; [|done]. simpl.
    rewrite (scan_row_acc (c ++ nx) y), Ey. simpl.
    apply scan_acc_Permutation.
    rewrite <- !app_assoc. f_equiv. apply Permutation_app_comm.
  - intros H. apply IH1 in H as (f1 & H1 & Hf1).
    apply IH2 in H1 as (f2 & H2 & Hf2).
    exists f2. split; [done|]. by etrans.
Qed.

End RowOrder.

Lemma scored_positive qid qa loci candidate r :
  scored qid qa loci candidate r -> Float.ltb Float.zero (clr r) = true.
Proof.
  intros (t & _ & _ & Ht & ->). simpl.
  by apply Divisor.score_at_least_epsilon in Ht as [_ ?].
Qed.

Lemma scored_posterior qid qa loci candidate r :
  scored qid qa loci candidate r -> posterior r = posterior_of (clr r).
Proof. by intros (t & _ & _ & _ & ->). Qed.

(** X9. The order of the rows of the table does not change the scores: with
    the rows in any other order [match_single] returns a list with the same
    scores and the same posteriors, position by position. (Only which
    candidates of equal score come first, or make it into the ten, depends
    on the order of the rows.) *)
Theorem row_order_keeps_scores query_profile database_df rows' results :
  rows database_df ≡ₚ rows' ->
  match_single query_profile database_df = Ok results ->
  exists results',
    match_single query_profile
      {| columns := columns database_df; rows := rows' |} = Ok results' /\
    map clr results' = map clr results /\
    map posterior results' = map posterior results.
Proof.
  intros Hperm Hm.
  pose proof Hm as (qid & cands0 & Hq & Hall0 & _)%match_single_ok.
  revert Hm. unfold match_single, getitem. rewrite Hq. simpl.
  destruct (for_each _ [] (rows database_df)) as [cands|e] eqn:E; [|done].
  simpl. intros [= <-].
  pose proof E as (new & Hnew & Hall)%scan_spec. simpl in Hnew. subst new.
  destruct (scan_Permutation _ _ _ _ _ Hperm _ _ E) as (cands' & E' & Hc).
  unfold schema_loci in *. simpl. rewrite E'. simpl.
  eexists. split; [reflexivity|].
  assert (Hpos : Forall (fun r => Float.ltb Float.zero (clr r) = true) cands).
  { clear -Hall. induction Hall as [|???? Hs]; constructor; [|done].
    by eapply scored_positive. }
  assert (Hkeys : map clr (take 10 (sort_desc cands'))
                  = map clr (take 10 (sort_desc cands))).
  { rewrite <- !List.firstn_map. f_equal. symmetry. by apply sort_desc_keys. }
  split; [done|].
  assert (Hpost : forall l, l ≡ₚ cands ->
            map posterior (take 10 (sort_desc l))
            = map posterior_of (map clr (take 10 (sort_desc l)))).
  { intros l Hl. rewrite map_map. apply map_ext_in. intros r Hr.
    apply list_elem_of_In, elem_of_take in Hr as (j & Hj%list_elem_of_lookup_2 & _).
    rewrite sort_desc_perm, Hl in Hj.
    apply list_elem_of_lookup in Hj as [i Hi].
    destruct (Forall2_lookup_r _ _ _ _ _ Hall Hi) as (candidate & _ & Hsc).
    by eapply scored_posterior. }
  rewrite (Hpost cands') by done. rewrite (Hpost cands) by done.
  by rewrite Hkeys.
Qed.

Lemma row_order_keeps_scores_witness :
  exists results',
    match_single example_query example_db_rows_swapped = Ok results' /\
    map clr results' = map clr [example_result_A; example_result_B] /\
    map posterior results' = map posterior [example_result_A; example_result_B].
Proof.
  apply (row_order_keeps_scores example_query example_db
           [example_row_A; example_row_B; example_query]).
  - simpl. change [example_row_B; example_query; example_row_A]
      with ([example_row_B; example_query] ++ [example_row_A]).
    change [example_row_A; example_row_B; example_query]
      with ([example_row_A] ++ [example_row_B; example_query]).
    apply Permutation_app_comm.
  - vm_compute. reflexivity.
Defined.
(** * Further properties of [_evaluate_locus] *)

Section EvaluatorMore.

Implicit Types (qs cs : list float) (a b : float).

(** The sign given to a rounding only shows in the sign of the result. *)
Lemma abs_binary_round s p e :
  SFabs (binary_round 53 1024 s p e) = SFabs (binary_round 53 1024 false p e).
Proof.
  unfold binary_round, binary_round_aux.
  destruct (shl_align _ _ _) as [mz ez].
  destruct (shr_fexp _ _ _ _ _) as [mrs e'].
  destruct (shr_fexp _ _ _ _ _) as [mrs' e''].
  destruct (shr_m mrs'); try done. by destruct (_ <=? _)%Z.
Qed.

Lemma abs_binary_normalize M e :
  SFabs (binary_normalize 53 1024 (- M) e false)
  = SFabs (binary_normalize 53 1024 M e false).
Proof.
  destruct M as [|p|p]; simpl; [done| |]; by rewrite (abs_binary_round true).
Qed.

(** [abs(a - b)] and [abs(b - a)] are the same float. *)
Lemma abs_sub_comm a b :
  Float.abs (Float.sub a b) = Float.abs (Float.sub b a).
Proof.
  unfold Float.abs, Float.sub, Float.prec, Float.emax.
  destruct a as [sa|sa| |sa ma ea], b as [sb|sb| |sb mb eb]; try done;
    try (by destruct sa, sb).
  unfold SFsub. rewrite (Z.min_comm eb ea).
  rewrite <- abs_binary_normalize. f_equal. f_equal. lia.
Qed.

Lemma shares_allele_sym qs cs : shares_allele qs cs -> shares_allele cs qs.
Proof.
  intros (a & b & Ha & Hb & Hab). exists b, a.
  by rewrite FloatFacts.eqb_sym.
Qed.

Lemma adjacent_pair_sym qs cs : adjacent_pair qs cs -> adjacent_pair cs qs.
Proof.
  intros (a & b & Ha & Hb & Hab). exists b, a.
  by rewrite abs_sub_comm.
Qed.

(** The outcome of [_evaluate_locus] from the two decidable tests. *)
Lemma evaluate_locus_cases qs cs :
  _evaluate_locus (Some qs) (Some cs) =
  verdict_tuple
    (if shares_allele_dec qs cs then Consistent
     else if adjacent_pair_dec qs cs then Mutated else Mismatch).
Proof.
  destruct (evaluate_locus_some qs cs) as (H1 & H2 & H3).
  destruct (shares_allele_dec qs cs); [auto|].
  destruct (adjacent_pair_dec qs cs); auto.
Qed.

Lemma verdict_of_tuple v : verdict_of (verdict_tuple v) = v.
Proof. by destruct v. Qed.

End EvaluatorMore.

(** X10. The evaluator is symmetric: which profile is the query and which
    the candidate makes no difference to the verdict of a locus. *)
Theorem evaluate_locus_symmetric (q c : option (list float)) :
  _evaluate_locus q c = _evaluate_locus c q.
Proof.
  destruct q as [qs|], c as [cs|]; try done.
  rewrite !evaluate_locus_cases.
  destruct (shares_allele_dec qs cs) as [Hs|Hs],
           (shares_allele_dec cs qs) as [Hs'|Hs']; try done;
    try (by destruct Hs; apply shares_allele_sym);
    try (by destruct Hs'; apply shares_allele_sym).
  destruct (adjacent_pair_dec qs cs) as [Ho|Ho],
           (adjacent_pair_dec cs qs) as [Ho'|Ho']; try done.
  - by destruct Ho'; apply adjacent_pair_sym.
  - by destruct Ho; apply adjacent_pair_sym.
Qed.

(** X11. The verdict depends on which values each side has, not on their
    order nor on how often each is written. *)
Theorem evaluate_locus_same_values (qs qs' cs cs' : list float) :
  (forall a, In a qs <-> In a qs') ->
  (forall b, In b cs <-> In b cs') ->
  _evaluate_locus (Some qs) (Some cs) = _evaluate_locus (Some qs') (Some cs').
Proof.
  intros Hq Hc.
  assert (Hs : shares_allele qs cs <-> shares_allele qs' cs').
  { unfold shares_allele. split; intros (a & b & Ha & Hb & Hab);
      exists a, b; (split; [by apply Hq|]); (split; [by apply Hc|]); done. }
  assert (Ho : adjacent_pair qs cs <-> adjacent_pair qs' cs').
  { unfold adjacent_pair. split; intros (a & b & Ha & Hb & Hab);
      exists a, b; (split; [by apply Hq|]); (split; [by apply Hc|]); done. }
  rewrite !evaluate_locus_cases.
  destruct (shares_allele_dec qs cs), (shares_allele_dec qs' cs'); try tauto.
  destruct (adjacent_pair_dec qs cs), (adjacent_pair_dec qs' cs'); tauto.
Qed.

Lemma evaluate_locus_same_values_witness :
  _evaluate_locus (Some [Float.of_int 9; Float.of_int 10])
                  (Some [Float.of_int 11; Float.of_int 12])
  = _evaluate_locus (Some [Float.of_int 10; Float.of_int 9; Float.of_int 10])
                    (Some [Float.of_int 12; Float.of_int 12; Float.of_int 11]).
Proof.
  apply (evaluate_locus_same_values
           [Float.of_int 9; Float.of_int 10]
           [Float.of_int 10; Float.of_int 9; Float.of_int 10]
           [Float.of_int 11; Float.of_int 12]
           [Float.of_int 12; Float.of_int 12; Float.of_int 11]);
    intros x; simpl; tauto.
Defined.

(** X12. More alleles never make a locus worse: when every value of each
    side is kept and others are added, a Consistent locus stays Consistent
    and a Mutated locus stays Mutated or becomes Consistent. *)
Theorem evaluate_locus_monotone (qs qs' cs cs' : list float) :
  incl qs qs' -> incl cs cs' ->
  (verdict_of (_evaluate_locus (Some qs) (Some cs)) = Consistent ->
   verdict_of (_evaluate_locus (Some qs') (Some cs')) = Consistent) /\
  (verdict_of (_evaluate_locus (Some qs) (Some cs)) = Mutated ->
   verdict_of (_evaluate_locus (Some qs') (Some cs')) = Mutated \/
   verdict_of (_evaluate_locus (Some qs') (Some cs')) = Consistent).
Proof.
  intros Hq Hc.
  assert (Hs : shares_allele qs cs -> shares_allele qs' cs').
  { intros (a & b & Ha & Hb & Hab). exists a, b. auto. }
  assert (Ho : adjacent_pair qs cs -> adjacent_pair qs' cs').
  { intros (a & b & Ha & Hb & Hab). exists a, b. auto. }
  rewrite !evaluate_locus_cases, !verdict_of_tuple.
  destruct (shares_allele_dec qs' cs') as [S'|S']; [split; auto|].
  destruct (shares_allele_dec qs cs) as [S|S]; [tauto|].
  destruct (adjacent_pair_dec qs' cs') as [O'|O'].
  - split; [by destruct (adjacent_pair_dec qs cs) | auto].
  - destruct (adjacent_pair_dec qs cs) as [O|O]; [tauto|]. split; done.
Qed.

Lemma evaluate_locus_monotone_witness :
  verdict_of (_evaluate_locus (Some [Float.of_int 9]) (Some [Float.of_int 10]))
    = Mutated /\
  (verdict_of (_evaluate_locus (Some [Float.of_int 9; Float.of_int 10])
                 (Some [Float.of_int 10])) = Mutated \/
   verdict_of (_evaluate_locus (Some [Float.of_int 9; Float.of_int 10])
                 (Some [Float.of_int 10])) = Consistent).
Proof.
  assert (H : verdict_of (_evaluate_locus (Some [Float.of_int 9])
                            (Some [Float.of_int 10])) = Mutated)
    by (vm_compute; reflexivity).
  split; [exact H|].
  apply (evaluate_locus_monotone [Float.of_int 9] [Float.of_int 9; Float.of_int 10]
           [Float.of_int 10] [Float.of_int 10]).
  - intros x Hx. simpl in *. tauto.
  - intros x Hx. exact Hx.
  - exact H.
Defined.

(** A list against a list of the same values: Consistent as soon as one
    of the values is a number; when all the values are NaN it is a
    Mismatch, since a NaN equals nothing and is at no distance from
    anything.  (The two lists are two objects with elements of their own,
    as when two fields are parsed.) *)
Lemma evaluate_locus_same_list (qs : list float) :
  (Exists (fun a => Float.is_nan a = false) qs ->
   _evaluate_locus (Some qs) (Some qs) = verdict_tuple Consistent) /\
  (Forall (fun a => Float.is_nan a = true) qs ->
   _evaluate_locus (Some qs) (Some qs) = verdict_tuple Mismatch).
Proof.
  destruct (evaluate_locus_some qs qs) as (H1 & _ & H3). split.
  - intros (a & Ha & Hn)%List.Exists_exists. apply H1.
    exists a, a. eauto using eqb_refl_not_nan.
  - intros Hall. rewrite List.Forall_forall in Hall. apply H3.
    + intros (a & b & Ha & _ & Hab).
      apply eqb_true_not_nan in Hab as [Hn _]. rewrite (Hall a Ha) in Hn. done.
    + intros (a & b & Ha & _ & Hab).
      apply adjacent_pair_not_nan in Hab as [Hn _]. rewrite (Hall a Ha) in Hn. done.
Qed.

Lemma forallb_false_Exists {A : Type} (f : A -> bool) (l : list A) :
  forallb f l = false -> Exists (fun a => f a = false) l.
Proof.
  induction l as [|a l IH]; simpl; [done|].
  destruct (f a) eqn:E; simpl.
  - intros H. apply Exists_cons_tl. by apply IH.
  - intros _. by apply Exists_cons_hd.
Qed.

(** X13. In [match_single], a locus at which the candidate's field parses
    to the same values as the query's field is Inconclusive when the
    field is absent, Consistent as soon as one of the values is not a NaN,
    and a Mismatch when all the values are NaN (the text [nan] parses to
    one): the two fields are parsed separately, so a NaN of the query is
    another object than a NaN of the candidate and equals nothing. *)
Theorem same_field_verdict query_profile candidate locus value value' :
  locus <> PersonID ->
  query_profile !! locus = Some value ->
  candidate !! locus = Some value' ->
  _parse_alleles value' = _parse_alleles value ->
  locus_verdict (parse_query query_profile) candidate locus
  = Some (match _parse_alleles value with
          | None => Inconclusive
          | Some alleles =>
              if forallb Float.is_nan alleles then Mismatch else Consistent
          end).
Proof.
  intros Hloc Hq Hc Hsame.
  unfold locus_verdict. rewrite Hc, parse_query_lookup, Hq by done.
  change (mjoin (_parse_alleles <$> Some ?v)) with (_parse_alleles v).
  rewrite Hsame. destruct (_parse_alleles value) as [alleles|]; [|done].
  destruct (evaluate_locus_same_list alleles) as [H1 H2].
  destruct (forallb Float.is_nan alleles) eqn:E.
  - rewrite H2; [done|]. apply List.Forall_forall. intros a Ha.
    rewrite forallb_forall in E. by apply E.
  - rewrite H1; [done|]. by apply forallb_false_Exists.
Qed.

Lemma same_field_verdict_witness :
  locus_verdict (parse_query example_nan_query) example_nan_row "L1" = Some Mismatch /\
  locus_verdict (parse_query example_nan_query) example_nan_row "L2" = Some Consistent.
Proof.
  split.
  - apply (same_field_verdict example_nan_query example_nan_row "L1"
             (Str "nan") (Str " NaN")); by vm_compute.
  - apply (same_field_verdict example_nan_query example_nan_row "L2"
             (Str "nan, 9") (Str "nan,9.0")); by vm_compute.
Defined.

(** ** Whole-number alleles *)

Module WholeAlleles.

Import Rounding.
Local Open Scope Z_scope.

(** [float(a) == float(b)] exactly when [a = b]. *)
Lemma of_int_eqb a b :
  whole_allele a -> whole_allele b ->
  Float.eqb (Float.of_int a) (Float.of_int b) = (a =? b).
Proof.
  unfold whole_allele, Float.of_int. intros Ha Hb.
  apply eq_true_iff_eq. rewrite Z.eqb_eq. split.
  - intros H%FloatFacts.eqb_true_iff.
    destruct (Z.eq_dec a 0) as [->|Ha0], (Z.eq_dec b 0) as [->|Hb0]; [done| | |].
    + destruct (dyadic_finite b 0) as (m' & Hm & _); [done|lia|lia|].
       rewrite Hm in H. done.
    + destruct (dyadic_finite a 0) as (m' & Hm & _); [done|lia|lia|].
       rewrite Hm in H. done.
    + destruct (dyadic_finite a 0) as (ma & Hma & Hva & Hda); [done|lia|lia|].
      destruct (dyadic_finite b 0) as (mb & Hmb & Hvb & Hdb); [done|lia|lia|].
      
      rewrite Hma, Hmb in H. injection H as _ Hm He.
      assert (Hd : Zdigits2 a = Zdigits2 b) by lia.
      rewrite Hm, Hd in Hva. rewrite Hva in Hvb.
      assert (Hp : 0 < 2 ^ (53 - Zdigits2 b)) by (apply Z.pow_pos_nonneg; lia).
      rewrite !Z.abs_eq in Hvb by lia.
      apply Z.mul_cancel_r in Hvb; lia.
  - intros ->. apply eqb_refl_not_nan, NotNan.binary_normalize_not_nan.
Qed.

(** [abs(n) == 1] for the float of a whole number [n] exactly when [n]
    is 1 or -1. *)
Lemma abs_dyadic_one n :
  Z.abs n < 2 ^ 53 ->
  Float.eqb (Float.abs (Float.dyadic n 0)) Float.one = (Z.abs n =? 1).
Proof.
  intros Hn. apply eq_true_iff_eq. rewrite Z.eqb_eq. split.
  - intros H%FloatFacts.eqb_true_iff.
    destruct (Z.eq_dec n 0) as [->|Hn0]; [done|].
    destruct (dyadic_finite n 0) as (m' & Hm & Hv & Hd); [done|lia|lia|].
       rewrite Hm in H. simpl in H.
    injection H as Hm' He.
    assert (Hd1 : Zdigits2 n = 1) by lia.
    rewrite Hm', Hd1 in Hv. change (2 ^ (53 - 1)) with 4503599627370496 in Hv.
    lia.
  - intros H. assert (n = 1 \/ n = -1) as [-> | ->] by lia; reflexivity.
Qed.

(** [abs(float(a) - float(b)) == 1] exactly when [a] and [b] are 1
    apart. *)
Lemma of_int_apart a b :
  whole_allele a -> whole_allele b ->
  Float.eqb (Float.abs (Float.sub (Float.of_int a) (Float.of_int b))) Float.one
  = (Z.abs (a - b) =? 1).
Proof.
  unfold whole_allele. intros Ha Hb.
  unfold Float.of_int.
  change (Float.sub ?x ?y) with (SFsub 53 1024 x y).
  rewrite dyadic_sub by lia.
  apply abs_dyadic_one. lia.
Qed.

Lemma shares_allele_whole qs cs :
  Forall whole_allele qs -> Forall whole_allele cs ->
  shares_allele (map Float.of_int qs) (map Float.of_int cs) <->
  existsb (fun a => existsb (fun b => (a =? b)) cs) qs = true.
Proof.
  intros Hq Hc. rewrite List.Forall_forall in Hq, Hc.
  rewrite existsb_exists. unfold shares_allele. split.
  - intros (x & y & (a & <- & Ha)%in_map_iff & (b & <- & Hb)%in_map_iff & Hab).
    exists a. split; [done|]. apply existsb_exists. exists b. split; [done|].
    by rewrite <- of_int_eqb by auto.
  - intros (a & Ha & (b & Hb & Hab)%existsb_exists).
    exists (Float.of_int a), (Float.of_int b).
    split; [by apply in_map|]. split; [by apply in_map|].
    by rewrite of_int_eqb by auto.
Qed.

Lemma adjacent_pair_whole qs cs :
  Forall whole_allele qs -> Forall whole_allele cs ->
  adjacent_pair (map Float.of_int qs) (map Float.of_int cs) <->
  existsb (fun a => existsb (fun b => (Z.abs (a - b) =? 1)) cs) qs = true.
Proof.
  intros Hq Hc. rewrite List.Forall_forall in Hq, Hc.
  rewrite existsb_exists. unfold adjacent_pair. split.
  - intros (x & y & (a & <- & Ha)%in_map_iff & (b & <- & Hb)%in_map_iff & Hab).
    exists a. split; [done|]. apply existsb_exists. exists b. split; [done|].
    by rewrite <- of_int_apart by auto.
  - intros (a & Ha & (b & Hb & Hab)%existsb_exists).
    exists (Float.of_int a), (Float.of_int b).
    split; [by apply in_map|]. split; [by apply in_map|].
    by rewrite of_int_apart by auto.
Qed.

End WholeAlleles.

Lemma evaluate_whole_numbers (qs cs : list Z) :
  Forall whole_allele qs -> Forall whole_allele cs ->
  _evaluate_locus (Some (map Float.of_int qs)) (Some (map Float.of_int cs))
  = verdict_tuple (exact_verdict qs cs).
Proof.
  intros Hq Hc. rewrite evaluate_locus_cases. unfold exact_verdict.
  pose proof (WholeAlleles.shares_allele_whole qs cs Hq Hc) as Hs.
  pose proof (WholeAlleles.adjacent_pair_whole qs cs Hq Hc) as Ho.
  destruct (existsb (fun a => existsb (fun b => (a =? b)%Z) cs) qs) eqn:E.
  - destruct (shares_allele_dec _ _) as [S|S]; [done|]. by destruct S; apply Hs.
  - destruct (shares_allele_dec _ _) as [S|S].
    { apply Hs in S. congruence. }
    destruct (existsb (fun a => existsb (fun b => (Z.abs (a - b) =? 1)%Z) cs) qs)
      eqn:E'.
    + destruct (adjacent_pair_dec _ _) as [O|O]; [done|]. by destruct O; apply Ho.
    + destruct (adjacent_pair_dec _ _) as [O|O]; [|done].
      apply Ho in O. congruence.
Qed.

(** X14. On whole-number alleles (from 0 to 2^53) the floating-point tests
    are exact: the verdict is the one computed on the integers, Consistent
    for a common number, else Mutated for two numbers exactly 1 apart, else
    Mismatch. *)
Theorem evaluate_locus_whole (qs cs : list Z) :
  Forall whole_allele qs -> Forall whole_allele cs ->
  _evaluate_locus (Some (map Float.of_int qs)) (Some (map Float.of_int cs))
  = verdict_tuple (exact_verdict qs cs).
Proof. apply evaluate_whole_numbers. Qed.

Lemma evaluate_locus_whole_witness :
  _evaluate_locus (Some (map Float.of_int [12; 14]%Z))
                  (Some (map Float.of_int [15; 17]%Z))
  = verdict_tuple Mutated.
Proof.
  apply (evaluate_locus_whole [12; 14]%Z [15; 17]%Z);
    repeat constructor; unfold whole_allele; lia.
Defined.
(** * Further properties of [_parse_alleles] *)

Module TextFacts.

Import Text.

Local Open Scope string_scope.

Lemma append_nil_l s : "" ++ s = s.
Proof. reflexivity. Qed.

Lemma append_cons c s t : String c s ++ t = String c (s ++ t).
Proof. reflexivity. Qed.

Lemma append_nil_r s : s ++ "" = s.
Proof. induction s as [|c s IH]; [done|]. by rewrite append_cons, IH. Qed.

Lemma list_ascii_app s t :
  list_ascii_of_string (s ++ t) = (list_ascii_of_string s ++ list_ascii_of_string t)%list.
Proof.
  induction s as [|c s IH]; [done|]. rewrite append_cons. simpl. by rewrite IH.
Qed.

Lemma string_of_list_app l k :
  string_of_list_ascii (l ++ k)%list = string_of_list_ascii l ++ string_of_list_ascii k.
Proof.
  induction l as [|c l IH]; simpl; [done|]. by rewrite append_cons, IH.
Qed.

(** ** White space at the ends *)

Lemma lstrip_split l :
  exists w, l = (w ++ lstrip l)%list /\ forallb is_space w = true.
Proof.
  induction l as [|c l (w & Hl & Hw)]; [by exists []|]. simpl.
  destruct (is_space c) eqn:E.
  - exists (c :: w). simpl. rewrite E, Hw. split; [by rewrite <- Hl | done].
  - by exists [].
Qed.

Lemma lstrip_blank_app w l :
  forallb is_space w = true -> lstrip (w ++ l) = lstrip l.
Proof.
  induction w as [|c w IH]; simpl; [done|].
  intros [-> Hw]%andb_true_iff. auto.
Qed.

Lemma lstrip_app l w : lstrip l <> [] -> lstrip (l ++ w) = (lstrip l ++ w)%list.
Proof.
  induction l as [|c l IH]; simpl; [done|].
  destruct (is_space c); [apply IH | done].
Qed.

Lemma forallb_rev {A : Type} (f : A -> bool) (l : list A) :
  forallb f (rev l) = forallb f l.
Proof.
  induction l as [|x l IH]; simpl; [done|].
  rewrite forallb_app, IH. simpl. destruct (f x), (forallb f l); done.
Qed.

Lemma rstrip_split l :
  exists w, l = (rstrip l ++ w)%list /\ forallb is_space w = true.
Proof.
  unfold rstrip. destruct (lstrip_split (rev l)) as (w & Hl & Hw).
  exists (rev w). rewrite forallb_rev. split; [|done].
  by rewrite <- rev_app_distr, <- Hl, rev_involutive.
Qed.

Lemma rstrip_app_blank l w :
  forallb is_space w = true -> rstrip (l ++ w) = rstrip l.
Proof.
  intros Hw. unfold rstrip. rewrite rev_app_distr, lstrip_blank_app; [done|].
  by rewrite forallb_rev.
Qed.

(** Trimming a text padded with white space. *)
Lemma strip_pad_l w s : blank w -> strip (w ++ s) = strip s.
Proof.
  unfold blank, strip. intros Hw.
  by rewrite list_ascii_app, lstrip_blank_app.
Qed.

Lemma strip_pad_r s w : blank w -> strip (s ++ w) = strip s.
Proof.
  unfold blank, strip. intros Hw. rewrite list_ascii_app.
  destruct (lstrip (list_ascii_of_string s)) as [|c l] eqn:E.
  - destruct (lstrip_split (list_ascii_of_string s)) as (w' & Hs & Hw').
    rewrite E, app_nil_r in Hs. rewrite Hs.
    rewrite <- (app_nil_r (w' ++ list_ascii_of_string w)%list).
    rewrite lstrip_blank_app; [done|].
    by rewrite forallb_app, Hw', Hw.
  - rewrite lstrip_app by (by rewrite E). rewrite E.
    by rewrite rstrip_app_blank.
Qed.

(** A text is its trimmed text between two runs of white space. *)
Lemma strip_split s :
  exists w1 w2, s = w1 ++ strip s ++ w2 /\ blank w1 /\ blank w2.
Proof.
  destruct (lstrip_split (list_ascii_of_string s)) as (w1 & H1 & Hw1).
  destruct (rstrip_split (lstrip (list_ascii_of_string s))) as (w2 & H2 & Hw2).
  exists (string_of_list_ascii w1), (string_of_list_ascii w2).
  unfold blank, strip. rewrite !list_ascii_of_string_of_list_ascii.
  split; [|done].
  rewrite <- !string_of_list_app, <- H2, <- H1.
  by rewrite string_of_list_ascii_of_string.
Qed.

(** ** The fields between commas *)

Lemma split_nonempty sep s : split sep s <> [].
Proof.
  destruct s as [|c s]; simpl; [done|].
  destruct (Ascii.eqb c sep); [done|]. by destruct (split sep s).
Qed.

(** Splitting a text at one of its separators: the fields before it,
    then the fields after it. *)
Lemma split_app sep s t :
  split sep (s ++ String sep t) = (split sep s ++ split sep t)%list.
Proof.
  induction s as [|c s IH]; rewrite ?append_nil_l, ?append_cons; simpl.
  - by rewrite Ascii.eqb_refl.
  - destruct (Ascii.eqb c sep); [by rewrite IH|].
    rewrite IH. pose proof (split_nonempty sep s).
    by destruct (split sep s).
Qed.

Lemma blank_no_comma w :
  blank w -> forallb (fun c => negb (Ascii.eqb c ",")) (list_ascii_of_string w) = true.
Proof.
  unfold blank. induction w as [|c w IH]; simpl; [done|].
  intros [Hc Hw]%andb_true_iff. rewrite IH by done.
  destruct (Ascii.eqb_spec c ",") as [->|]; [done|done].
Qed.

(** White space before a text goes to its first field. *)
Lemma split_pad_l w s :
  blank w ->
  exists f fs, split "," s = f :: fs /\ split "," (w ++ s) = (w ++ f) :: fs.
Proof.
  intros Hw%blank_no_comma.
  induction w as [|c w IH]; simpl in Hw.
  - pose proof (split_nonempty "," s). destruct (split "," s) as [|f fs] eqn:E; [done|].
    exists f, fs. by rewrite !append_nil_l.
  - apply andb_true_iff in Hw as [Hc Hw].
    destruct (IH Hw) as (f & fs & H1 & H2). exists f, fs. split; [done|].
    apply negb_true_iff in Hc. rewrite !append_cons. simpl. by rewrite Hc, H2.
Qed.

(** White space after a text goes to its last field. *)
Lemma split_pad_r s w :
  blank w ->
  Forall2 (fun f g => exists w', blank w' /\ f = g ++ w')
    (split "," (s ++ w)) (split "," s).
Proof.
  intros Hw. induction s as [|c s IH].
  - destruct (split_pad_l w "" Hw) as (f & fs & H1 & H2).
    injection H1 as <- <-.
    rewrite append_nil_r in H2. rewrite append_nil_l, H2.
    repeat constructor. by exists w.
  - rewrite append_cons. simpl. destruct (Ascii.eqb c ",").
    + constructor; [|done]. exists "". by rewrite append_nil_r.
    + destruct IH as [|f g fs gs (w' & Hw' & ->) Hrest].
      * repeat constructor. exists "". by rewrite append_nil_r.
      * constructor; [|done]. by exists w'.
Qed.

End TextFacts.

Section FieldFacts.

Import TextFacts.
Local Open Scope string_scope.

Lemma token_value_pad_l w f : blank w -> token_value (w ++ f) = token_value f.
Proof. intros Hw. unfold token_value. by rewrite strip_pad_l. Qed.

Lemma token_value_pad_r f w : blank w -> token_value (f ++ w) = token_value f.
Proof. intros Hw. unfold token_value. by rewrite strip_pad_r. Qed.

Lemma surviving_values_pad_l w s :
  blank w -> surviving_values (w ++ s) = surviving_values s.
Proof.
  intros Hw. unfold surviving_values.
  destruct (split_pad_l w s Hw) as (f & fs & -> & ->). simpl.
  by rewrite token_value_pad_l by done.
Qed.

Lemma surviving_values_pad_r s w :
  blank w -> surviving_values (s ++ w) = surviving_values s.
Proof.
  intros Hw. unfold surviving_values.
  pose proof (split_pad_r s w Hw) as H. revert H.
  generalize (Text.split "," (s ++ w)) (Text.split "," s).
  induction 1 as [|f g fs gs (w' & Hw' & ->) _ IH]; [done|].
  simpl. rewrite token_value_pad_r by done.
  destruct (token_value g); [f_equal|]; exact IH.
Qed.

(** Trimming the whole text first does not change the values found. *)
Lemma surviving_values_strip s :
  surviving_values (Text.strip s) = surviving_values s.
Proof.
  destruct (strip_split s) as (w1 & w2 & Hs & Hw1 & Hw2).
  rewrite Hs at 2.
  by rewrite surviving_values_pad_l, surviving_values_pad_r.
Qed.

Lemma surviving_values_app s t :
  surviving_values (s ++ String "," t)
  = (surviving_values s ++ surviving_values t)%list.
Proof.
  unfold surviving_values. rewrite split_app. apply omap_app.
Qed.

Lemma parse_alleles_fields s :
  _parse_alleles (Str s) = some_alleles (surviving_values s).
Proof.
  rewrite <- surviving_values_strip.
  unfold _parse_alleles, surviving_values. rewrite parse_loop_spec. simpl.
  destruct (String.eqb_spec (Text.strip s) "") as [->|E1]; [done|].
  destruct (String.eqb_spec (Text.strip s) "-") as [->|E2]; [done|].
  simpl. by destruct (omap token_value _).
Qed.

Lemma parse_alleles_comma s t :
  _parse_alleles (Str (s ++ "," ++ t))
  = alleles_app (_parse_alleles (Str s)) (_parse_alleles (Str t)).
Proof.
  rewrite !parse_alleles_fields.
  change (s ++ "," ++ t)%string with (s ++ String "," t)%string.
  rewrite surviving_values_app. unfold alleles_app.
  by destruct (surviving_values s), (surviving_values t).
Qed.

End FieldFacts.

(** X15. The parser's result is determined by the comma-separated fields of
    the raw text alone: it is the list of the values of the fields that
    [float] accepts once trimmed, or absent when there is none. The trimming
    of the whole text and the test for the placeholder ["-"] change nothing;
    so white space around the text makes no difference either. *)
Theorem parse_alleles_by_fields :
  (forall s, _parse_alleles (Str s) = some_alleles (surviving_values s)) /\
  (forall w1 s w2, blank w1 -> blank w2 ->
     _parse_alleles (Str (w1 ++ s ++ w2)) = _parse_alleles (Str s)).
Proof.
  split; [apply parse_alleles_fields|].
  intros w1 s w2 Hw1 Hw2. rewrite !parse_alleles_fields.
  by rewrite surviving_values_pad_l, surviving_values_pad_r.
Qed.

Lemma parse_alleles_by_fields_witness :
  _parse_alleles (Str (" " ++ "9, 10" ++ "  ")) = _parse_alleles (Str "9, 10").
Proof.
  apply (proj2 parse_alleles_by_fields " " "9, 10" "  "); reflexivity.
Defined.

(** X16. Parsing two texts joined by a comma gives the values of the first
    followed by the values of the second. *)
Theorem parse_alleles_app s t :
  _parse_alleles (Str (s ++ "," ++ t))
  = alleles_app (_parse_alleles (Str s)) (_parse_alleles (Str t)).
Proof. apply parse_alleles_comma. Qed.
(** ** Whole numbers written in decimal *)

Module DecimalFacts.

Import Text PyFloat.
Local Open Scope Z_scope.

(** The character of a decimal digit. *)
Lemma digit_char d :
  0 <= d < 10 ->
  let c := ascii_of_N (Z.to_N (48 + d)) in
  is_digit c = true /\ digit_value c = d /\ is_space c = false /\
  Ascii.eqb c "," = false /\ Ascii.eqb c "+" = false /\ Ascii.eqb c "-" = false /\
  Ascii.eqb c "_" = false /\ Ascii.eqb c "." = false /\
  lower c = c /\ Ascii.eqb c "i" = false /\ Ascii.eqb c "n" = false.
Proof.
  intros Hd.
  assert (d = 0 \/ d = 1 \/ d = 2 \/ d = 3 \/ d = 4 \/ d = 5 \/ d = 6 \/ d = 7
          \/ d = 8 \/ d = 9) as H by lia.
  repeat (destruct H as [->|H]); [..|subst d]; vm_compute; repeat split.
Qed.

Lemma sign_digit d l :
  0 <= d < 10 ->
  sign (ascii_of_N (Z.to_N (48 + d)) :: l) = (false, ascii_of_N (Z.to_N (48 + d)) :: l).
Proof.
  intros Hd.
  assert (d = 0 \/ d = 1 \/ d = 2 \/ d = 3 \/ d = 4 \/ d = 5 \/ d = 6 \/ d = 7
          \/ d = 8 \/ d = 9) as H by lia.
  repeat (destruct H as [->|H]); [..|subst d]; reflexivity.
Qed.

Lemma digits_value_snoc ds d :
  digits_value (ds ++ [d]) = 10 * digits_value ds + d.
Proof. unfold digits_value. by rewrite fold_left_app. Qed.

Lemma digits_of_one n :
  0 <= n < 10 -> digits_of n [ascii_of_N (Z.to_N (48 + n))].
Proof.
  intros Hn. split; [done|]. split.
  - repeat constructor. by exists n.
  - pose proof (digit_char n Hn) as (_ & Hv & _). cbv zeta in Hv.
    change (10 * 0 + digit_value (ascii_of_N (Z.to_N (48 + n))) = n). lia.
Qed.

Lemma digits_of_snoc n ds d :
  digits_of n ds -> 0 <= d < 10 ->
  digits_of (10 * n + d) (ds ++ [ascii_of_N (Z.to_N (48 + d))]).
Proof.
  intros (Hne & Hall & Hval) Hd. split; [by destruct ds|]. split.
  - apply Forall_app. split; [done|]. repeat constructor. by exists d.
  - pose proof (digit_char d Hd) as (_ & Hv & _). cbv zeta in Hv.
    rewrite map_app. simpl map. by rewrite digits_value_snoc, Hval, Hv.
Qed.

Lemma decimal_spec fuel : forall n acc,
  0 <= n < 10 ^ Z.of_nat (S fuel) ->
  exists ds, decimal (S fuel) n acc = (ds ++ acc)%list /\ digits_of n ds.
Proof.
  induction fuel as [|fuel IH]; intros n acc Hn.
  - change (10 ^ Z.of_nat 1) with 10 in Hn.
    exists [ascii_of_N (Z.to_N (48 + n))]. split; [|by apply digits_of_one].
    simpl. rewrite Z.mod_small by lia.
    destruct (Z.ltb_spec n 10); [done|lia].
  - assert (Hd : 0 <= n mod 10 < 10) by (apply Z.mod_pos_bound; lia).
    change (decimal (S (S fuel)) n acc)
      with (if n <? 10 then ascii_of_N (Z.to_N (48 + n mod 10)) :: acc
            else decimal (S fuel) (n / 10)
                   (ascii_of_N (Z.to_N (48 + n mod 10)) :: acc)).
    destruct (Z.ltb_spec n 10) as [Hlt|Hge].
    + exists [ascii_of_N (Z.to_N (48 + n))].
      split; [by rewrite Z.mod_small by lia | apply digits_of_one; lia].
    + destruct (IH (n / 10) (ascii_of_N (Z.to_N (48 + n mod 10)) :: acc))
        as (ds & Hdec & Hds).
      { split; [apply Z.div_pos; lia|].
        apply Z.div_lt_upper_bound; [lia|].
        rewrite (Nat2Z.inj_succ (S fuel)), Z.pow_succ_r in Hn by lia. lia. }
      rewrite Hdec.
      exists (ds ++ [ascii_of_N (Z.to_N (48 + n mod 10))])%list.
      split; [by rewrite <- app_assoc|].
      pose proof (digits_of_snoc _ _ _ Hds Hd) as H.
      replace (10 * (n / 10) + n mod 10) with n in H
        by (pose proof (Z.div_mod n 10); lia).
      exact H.
Qed.

Lemma str_of_int_digits n :
  0 <= n -> exists ds, str_of_int n = string_of_list_ascii ds /\ digits_of n ds.
Proof.
  intros Hn. unfold str_of_int.
  destruct (decimal_spec (Z.to_nat (Z.log2 n)) n []) as (ds & Hds & H).
  - split; [done|].
    rewrite Nat2Z.inj_succ, Z2Nat.id by apply Z.log2_nonneg.
    destruct (Z.eq_dec n 0) as [->|Hn0]; [done|].
    pose proof (Z.log2_spec n ltac:(lia)) as [_ Hlog].
    eapply Z.lt_le_trans; [exact Hlog|].
    apply Z.pow_le_mono_l. pose proof (Z.log2_nonneg n). lia.
  - exists ds. rewrite Hds, app_nil_r. done.
Qed.

Section Digits.

Variables (n : Z) (ds : list ascii).
Hypothesis Hds : digits_of n ds.

Lemma digits_all (P : ascii -> Prop) :
  (forall d, 0 <= d < 10 -> P (ascii_of_N (Z.to_N (48 + d)))) -> Forall P ds.
Proof.
  intros HP. destruct Hds as (_ & Hall & _).
  eapply Forall_impl; [exact Hall|]. intros c (d & Hd & ->). auto.
Qed.

Lemma digits_no_space : forallb (fun c => negb (is_space c)) ds = true.
Proof.
  apply forallb_forall, List.Forall_forall, digits_all.
  intros d Hd. by destruct (digit_char d Hd) as (_ & _ & -> & _).
Qed.

Lemma lstrip_no_space l :
  forallb (fun c => negb (is_space c)) l = true -> lstrip l = l.
Proof.
  destruct l as [|c l]; simpl; [done|].
  intros [Hc _]%andb_true_iff. apply negb_true_iff in Hc. by rewrite Hc.
Qed.

Lemma strip_digits : strip (string_of_list_ascii ds) = string_of_list_ascii ds.
Proof.
  unfold strip, rstrip. rewrite list_ascii_of_string_of_list_ascii.
  rewrite (lstrip_no_space ds) by apply digits_no_space.
  rewrite (lstrip_no_space (rev ds)), rev_involutive; [done|].
  rewrite TextFacts.forallb_rev. apply digits_no_space.
Qed.

Lemma digit_run_digits : forall l,
  Forall (fun c => exists d, 0 <= d < 10 /\ c = ascii_of_N (Z.to_N (48 + d))) l ->
  digit_run l = (map digit_value l, []).
Proof.
  induction 1 as [|c l (d & Hd & ->) _ IH]; simpl; [done|].
  destruct (digit_char d Hd) as (-> & _). by rewrite IH.
Qed.

Lemma split_digits : split "," (string_of_list_ascii ds) = [string_of_list_ascii ds].
Proof.
  destruct Hds as (_ & Hall & _). clear Hds.
  induction Hall as [|c l (d & Hd & ->) _ IH]; simpl; [done|].
  destruct (digit_char d Hd) as (_ & _ & _ & -> & _). by rewrite IH.
Qed.

(** [float] of a run of digits is the float of its value. *)
Lemma float_of_digits :
  float_of_string (string_of_list_ascii ds) = Some (Float.of_int n).
Proof.
  destruct Hds as (Hne & Hall & Hval).
  unfold float_of_string. rewrite list_ascii_of_string_of_list_ascii.
  destruct ds as [|c l]; [done|]. clear Hne.
  apply Forall_cons in Hall as [(d & Hd & ->) Hl].
  destruct (digit_char d Hd)
    as (Hdig & Hv & _ & _ & Hplus & Hminus & _ & _ & Hlow & Hi & Hn).
  set (c := ascii_of_N (Z.to_N (48 + d))) in *.
  pose proof (sign_digit d l Hd) as Hsign. fold c in Hsign.
  rewrite Hsign. simpl map. simpl string_of_list_ascii. rewrite Hlow.
  assert (Hinf : forall r, String.eqb (String c r) "inf" = false)
    by (intros r; simpl; by rewrite Hi).
  assert (Hinfinity : forall r, String.eqb (String c r) "infinity" = false)
    by (intros r; simpl; by rewrite Hi).
  assert (Hnan : forall r, String.eqb (String c r) "nan" = false)
    by (intros r; simpl; by rewrite Hn).
  rewrite Hinf, Hinfinity, Hnan. simpl orb. cbv iota.
  unfold number, digitpart. rewrite Hdig, (digit_run_digits l Hl).
  simpl exponent. cbv iota beta. rewrite app_nil_r.
  simpl map in Hval. rewrite Hval. simpl length.
  f_equal. unfold Float.of_decimal, Float.of_int, Float.dyadic, binary_normalize.
  assert (0 <= n).
  { rewrite <- Hval. unfold digits_value.
    assert (Hfold : forall l acc, 0 <= acc -> Forall (fun x => 0 <= x) l ->
              0 <= fold_left (fun acc d => 10 * acc + d) l acc).
    { clear. induction l as [|x l IH]; intros acc Hacc Hl; simpl; [done|].
      apply Forall_cons in Hl as [Hx Hl]. apply IH; [lia|done]. }
    apply Hfold; [lia|]. constructor; [lia|].
    clear -Hl. induction Hl as [|c l (d & Hd & ->) _ IH]; simpl; [done|].
    constructor; [|done]. destruct (digit_char d Hd) as (_ & -> & _). lia. }
  destruct n as [|p|p]; [done| |lia].
  simpl. by rewrite Pos.mul_1_r.
Qed.

Lemma token_value_digits :
  token_value (string_of_list_ascii ds) = Some (Float.of_int n).
Proof. unfold token_value. by rewrite strip_digits, float_of_digits. Qed.

End Digits.

End DecimalFacts.

(** A whole number written in decimal parses to the one float that is
    the number. *)
Lemma parse_alleles_number n :
  (0 <= n)%Z -> _parse_alleles (Str (str_of_int n)) = Some [Float.of_int n].
Proof.
  intros Hn. destruct (DecimalFacts.str_of_int_digits n Hn) as (ds & -> & Hds).
  rewrite parse_alleles_fields. unfold surviving_values.
  rewrite (DecimalFacts.split_digits n ds Hds). simpl.
  by rewrite (DecimalFacts.token_value_digits n ds Hds).
Qed.

Lemma parse_whole_numbers (ns : list Z) :
  ns <> [] -> Forall (fun n => 0 <= n)%Z ns ->
  _parse_alleles (Str (join_commas (map str_of_int ns)))
  = Some (map Float.of_int ns).
Proof.
  intros Hne Hall. induction Hall as [|n ns Hn Hns IH]; [done|]. clear Hne.
  destruct ns as [|n' ns].
  - simpl. by apply parse_alleles_number.
  - change (join_commas (map str_of_int (n :: n' :: ns)))
      with (str_of_int n ++ "," ++ join_commas (map str_of_int (n' :: ns)))%string.
    rewrite parse_alleles_comma, IH by done.
    rewrite parse_alleles_number by done.
    reflexivity.
Qed.

Lemma whole_allele_nonneg (ns : list Z) :
  Forall whole_allele ns -> Forall (fun n => 0 <= n)%Z ns.
Proof.
  intros H. eapply Forall_impl; [exact H|]. unfold whole_allele. intros. lia.
Qed.

(** X17. Whole numbers written in decimal and separated by commas, as in
    ["12,14"], parse to the floats of these numbers, in the order written:
    each is the number itself up to 2^53 and the nearest float beyond. *)
Theorem parse_alleles_whole (ns : list Z) :
  ns <> [] -> Forall (fun n => 0 <= n)%Z ns ->
  _parse_alleles (Str (join_commas (map str_of_int ns)))
  = Some (map Float.of_int ns).
Proof. apply parse_whole_numbers. Qed.

Lemma parse_alleles_whole_witness :
  _parse_alleles (Str (join_commas (map str_of_int [12; 14]%Z)))
  = Some (map Float.of_int [12; 14]%Z).
Proof.
  apply (parse_alleles_whole [12; 14]%Z); [done|].
  repeat constructor; lia.
Defined.

Example str_of_int_examples :
  str_of_int 0 = "0"%string /\ str_of_int 12 = "12"%string /\
  str_of_int 1000 = "1000"%string /\
  join_commas (map str_of_int [12; 14]%Z) = "12,14"%string.
Proof. repeat split. Qed.

(** X18. In [match_single], a locus at which the query and the candidate
    both hold whole numbers written in decimal and separated by commas gets
    the verdict computed on these integers: the parsing and the
    floating-point tests lose nothing. *)
Theorem whole_number_locus query_profile candidate locus (ns ms : list Z) :
  locus <> PersonID ->
  query_profile !! locus = Some (Str (join_commas (map str_of_int ns))) ->
  candidate !! locus = Some (Str (join_commas (map str_of_int ms))) ->
  ns <> [] -> ms <> [] ->
  Forall whole_allele ns -> Forall whole_allele ms ->
  locus_verdict (parse_query query_profile) candidate locus
  = Some (exact_verdict ns ms).
Proof.
  intros Hloc Hq Hc Hns Hms Hwn Hwm.
  unfold locus_verdict. rewrite Hc, parse_query_lookup, Hq by done.
  change (mjoin (_parse_alleles <$> Some ?v)) with (_parse_alleles v).
  rewrite !parse_whole_numbers by (done || by apply whole_allele_nonneg).
  by rewrite evaluate_whole_numbers, verdict_of_tuple.
Qed.

Lemma whole_number_locus_witness :
  locus_verdict (parse_query example_query) example_row_A "L1" = Some Consistent.
Proof.
  apply (whole_number_locus example_query example_row_A "L1" [9; 10]%Z [10; 11]%Z);
    try done; repeat constructor; unfold whole_allele; lia.
Defined.
